(** * Project-Ghost backend: chunker, index adapter, reranker and agent loop

    A shallow embedding of the retrieval-and-reasoning core of the backend
    ([vector_store.py], [reranker_service.py], [routes.py],
    [agent_tools.py], [agent_service.py]) together with the properties
    stated about it. *)

From Stdlib Require Import String Ascii DecimalString DecimalPos DecimalZ.
From Stdlib Require Import ZArith NArith QArith List Bool Lia Lqa.
From Stdlib Require Import Sorting.Sorted Permutation.
Import ListNotations.

Local Open Scope Z_scope.

(** ** Python text

    A Python [str] is a sequence of Unicode code points; page text is
    modelled as a list of code points so that [len], slicing and the
    single-character regular expressions of the chunker count what Python
    counts. *)

Module PyStr.

Definition char := N.
Definition str := list char.

Definition len (s : str) : Z := Z.of_nat (length s).

(** Truth value of a string: [if s] holds for a non-empty string. *)
Definition truthy (s : str) : bool :=
  match s with [] => false | _ :: _ => true end.

(** Index normalisation of a slice bound, as Python does it for a sequence
    of length [n]: a negative bound counts from the end, and every bound is
    clamped to [0 .. n]. *)
Definition clamp (n i : Z) : Z :=
  if i <? 0 then Z.max 0 (i + n) else Z.min i n.

(** [s[a:b]] *)
Definition slice (s : str) (a b : Z) : str :=
  let a' := clamp (len s) a in
  let b' := clamp (len s) b in
  firstn (Z.to_nat (b' - a')) (skipn (Z.to_nat a') s).

(** [s[a:]] *)
Definition slice_from (s : str) (a : Z) : str :=
  skipn (Z.to_nat (clamp (len s) a)) s.

(** Code points for which [str.isspace] holds; [str.strip()] and the
    regular-expression class [\s] on [str] patterns both use this set. *)
Definition isspace (c : char) : bool :=
  ((9 <=? c) && (c <=? 13) || (28 <=? c) && (c <=? 32) ||
   (c =? 133) || (c =? 160) || (c =? 5760) ||
   (8192 <=? c) && (c <=? 8202) || (c =? 8232) || (c =? 8233) ||
   (c =? 8239) || (c =? 8287) || (c =? 12288))%N.

Fixpoint lstrip (s : str) : str :=
  match s with
  | c :: r => if isspace c then lstrip r else s
  | [] => []
  end.

Definition rstrip (s : str) : str := rev (lstrip (rev s)).

(** [s.strip()] *)
Definition strip (s : str) : str := rstrip (lstrip s).

(** A literal given in ASCII. *)
Definition lit (s : string) : str :=
  map (fun a => N_of_ascii a) (list_ascii_of_string s).

Definition SPACE : char := 32%N.

(** [sep.join(parts)] for the one-character separator [" "]. *)
Fixpoint join_space (parts : list str) : str :=
  match parts with
  | [] => []
  | [p] => p
  | p :: rest => p ++ SPACE :: join_space rest
  end.

End PyStr.

Import PyStr.

(** ** Chunker ([vector_store._split_into_chunks]) *)

Module Chunker.

Definition CHUNK_SIZE : Z := 400.
Definition CHUNK_OVERLAP : Z := 100.
Definition MIN_CHUNK_SIZE : Z := 50.

(** The class [[。！？.!?\n]]. *)
Definition is_sentence_end (c : char) : bool :=
  ((c =? 12290) || (c =? 65281) || (c =? 65311) ||
   (c =? 46) || (c =? 33) || (c =? 63) || (c =? 10))%N.

(** The class [[\s,，;；、]]. *)
Definition is_soft_boundary (c : char) : bool :=
  (isspace c || (c =? 44) || (c =? 65292) || (c =? 59) ||
   (c =? 65307) || (c =? 12289))%N.

(** [for m in re.finditer(cls, region): match = m] keeps the last match of a
    one-character class; the result is [m.end()] of that match, the index
    just after the matched character.  [pos] is the index of the head of
    [region] and [acc] the match kept so far. *)
Fixpoint last_match_end (cls : char -> bool) (region : str) (pos : Z)
    (acc : option Z) : option Z :=
  match region with
  | [] => acc
  | c :: r =>
      last_match_end cls r (pos + 1) (if cls c then Some (pos + 1) else acc)
  end.

(** Lines 66-88: the cut position of the window that starts at [start]. *)
Definition find_cut (text : str) (start : Z) : Z :=
  let end_ := start + CHUNK_SIZE in
  let search_region := slice text (Z.max start (end_ - 80)) end_ in
  match last_match_end is_sentence_end search_region 0 None with
  | Some m_end => Z.max start (end_ - 80) + m_end
  | None =>
      let search_region2 := slice text (Z.max start (end_ - 40)) end_ in
      match last_match_end is_soft_boundary search_region2 0 None with
      | Some m_end => Z.max start (end_ - 40) + m_end
      | None => end_
      end
  end.

(** [chunks[-1] = chunks[-1] + " " + chunk] on a non-empty list. *)
Definition merge_last (chunks : list str) (chunk : str) : list str :=
  removelast chunks ++ [last chunks [] ++ [SPACE] ++ chunk].

Definition nonempty {A} (l : list A) : bool :=
  match l with [] => false | _ :: _ => true end.

(** Lines 91-94: a cut segment is appended, merged into the previous chunk,
    or (no branch applies) left out. *)
Definition emit (chunks : list str) (chunk : str) : list str :=
  if truthy chunk && (MIN_CHUNK_SIZE <=? len chunk) then chunks ++ [chunk]
  else if truthy chunk && nonempty chunks then merge_last chunks chunk
  else chunks.

(** Lines 57-63: the last segment. *)
Definition emit_last (chunks : list str) (chunk : str) : list str :=
  if truthy chunk && (MIN_CHUNK_SIZE <=? len chunk) then chunks ++ [chunk]
  else if truthy chunk && nonempty chunks then merge_last chunks chunk
  else if truthy chunk then chunks ++ [chunk]
  else chunks.

(** Lines 97-100: the start of the next window. *)
Definition next_start (cut_pos : Z) : Z :=
  let start := cut_pos - CHUNK_OVERLAP in
  if start <=? cut_pos - CHUNK_SIZE then cut_pos else start.

(** The [while start < text_len] loop.  [fuel] bounds the number of
    iterations; [None] means the bound was reached before the loop ended. *)
Fixpoint chunk_loop (fuel : nat) (text : str) (start : Z)
    (chunks : list str) : option (list str) :=
  match fuel with
  | O => None
  | S fuel' =>
      if start <? len text then
        let end_ := start + CHUNK_SIZE in
        if end_ >=? len text then
          Some (emit_last chunks (strip (slice_from text start)))
        else
          let cut_pos := find_cut text start in
          chunk_loop fuel' text (next_start cut_pos)
            (emit chunks (strip (slice text start cut_pos)))
      else Some chunks
  end.

Definition _split_into_chunks (text : str) : option (list str) :=
  if negb (truthy text) || (len text <=? CHUNK_SIZE) then
    Some (if truthy text && (MIN_CHUNK_SIZE <=? len text) then [text]
          else if truthy text then [text] else [])
  else
    match chunk_loop (S (length text)) text 0 [] with
    | Some chunks => Some (if nonempty chunks then chunks else [text])
    | None => None
    end.

Definition split_text (text : str) : option (list str) :=
  _split_into_chunks text.

(** The windows [(start, cut_pos)] the loop cuts, in order: the values its
    two position variables take, the last window ending at the end of the
    text. *)
Fixpoint windows (fuel : nat) (text : str) (start : Z) : list (Z * Z) :=
  match fuel with
  | O => []
  | S fuel' =>
      if start <? len text then
        let end_ := start + CHUNK_SIZE in
        if end_ >=? len text then [(start, len text)]
        else
          let cut_pos := find_cut text start in
          (start, cut_pos) :: windows fuel' text (next_start cut_pos)
      else []
  end.

(** *** Vocabulary of the chunker's properties *)

(** Spans [(s, c)], standing for [text[s:c]] of a text of length [n], cover
    it contiguously from [reach] on: each span lies inside the text, starts
    at or before the position reached so far, and the last one reaches the
    end of the text. *)
Fixpoint covers_from (n reach : Z) (spans : list (Z * Z)) : Prop :=
  match spans with
  | [] => reach = n
  | (s, c) :: rest =>
      0 <= s <= reach /\ s < c <= n /\ covers_from n (Z.max reach c) rest
  end.

(** The chunks cover the text contiguously: every chunk is the text of a
    span, and the spans cover the text from position 0 with no gap. *)
Definition reconstructs (text : str) (chunks : list str) : Prop :=
  exists spans,
    Forall2 (fun span chunk => slice text (fst span) (snd span) = chunk)
      spans chunks /\
    covers_from (len text) 0 spans.

(** The stripped content of a window. *)
Definition segment (text : str) (w : Z * Z) : str :=
  strip (slice text (fst w) (snd w)).

(** A window with something left after stripping. *)
Definition nonblank (text : str) (w : Z * Z) : bool :=
  truthy (segment text w).

(** The chunk made of a group of windows: their stripped contents joined
    by single spaces. *)
Definition chunk_of (text : str) (group : list (Z * Z)) : str :=
  join_space (map (segment text) group).

(** The chunks are assembled from the windows [ws]: the non-blank windows,
    in their order, are the windows [left_out] followed by the groups the
    chunks are made of, one group for every chunk. *)
Definition assembled (text : str) (ws left_out : list (Z * Z))
    (chunks : list str) : Prop :=
  exists groups,
    filter (nonblank text) ws = left_out ++ concat groups /\
    Forall (fun group => group <> []) groups /\
    chunks = map (chunk_of text) groups.

(** The text starts with enough content: the first non-blank window,
    unless it is the last window, holds at least [MIN_CHUNK_SIZE]
    characters after stripping. *)
Definition starts_full (text : str) (ws : list (Z * Z)) : Prop :=
  forall blank w rest,
    ws = blank ++ w :: rest ->
    rest <> [] ->
    Forall (fun v => segment text v = []) blank ->
    segment text w <> [] ->
    MIN_CHUNK_SIZE <= len (segment text w).

(** A chunk made of a head of at most [CHUNK_SIZE] characters followed by
    the short segments [tails] merged into it, each after one space. *)
Definition merged_form (chunk : str) (tails : list str) : Prop :=
  exists head,
    chunk = head ++ concat (map (cons SPACE) tails) /\
    len head <= CHUNK_SIZE /\
    Forall (fun t => 0 < len t < MIN_CHUNK_SIZE) tails.

(** Chunks as they are while the loop runs: none below the minimum. *)
Definition full_chunks (chunks : list str) : Prop :=
  Forall (fun c => MIN_CHUNK_SIZE <= len c /\ exists tails, merged_form c tails)
    chunks.

(** Chunks as the loop leaves them. *)
Definition sized_chunks (chunks : list str) : Prop :=
  Forall (fun c => 0 < len c /\ exists tails, merged_form c tails) chunks /\
  (forall c, In c chunks -> len c < MIN_CHUNK_SIZE -> chunks = [c]).

(** *** Sample texts *)

Definition letter_a : char := 97%N.
Definition letter_b : char := 98%N.
Definition full_stop : char := 46%N.

(** 450 letters and a trailing space. *)
Definition text_trailing_space : str := repeat letter_a 450 ++ [SPACE].

(** 300 letters, 99 spaces, a full stop, 10 letters. *)
Definition text_short_tail : str :=
  repeat letter_a 300 ++ repeat SPACE 99 ++ [full_stop] ++ repeat letter_b 10.

(** A text of 500 letters. *)
Definition text_plain : str := repeat letter_a 500.

(** A word, 395 spaces and 500 letters. *)
Definition text_short_head : str :=
  lit "Hello" ++ repeat SPACE 395 ++ repeat letter_a 500.

End Chunker.

Import Chunker.

(** ** Python containers and numbers *)

Module Py.

(** A [float] is modelled by an exact rational: comparisons, sums,
    products and quotients are those of the rationals. *)
Definition float := Q.

(** [a < b] on numbers. *)
Definition Qltb (a b : Q) : bool := negb (Qle_bool b a).

(** The integer nearest to [x], ties going to the even one. *)
Definition round_half_even (x : Q) : Z :=
  let n := Qnum x in
  let d := Zpos (Qden x) in
  let q := n / d in
  let r := n mod d in
  if 2 * r <? d then q
  else if d <? 2 * r then q + 1
  else if Z.even q then q else q + 1.

(** [round(x, 4)] *)
Definition round4 (x : Q) : Q :=
  (round_half_even (x * 10000) # 10000)%Q.

(** A [dict] with string keys keeps its keys in insertion order; assigning
    to a key that is present keeps the key's place. *)
Definition dict (V : Type) := list (string * V).

Fixpoint dict_get {V} (d : dict V) (k : string) : option V :=
  match d with
  | [] => None
  | (k', v) :: rest => if String.eqb k k' then Some v else dict_get rest k
  end.

(** [d[k] = v] *)
Fixpoint dict_set {V} (d : dict V) (k : string) (v : V) : dict V :=
  match d with
  | [] => [(k, v)]
  | (k', v') :: rest =>
      if String.eqb k k' then (k', v) :: rest
      else (k', v') :: dict_set rest k v
  end.

(** [d.values()] *)
Definition values {V} (d : dict V) : list V := map snd d.

(** [sorted(l, key=key, reverse=True)]: descending by key, elements with
    equal keys staying in their original order. *)
Fixpoint insert_desc {A} (key : A -> Q) (x : A) (l : list A) : list A :=
  match l with
  | [] => [x]
  | y :: rest =>
      if Qltb (key x) (key y) then y :: insert_desc key x rest
      else x :: y :: rest
  end.

Definition sorted_desc {A} (key : A -> Q) (l : list A) : list A :=
  fold_right (insert_desc key) [] l.

End Py.

Import Py.

(** ** Index adapter ([vector_store.search]) *)

Module VectorStore.

Definition Embedding := list float.

(** The metadata stored with a chunk; [favicon] may be missing in the
    records of older versions. *)
Record Metadata := mkMetadata {
  meta_url : string;
  meta_title : str;
  meta_tab_id : Z;
  meta_favicon : option str
}.

(** A page-level result: the dictionary built by [search], with the keys
    that later stages add to it or remove from it. *)
Record Doc := mkDoc {
  url : string;
  title : str;
  tab_id : Z;
  favicon : str;
  score : float;
  text : option str;
  rerank_score : option float;
  final_score : option float
}.

(** What [col.query] returns for one query embedding: parallel lists,
    nearest first. *)
Record QueryResult := mkQueryResult {
  metadatas : list Metadata;
  distances : list float;
  documents : list str
}.

(** The vector index collaborator: [count()] and
    [query(query_embeddings=[e], n_results=n, include=...)], the flag
    telling whether the documents are included. *)
Record Collection := mkCollection {
  count : nat;
  query : Embedding -> nat -> bool -> QueryResult
}.

(** The similarity of a chunk at cosine distance [dist]. *)
Definition similarity (dist : float) : float := round4 (1 - dist)%Q.

(** Lines 273-287: the loop over [enumerate(zip(metadatas, distances))]. *)
Fixpoint collapse (cands : list (Metadata * float)) (include_text : bool)
    (docs : list str) (i : nat) (seen_urls : dict Doc) : dict Doc :=
  match cands with
  | [] => seen_urls
  | (meta, dist) :: rest =>
      let url := meta_url meta in
      let score := similarity dist in
      let better :=
        match dict_get seen_urls url with
        | None => true
        | Some item => Qltb (VectorStore.score item) score
        end in
      let seen_urls' :=
        if better then
          let item_text :=
            if include_text && (i <? List.length docs)%nat
            then nth_error docs i else None in
          dict_set seen_urls url
            (mkDoc url (meta_title meta) (meta_tab_id meta)
               (match meta_favicon meta with Some f => f | None => [] end)
               score item_text None None)
        else seen_urls in
      collapse rest include_text docs (S i) seen_urls'
  end.

(** The candidates fetched for a query: [top_k * 5] of them, capped at the
    size of the index. *)
Definition fetch (col : Collection) (query_embedding : Embedding)
    (top_k : nat) (include_text : bool) : QueryResult :=
  query col query_embedding (Nat.min (top_k * 5) (count col)) include_text.

(** [search(query_embedding, top_k, include_text)]; [top_k] is a number of
    results. *)
Definition search (col : Collection) (query_embedding : Embedding)
    (top_k : nat) (include_text : bool) : list Doc :=
  if (count col =? 0)%nat then []
  else
    let results := fetch col query_embedding top_k include_text in
    let docs := if include_text then documents results else [] in
    let seen_urls :=
      collapse (combine (metadatas results) (distances results))
        include_text docs 0 [] in
    let items := sorted_desc score (values seen_urls) in
    firstn top_k items.

End VectorStore.

(** ** Vocabulary of the index adapter's properties *)

Module VectorStoreSpec.

Import VectorStore.

(** [l] is in descending order of [key]. *)
Definition descending {A} (key : A -> Q) (l : list A) : Prop :=
  Sorted (fun a b => key b <= key a)%Q l.

(** [item] carries the highest similarity among the candidates of its
    page. *)
Definition best_of (cands : list (Metadata * float)) (item : Doc) : Prop :=
  (exists meta dist,
      In (meta, dist) cands /\ meta_url meta = url item /\
      score item = similarity dist) /\
  (forall meta dist,
      In (meta, dist) cands -> meta_url meta = url item ->
      (similarity dist <= score item)%Q).

(** The state of [seen_urls] after the candidates [cands]. *)
Definition collapsed (cands : list (Metadata * float)) (d : dict Doc) : Prop :=
  NoDup (map fst d) /\
  (forall k item, In (k, item) d -> url item = k /\ best_of cands item) /\
  (forall meta dist, In (meta, dist) cands -> In (meta_url meta) (map fst d)).

End VectorStoreSpec.

(** ** Services shared by the pipeline *)

Module Services.

(** [models.LLMConfig]; the strings of configuration, URLs, tool names
    and messages are only compared and passed on, and are kept in their
    UTF-8 encoding. *)
Record LLMConfig := mkLLMConfig {
  base_url : string;
  api_key : string;
  model : string
}.

(** [config and config.api_key]: a configuration with a non-empty key. *)
Definition configured (config : option LLMConfig) : bool :=
  match config with
  | Some c => negb (String.eqb (api_key c) "")
  | None => false
  end.

(** The tables of the Unicode character database that [str.lower] and the
    regular-expression classes [\w] and [\d] consult. *)
Record Unicode := mkUnicode {
  lower : str -> str;
  is_word : char -> bool;
  is_digit : char -> bool
}.

End Services.

Import Services.

(** ** Reranker ([reranker_service.py]) *)

Module Reranker.

Import VectorStore.

(** [text.split("\n")]; [cur] holds the current line, reversed. *)
Fixpoint split_lines (s : str) (cur : str) : list str :=
  match s with
  | [] => [rev cur]
  | c :: rest =>
      if (c =? 10)%N then rev cur :: split_lines rest []
      else split_lines rest (c :: cur)
  end.

(** [re.findall(r"\w+", s)]: the maximal runs of word characters. *)
Fixpoint findall_words (is_word : char -> bool) (s : str) (cur : str)
    : list str :=
  match s with
  | [] => if truthy cur then [rev cur] else []
  | c :: rest =>
      if is_word c then findall_words is_word rest (c :: cur)
      else if truthy cur then rev cur :: findall_words is_word rest []
      else findall_words is_word rest []
  end.

Definition str_eq_dec : forall a b : str, {a = b} + {a <> b} :=
  list_eq_dec N.eq_dec.

(** [s.startswith(p)] *)
Fixpoint starts_with (p s : str) : bool :=
  match p, s with
  | [], _ => true
  | _ :: _, [] => false
  | a :: p', b :: s' => (a =? b)%N && starts_with p' s'
  end.

(** [needle in hay] *)
Fixpoint contains (hay needle : str) : bool :=
  starts_with needle hay ||
  match hay with
  | [] => false
  | _ :: rest => contains rest needle
  end.

(** [re.match(r"\d+\.", l)]: one or more digits and then a full stop. *)
Fixpoint digits_then_dot (is_digit : char -> bool) (l : str) : bool :=
  match l with
  | [] => false
  | c :: rest =>
      is_digit c &&
      (match rest with
       | c' :: _ => (c' =? 46)%N
       | [] => false
       end || digits_then_dot is_digit rest)
  end.

(** [list_pattern.match(l)] for [^(\d+\.|-|•|\*|\[)]: digits followed by
    a full stop, or one of the markers [-], [•], [*] and the opening
    bracket in front. *)
Definition list_pattern_match (is_digit : char -> bool) (l : str) : bool :=
  digits_then_dot is_digit l ||
  match l with
  | [] => false
  | c :: _ => ((c =? 45) || (c =? 8226) || (c =? 42) || (c =? 91))%N
  end.

(** [sum(len(l) for l in lines)] *)
Definition total_len (lines : list str) : Z :=
  fold_right (fun l acc => len l + acc) 0 lines.

(** [sum(1 for x in l if f x)] *)
Definition count_if {A} (f : A -> bool) (l : list A) : Z :=
  Z.of_nat (List.length (filter f l)).

(** Line 162-163: the stripped non-empty lines of a text. *)
Definition content_lines (text : str) : list str :=
  map strip (filter (fun l => truthy (strip l)) (split_lines (strip text) [])).

(** Lines 159-176: the penalty of a text. *)
Definition penalty_of (U : Unicode) (text : str) : float :=
  let penalty := 1%Q in
  let lines := content_lines text in
  if Chunker.nonempty lines then
    let avg_line_len :=
      (inject_Z (total_len lines) / inject_Z (Z.of_nat (List.length lines)))%Q in
    let penalty :=
      if Qltb avg_line_len 20 then (penalty * (7 # 10))%Q else penalty in
    let list_ratio :=
      (inject_Z (count_if (list_pattern_match (is_digit U)) lines)
       / inject_Z (Z.of_nat (List.length lines)))%Q in
    if Qltb (5 # 10) list_ratio then (penalty * (6 # 10))%Q else penalty
  else penalty.

(** Line 151: the set of terms of the query. *)
Definition query_terms_of (U : Unicode) (query : str) : list str :=
  nodup str_eq_dec (findall_words (is_word U) (lower U query) []).

(** Lines 179-180: the bonus of a text for the terms of the query. *)
Definition bonus_of (U : Unicode) (query_terms : list str) (text : str)
    : float :=
  let text_lower := lower U text in
  let term_matches := count_if (contains text_lower) query_terms in
  (1 + inject_Z term_matches * (5 # 100))%Q.

(** [doc.get("text", "") or doc.get("title", "")] *)
Definition text_of (doc : Doc) : str :=
  match text doc with
  | Some t => if truthy t then t else title doc
  | None => title doc
  end.

Definition set_final_score (doc : Doc) (f : float) : Doc :=
  mkDoc (url doc) (title doc) (tab_id doc) (favicon doc) (score doc)
    (text doc) (rerank_score doc) (Some f).

(** The body of the loop over the documents (lines 154-183). *)
Definition rescore (U : Unicode) (query_terms : list str) (doc : Doc) : Doc :=
  let score := score doc in
  let text := text_of doc in
  let penalty := penalty_of U text in
  let bonus := bonus_of U query_terms text in
  set_final_score doc (score * penalty * bonus)%Q.

(** [x.get("final_score", 0)] *)
Definition final_key (doc : Doc) : float :=
  match final_score doc with Some f => f | None => 0%Q end.

Definition rerank_by_heuristics (U : Unicode) (query : str)
    (documents : list Doc) (top_k : nat) : list Doc :=
  let query_terms := query_terms_of U query in
  let documents := map (rescore U query_terms) documents in
  let reranked := sorted_desc final_key documents in
  firstn top_k reranked.

(** The completion provider as the cross-encoder sees it: for a query and
    the candidate documents it answers with a list of [(index, score)]
    pairs, or the call or the parsing of its answer fails. *)
Definition ScoreProvider := str -> list Doc -> option (list (nat * float)).

(** [score_map.get(i, 50)], the later of two entries for one index
    winning as in a dictionary comprehension. *)
Fixpoint score_map_get (scores : list (nat * float)) (i : nat) : float :=
  match scores with
  | [] => 50%Q
  | (j, s) :: rest =>
      if existsb (fun e => Nat.eqb (fst e) i) rest then score_map_get rest i
      else if Nat.eqb j i then s else 50%Q
  end.

Fixpoint apply_llm_scores (scores : list (nat * float)) (i : nat)
    (documents : list Doc) : list Doc :=
  match documents with
  | [] => []
  | doc :: rest =>
      let llm_score := score_map_get scores i in
      let original_score := score doc in
      mkDoc (url doc) (title doc) (tab_id doc) (favicon doc) (score doc)
        (text doc) (Some llm_score)
        (Some ((3 # 10) * (original_score * 100) + (7 # 10) * llm_score)%Q)
      :: apply_llm_scores scores (S i) rest
  end.

Definition rerank_with_llm (config : option LLMConfig)
    (provider : ScoreProvider) (query : str) (documents : list Doc)
    (top_k : nat) : list Doc :=
  if negb (configured config) then firstn top_k documents
  else if negb (Chunker.nonempty documents) then []
  else
    match provider query documents with
    | Some scores =>
        firstn top_k
          (sorted_desc final_key (apply_llm_scores scores 0 documents))
    | None => firstn top_k documents
    end.

(** [rerank(query, documents, top_k, use_llm)] *)
Definition rerank (U : Unicode) (config : option LLMConfig)
    (provider : ScoreProvider) (query : str) (documents : list Doc)
    (top_k : nat) (use_llm : bool) : list Doc :=
  if negb (Chunker.nonempty documents) then []
  else if use_llm && configured config then
    rerank_with_llm config provider query documents top_k
  else rerank_by_heuristics U query documents top_k.

End Reranker.

(** ** Keyword generation ([llm_service.generate_keywords]) *)

Module LLMService.

(** The dictionary [generate_keywords] returns: the keywords and, when the
    generation failed, an error message. *)
Record KeywordResult := mkKeywordResult {
  keywords : list str;
  error : option string
}.

(** The completion provider as the keyword generator sees it (lines
    105-146): the request, the parsing of the answer and the handlers of
    the three kinds of failure. *)
Definition KeywordProvider := str -> KeywordResult.

Definition NOT_CONFIGURED : string :=
  "LLM 未配置，请在设置中填写 API 信息".

Definition generate_keywords (config : option LLMConfig)
    (provider : KeywordProvider) (user_query : str) : KeywordResult :=
  if negb (configured config) then mkKeywordResult [] (Some NOT_CONFIGURED)
  else provider user_query.

End LLMService.

(** ** The [/llm-search] route ([routes.llm_search]) *)

Module Routes.

Import VectorStore Reranker LLMService.

Record LLMSearchRequest := mkLLMSearchRequest {
  req_query : str;
  req_top_k : nat
}.

Record SearchResult := mkSearchResult {
  sr_url : string;
  sr_title : str;
  sr_tab_id : Z;
  sr_favicon : str;
  sr_score : float
}.

Record LLMSearchResponse := mkLLMSearchResponse {
  resp_keywords : list str;
  resp_results : list SearchResult;
  resp_llm_error : option string
}.

(** The collaborators and the process-wide configuration of a request. *)
Record Backend := mkBackend {
  unicode : Unicode;
  config : option LLMConfig;
  collection : Collection;
  encode : str -> Embedding;
  keyword_provider : KeywordProvider;
  score_provider : ScoreProvider
}.

(** Lines 105-108: the results of one keyword enter [seen_urls]. *)
Fixpoint merge_results (results : list Doc) (seen_urls : dict Doc)
    : dict Doc :=
  match results with
  | [] => seen_urls
  | r :: rest =>
      let better :=
        match dict_get seen_urls (url r) with
        | None => true
        | Some old => Qltb (score old) (score r)
        end in
      merge_results rest
        (if better then dict_set seen_urls (url r) r else seen_urls)
  end.

(** Lines 100-108: the loop over the keywords. *)
Fixpoint recall (B : Backend) (keywords : list str) (recall_top_k : nat)
    (seen_urls : dict Doc) : dict Doc :=
  match keywords with
  | [] => seen_urls
  | keyword :: rest =>
      let query_embedding := encode B keyword in
      let results := search (collection B) query_embedding recall_top_k true in
      recall B rest recall_top_k (merge_results results seen_urls)
  end.

(** Lines 90-95: the keywords searched for. *)
Definition keywords_or_query (llm_result : KeywordResult) (query : str)
    : list str :=
  let keywords := keywords llm_result in
  if Chunker.nonempty keywords then keywords else [query].

(** Lines 98-111: the merged candidates handed to the reranker. *)
Definition merged_candidates (B : Backend) (keywords : list str)
    (top_k : nat) : list Doc :=
  let recall_top_k := Nat.min (top_k * 3) 20 in
  let seen_urls := recall B keywords recall_top_k [] in
  sorted_desc score (values seen_urls).

(** Lines 122-127: [final_score] becomes the score shown, divided by 100;
    the internal fields go. *)
Definition normalise (r : Doc) : Doc :=
  let score' :=
    match final_score r with
    | Some f => (f / 100)%Q
    | None => score r
    end in
  mkDoc (url r) (title r) (tab_id r) (favicon r) score' None None None.

(** The [SearchResult] built from the keys of [r]. *)
Definition to_search_result (r : Doc) : SearchResult :=
  mkSearchResult (url r) (title r) (tab_id r) (favicon r) (score r).

Definition llm_search (B : Backend) (req : LLMSearchRequest)
    : LLMSearchResponse :=
  let llm_result :=
    generate_keywords (config B) (keyword_provider B) (req_query req) in
  let keywords := keywords_or_query llm_result (req_query req) in
  let llm_error := error llm_result in
  let merged := merged_candidates B keywords (req_top_k req) in
  let reranked :=
    rerank (unicode B) (config B) (score_provider B) (req_query req)
      merged (req_top_k req) true in
  mkLLMSearchResponse keywords
    (map to_search_result (map normalise reranked)) llm_error.

End Routes.

(** ** Vocabulary of the reranker's properties *)

Module RerankerSpec.

Import VectorStore Reranker.

(** The average length of the lines is under 20. *)
Definition short_lines (lines : list str) : bool :=
  total_len lines <? 20 * Z.of_nat (List.length lines).

(** More than half of the lines match the list-marker pattern. *)
Definition mostly_list (U : Unicode) (lines : list str) : bool :=
  Z.of_nat (List.length lines)
  <? 2 * count_if (list_pattern_match (is_digit U)) lines.

(** The penalty of a text as a product of the two factors. *)
Definition spec_penalty (U : Unicode) (text : str) : Q :=
  ((if short_lines (content_lines text) then 7 # 10 else 1) *
   (if mostly_list U (content_lines text) then 6 # 10 else 1))%Q.

(** *** The heuristic in the words of the specification

    The notions below are stated on their own, without the functions of
    the reranker. *)

(** [parts] joined by newlines. *)
Fixpoint join_newline (parts : list str) : str :=
  match parts with
  | [] => []
  | [p] => p
  | p :: rest => p ++ 10%N :: join_newline rest
  end.

(** [parts] are the pieces of [s] between its newlines. *)
Definition split_at_newlines (s : str) (parts : list str) : Prop :=
  parts <> [] /\
  Forall (fun p => ~ In 10%N p) parts /\
  join_newline parts = s.

(** The non-empty lines of a text: the pieces of the stripped text, each of
    them stripped, that are not empty. *)
Definition nonempty_lines (text : str) (lines : list str) : Prop :=
  exists parts,
    split_at_newlines (strip text) parts /\
    lines = filter truthy (map strip parts).

(** A line that matches the list-marker pattern: it starts with digits and
    a full stop, or with one of [-], [•], [*] and the opening bracket. *)
Definition has_list_marker (U : Unicode) (line : str) : Prop :=
  (exists digits rest,
      digits <> [] /\
      Forall (fun c => is_digit U c = true) digits /\
      line = digits ++ 46%N :: rest) \/
  (exists c rest, line = c :: rest /\ In c [45%N; 8226%N; 42%N; 91%N]).

(** [n] elements of [l], counted with their repetitions, satisfy [P]. *)
Inductive counted {A} (P : A -> Prop) : list A -> Z -> Prop :=
  | counted_nil : counted P [] 0
  | counted_yes x l n : P x -> counted P l n -> counted P (x :: l) (n + 1)
  | counted_no x l n : ~ P x -> counted P l n -> counted P (x :: l) n.

(** [needle] is found in [hay]. *)
Definition occurs_in (hay needle : str) : Prop :=
  exists before after, hay = before ++ needle ++ after.

(** [term] is a term of [s]: a run of word characters of [s] that no word
    character precedes or follows. *)
Definition word_run (U : Unicode) (s term : str) : Prop :=
  term <> [] /\
  Forall (fun c => is_word U c = true) term /\
  exists before after,
    s = before ++ term ++ after /\
    (forall pre c, before = pre ++ [c] -> is_word U c = false) /\
    (forall c post, after = c :: post -> is_word U c = false).

(** [terms] are the distinct terms of the lower-cased query. *)
Definition distinct_terms (U : Unicode) (query : str) (terms : list str)
    : Prop :=
  NoDup terms /\ forall t, In t terms <-> word_run U (lower U query) t.

(** The text of a candidate: its text, or its title when it has no text or
    an empty one. *)
Definition text_used (doc : Doc) (t : str) : Prop :=
  (exists body, text doc = Some body /\ body <> [] /\ t = body) \/
  ((text doc = None \/ text doc = Some []) /\ t = title doc).

(** The average length of the lines. *)
Definition average_length (lines : list str) : Q :=
  (inject_Z (len (concat lines)) / inject_Z (Z.of_nat (List.length lines)))%Q.

(** The penalty of a text with the non-empty lines [lines], [marked] of
    them matching the list-marker pattern: 0.7 for an average length under
    20, times 0.6 for more than half of the lines marked. *)
Definition heuristic_penalty (lines : list str) (marked : Z) : Q :=
  match lines with
  | [] => 1%Q
  | _ :: _ =>
      ((if Qlt_le_dec (average_length lines) 20 then 7 # 10 else 1) *
       (if Qlt_le_dec (1 # 2)
             (inject_Z marked / inject_Z (Z.of_nat (List.length lines)))
        then 6 # 10 else 1))%Q
  end.

(** The bonus for [found] distinct query terms found in the text. *)
Definition heuristic_bonus (found : Z) : Q :=
  (1 + (5 # 100) * inject_Z found)%Q.

(** Documents in descending order of their final scores. *)
Definition by_final_score (l : list Doc) : Prop :=
  Sorted (fun a b =>
            exists fa fb,
              final_score a = Some fa /\ final_score b = Some fb /\
              (fb <= fa)%Q) l.

(** [r] is the candidate [doc] with the final score of the heuristic:
    [similarity * penalty * bonus]. *)
Definition heuristic_rescored (U : Unicode) (query : str) (doc r : Doc)
    : Prop :=
  url r = url doc /\ title r = title doc /\ tab_id r = tab_id doc /\
  favicon r = favicon doc /\ score r = score doc /\ text r = text doc /\
  rerank_score r = rerank_score doc /\
  exists t lines marked terms found f,
    text_used doc t /\
    nonempty_lines t lines /\
    counted (has_list_marker U) lines marked /\
    distinct_terms U query terms /\
    counted (occurs_in (lower U t)) terms found /\
    final_score r = Some f /\
    (f == score doc * heuristic_penalty lines marked * heuristic_bonus found)%Q.

(** *** Sample inputs *)

(** The tables restricted to ASCII. *)
Definition ascii_lower (c : char) : char :=
  if ((65 <=? c) && (c <=? 90))%N then (c + 32)%N else c.

Definition ascii_is_digit (c : char) : bool := ((48 <=? c) && (c <=? 57))%N.

Definition ascii_is_word (c : char) : bool :=
  (ascii_is_digit c || (65 <=? c) && (c <=? 90) ||
   (97 <=? c) && (c <=? 122) || (c =? 95))%N.

Definition ascii_tables : Unicode :=
  mkUnicode (map ascii_lower) ascii_is_word ascii_is_digit.

Definition newline : str := [10%N].

(** A table of contents of ten lines, six of them numbered. *)
Definition toc_text : str :=
  lit "1. Introduction" ++ newline ++
  lit "2. Installation" ++ newline ++
  lit "3. Usage" ++ newline ++
  lit "4. Redis locks" ++ newline ++
  lit "5. Benchmarks" ++ newline ++
  lit "6. Licence" ++ newline ++
  lit "Appendix" ++ newline ++
  lit "Glossary" ++ newline ++
  lit "Index" ++ newline ++
  lit "Contact".

Definition toc_doc : Doc :=
  mkDoc "https://example.org/toc" (lit "Contents") 7 [] (8 # 10)
    (Some toc_text) None None.

Definition prose_doc : Doc :=
  mkDoc "https://example.org/redis" (lit "Redis locks") 8 [] (6 # 10)
    (Some (lit "Redis locks explained at length, with examples of every call."))
    None None.

End RerankerSpec.

(** ** Python values of the agent: JSON data and exceptions *)

Module PyValue.

(** What [json.loads] produces and [json.dumps] accepts.  A [JStr] holds
    the UTF-8 encoding of a Python [str]. *)
Unset Elimination Schemes.
Inductive json :=
  | JNull
  | JBool (b : bool)
  | JInt (z : Z)
  | JFloat (q : Q)
  | JStr (s : string)
  | JArr (items : list json)
  | JObj (fields : list (string * json)).
Set Elimination Schemes.

Inductive exn :=
  | KeyError (key : string)
  | TypeError
  | AttributeError
  | Exception (description : string).

(** A computation that returns a value or raises. *)
Inductive res (A : Type) :=
  | Ok (a : A)
  | Raise (e : exn).

Arguments Ok {A} a.
Arguments Raise {A} e.

Definition bind {A B} (c : res A) (k : A -> res B) : res B :=
  match c with
  | Ok a => k a
  | Raise e => Raise e
  end.

Notation "x <- c ;; k" := (bind c (fun x => k))
  (at level 61, c at next level, right associativity).

Fixpoint mapM {A B} (f : A -> res B) (l : list A) : res (list B) :=
  match l with
  | [] => Ok []
  | x :: rest => y <- f x ;; ys <- mapM f rest ;; Ok (y :: ys)
  end.

(** [bool(v)] *)
Definition truthy_json (v : json) : bool :=
  match v with
  | JNull => false
  | JBool b => b
  | JInt z => negb (z =? 0)
  | JFloat q => negb (Qeq_bool q 0)
  | JStr s => negb (String.eqb s "")
  | JArr items => Chunker.nonempty items
  | JObj fields => Chunker.nonempty fields
  end.

(** [v[key]] for a string key. *)
Definition getitem (v : json) (key : string) : res json :=
  match v with
  | JObj fields =>
      match dict_get fields key with
      | Some x => Ok x
      | None => Raise (KeyError key)
      end
  | _ => Raise TypeError
  end.

(** [v.get(key, default)] *)
Definition get (v : json) (key : string) (default : json) : res json :=
  match v with
  | JObj fields =>
      match dict_get fields key with
      | Some x => Ok x
      | None => Ok default
      end
  | _ => Raise AttributeError
  end.

(** [key in d] and [d.get(key, default)] on a dictionary. *)
Definition has_key (d : dict json) (key : string) : bool :=
  match dict_get d key with Some _ => true | None => false end.

Definition dict_get_default (d : dict json) (key : string) (default : json)
    : json :=
  match dict_get d key with Some x => x | None => default end.

(** A byte that continues a UTF-8 sequence. *)
Definition is_continuation (a : ascii) : bool :=
  let n := N_of_ascii a in ((128 <=? n) && (n <? 192))%N.

(** The number of code points of a string. *)
Fixpoint utf8_len (s : string) : Z :=
  match s with
  | EmptyString => 0
  | String a rest =>
      (if is_continuation a then 0 else 1) + utf8_len rest
  end.

(** The code points of a string, each as a string; [cur] holds the bytes of
    the current code point, reversed. *)
Fixpoint utf8_chars (s : string) (cur : list ascii) : list string :=
  match s with
  | EmptyString =>
      match cur with
      | [] => []
      | _ => [string_of_list_ascii (rev cur)]
      end
  | String a rest =>
      if is_continuation a then utf8_chars rest (a :: cur)
      else
        match cur with
        | [] => utf8_chars rest [a]
        | _ => string_of_list_ascii (rev cur) :: utf8_chars rest [a]
        end
  end.

(** [len(v)] *)
Definition py_len (v : json) : res Z :=
  match v with
  | JStr s => Ok (utf8_len s)
  | JArr items => Ok (Z.of_nat (List.length items))
  | JObj fields => Ok (Z.of_nat (List.length fields))
  | _ => Raise TypeError
  end.

(** The elements [for x in v] goes through. *)
Definition py_iter (v : json) : res (list json) :=
  match v with
  | JStr s => Ok (map JStr (utf8_chars s []))
  | JArr items => Ok items
  | JObj fields => Ok (map (fun kv => JStr (fst kv)) fields)
  | _ => Raise TypeError
  end.

(** [v[:n]] *)
Definition py_slice_to (v : json) (n : nat) : res json :=
  match v with
  | JStr s => Ok (JStr (String.concat "" (firstn n (utf8_chars s []))))
  | JArr items => Ok (JArr (firstn n items))
  | _ => Raise TypeError
  end.

(** The number a value stands for when used as a dictionary key. *)
Definition as_number (v : json) : option Q :=
  match v with
  | JBool b => Some (if b then 1 else 0)%Q
  | JInt z => Some (inject_Z z)
  | JFloat q => Some q
  | _ => None
  end.

Definition hashable (v : json) : bool :=
  match v with
  | JArr _ | JObj _ => false
  | _ => true
  end.

(** Equality of two hashable values as dictionary keys. *)
Definition key_eqb (a b : json) : bool :=
  match a, b with
  | JNull, JNull => true
  | JStr s, JStr t => String.eqb s t
  | _, _ =>
      match as_number a, as_number b with
      | Some x, Some y => Qeq_bool x y
      | _, _ => false
      end
  end.

(** [list(dict.fromkeys(l))]: the first occurrence of every key, in
    order; [seen] holds the keys met so far, latest first. *)
Fixpoint fromkeys (l : list json) (seen : list json) : res (list json) :=
  match l with
  | [] => Ok (rev seen)
  | x :: rest =>
      if hashable x then
        if existsb (key_eqb x) seen then fromkeys rest seen
        else fromkeys rest (x :: seen)
      else Raise TypeError
  end.

(** [str(n)] for an integer. *)
Definition str_of_int (n : Z) : string :=
  DecimalString.NilZero.string_of_int (Z.to_int n).

End PyValue.

Import PyValue.

(** ** Agent tools ([agent_tools.py]) *)

Module AgentTools.

Local Open Scope string_scope.
Local Open Scope list_scope.

(** The three capabilities that run against the embedding model and the
    vector index: each returns a payload dictionary or raises. *)
Record Retrieval := mkRetrieval {
  execute_search_tabs : json -> json -> res (dict json);
  execute_read_tab : json -> res (dict json);
  execute_list_tabs : res (dict json)
}.

Definition execute_batch_restore (urls reason : json) : res (dict json) :=
  if negb (truthy_json urls) then
    Ok [("error", JStr "未指定要恢复的 URL")]
  else
    count <- py_len urls ;;
    Ok [("action", JStr "batch_restore");
        ("urls", urls);
        ("count", JInt count);
        ("reason", reason)].

Definition dispatch_tool (R : Retrieval) (name : string) (arguments : json)
    : res (dict json) :=
  if String.eqb name "search_tabs" then
    query <- getitem arguments "query" ;;
    top_k <- get arguments "top_k" (JInt 5) ;;
    execute_search_tabs R query top_k
  else if String.eqb name "read_tab" then
    url <- getitem arguments "url" ;;
    execute_read_tab R url
  else if String.eqb name "list_tabs" then
    execute_list_tabs R
  else if String.eqb name "batch_restore" then
    urls <- getitem arguments "urls" ;;
    reason <- get arguments "reason" (JStr "") ;;
    execute_batch_restore urls reason
  else
    Ok [("error", JStr ("未知工具: " ++ name)%string)].

End AgentTools.

(** ** Agent loop ([agent_service.py]) *)

Module AgentService.

Import AgentTools.

Local Open Scope string_scope.
Local Open Scope list_scope.

Definition MAX_STEPS : nat := 15.

(** The system prompt; only the provider reads it, and its text is cut here
    after the first sentence. *)
Definition AGENT_SYSTEM_PROMPT : string :=
  "你是 Ghost Agent，一个行动导向的智能标签页助手。".

(** The event types of [AgentEvent]. *)
Definition THINKING : string := "thinking".
Definition TOOL_CALL : string := "tool_call".
Definition TOOL_RESULT : string := "tool_result".
Definition ANSWER : string := "answer".
Definition ERROR : string := "error".
Definition ACTION : string := "action".

Record AgentEvent := mkAgentEvent {
  ev_type : string;
  ev_data : dict json
}.

(** A tool call of an assistant message: its id, the name of the function
    and the JSON-encoded arguments. *)
Record ToolCall := mkToolCall {
  tc_id : string;
  tc_name : string;
  tc_arguments : string
}.

(** [response["choices"][0]["message"]] of a completion that follows the
    provider's contract: the content, if the key is there, and the tool
    calls, none when the key is missing. *)
Record Message := mkMessage {
  msg_content : option json;
  msg_tool_calls : list ToolCall
}.

(** The messages of the conversation. *)
Inductive ChatMessage :=
  | SystemMessage (content : string)
  | UserMessage (content : string)
  | AssistantMessage (message : Message)
  | ToolMessage (tool_call_id : string) (content : dict json).

(** What [_call_llm] does with the conversation: the message of the first
    choice, or an exception with its text. *)
Inductive Completion :=
  | Reply (message : Message)
  | Failure (description : string).

(** The collaborators of a run. *)
Record Env := mkEnv {
  config : option LLMConfig;
  call_llm : LLMConfig -> list ChatMessage -> Completion;
  json_loads : string -> option json;
  retrieval : Retrieval
}.

(** How a run ends: with the final answer, with the apology after
    [MAX_STEPS] steps, with an error event, or with an exception that
    leaves the generator. *)
Inductive Outcome :=
  | Answered
  | Truncated
  | Failed
  | Raised (e : exn).

(** [_summarize_result] *)
Definition _summarize_result (result : dict json) : res (dict json) :=
  if has_key result "error" then
    message <- getitem (JObj result) "error" ;;
    Ok [("status", JStr "error"); ("message", message)]
  else if has_key result "found" then
    found <- getitem (JObj result) "found" ;;
    let summary := [("status", JStr "success"); ("found", found)] in
    if truthy_json (dict_get_default result "results" JNull) then
      results <- getitem (JObj result) "results" ;;
      first <- py_slice_to results 5 ;;
      rows <- py_iter first ;;
      titles <- mapM (fun r => getitem r "title") rows ;;
      Ok (summary ++ [("titles", JArr titles)])
    else Ok summary
  else if has_key result "count" && has_key result "tabs" then
    count <- getitem (JObj result) "count" ;;
    Ok [("status", JStr "success"); ("count", count)]
  else if has_key result "content" then
    length <- py_len (dict_get_default result "content" (JStr "")) ;;
    Ok [("status", JStr "success");
        ("title", dict_get_default result "title" (JStr ""));
        ("length", JInt length)]
  else if has_key result "action" then
    action <- getitem (JObj result) "action" ;;
    Ok [("status", JStr "action");
        ("action", action);
        ("count", dict_get_default result "count" (JInt 0))]
  else Ok [("status", JStr "success")].

(** The state the loop carries: the conversation and the collected
    [batch_restore] actions. *)
Record State := mkState {
  messages : list ChatMessage;
  restore_actions : list (dict json)
}.

Definition step_number (step : nat) : json := JInt (Z.of_nat (step + 1)).

(** Lines 124-160: the loop over the tool calls of one response.  The result
    is the events yielded and the state reached, or the exception raised. *)
Fixpoint run_tool_calls (E : Env) (step : nat) (tool_calls : list ToolCall)
    (st : State) : list AgentEvent * res State :=
  match tool_calls with
  | [] => ([], Ok st)
  | tool_call :: rest =>
      let tool_name := tc_name tool_call in
      let tool_id := tc_id tool_call in
      let tool_args :=
        match json_loads E (tc_arguments tool_call) with
        | Some v => v
        | None => JObj []
        end in
      let call_event :=
        mkAgentEvent TOOL_CALL
          [("step", step_number step);
           ("tool", JStr tool_name);
           ("arguments", tool_args)] in
      match dispatch_tool (retrieval E) tool_name tool_args with
      | Raise e => ([call_event], Raise e)
      | Ok tool_result =>
          let restore_actions :=
            if String.eqb tool_name "batch_restore" &&
               match dict_get tool_result "action" with
               | Some (JStr a) => String.eqb a "batch_restore"
               | _ => false
               end
            then restore_actions st ++ [tool_result]
            else restore_actions st in
          match _summarize_result tool_result with
          | Raise e => ([call_event], Raise e)
          | Ok summary =>
              let result_event :=
                mkAgentEvent TOOL_RESULT
                  [("step", step_number step);
                   ("tool", JStr tool_name);
                   ("result", JObj summary)] in
              let st' :=
                mkState (messages st ++ [ToolMessage tool_id tool_result])
                  restore_actions in
              let (events, final) := run_tool_calls E step rest st' in
              (call_event :: result_event :: events, final)
          end
      end
  end.

(** Lines 169-171: the URLs of all the collected actions. *)
Fixpoint extend_all (actions : list (dict json)) : res (list json) :=
  match actions with
  | [] => Ok []
  | action :: rest =>
      urls <- py_iter (dict_get_default action "urls" (JArr [])) ;;
      more <- extend_all rest ;;
      Ok (urls ++ more)
  end.

(** Lines 167-179: the action event of the collected actions. *)
Definition action_event (actions : list (dict json)) : res AgentEvent :=
  all_urls <- extend_all actions ;;
  all_urls <- fromkeys all_urls [] ;;
  Ok (mkAgentEvent ACTION
        [("action", JStr "batch_restore");
         ("urls", JArr all_urls);
         ("count", JInt (Z.of_nat (List.length all_urls)))]).

Definition thinking_event (step : nat) : AgentEvent :=
  mkAgentEvent THINKING
    [("step", step_number step);
     ("message",
      JStr ("正在思考 (步骤 " ++ str_of_int (Z.of_nat (step + 1)) ++ "/"
            ++ str_of_int (Z.of_nat MAX_STEPS) ++ ")...")%string)].

Definition answer_event (answer : json) (step : nat) : AgentEvent :=
  mkAgentEvent ANSWER [("content", answer); ("steps_used", step_number step)].

Definition truncated_event : AgentEvent :=
  mkAgentEvent ANSWER
    [("content",
      JStr "抱歉，我进行了多步推理但未能得出最终结论。请尝试更具体的问题。");
     ("steps_used", JInt (Z.of_nat MAX_STEPS));
     ("truncated", JBool true)].

(** Lines 98-192: the steps [step], [step + 1], ... of the loop, [remaining]
    of them, and what follows the loop.  The result is the events yielded,
    the way the run ends and, for a run that ends with an answer, the
    actions collected by then. *)
Fixpoint react_loop (E : Env) (c : LLMConfig) (remaining : nat) (step : nat)
    (st : State) : list AgentEvent * Outcome * list (dict json) :=
  match remaining with
  | O => ([truncated_event], Truncated, restore_actions st)
  | S remaining' =>
      let thinking := thinking_event step in
      match call_llm E c (messages st) with
      | Failure description =>
          ([thinking;
            mkAgentEvent ERROR
              [("message", JStr ("LLM 调用失败: " ++ description)%string)]],
           Failed, restore_actions st)
      | Reply message =>
          let tool_calls := msg_tool_calls message in
          if Chunker.nonempty tool_calls then
            let st1 :=
              mkState (messages st ++ [AssistantMessage message])
                (restore_actions st) in
            match run_tool_calls E step tool_calls st1 with
            | (events, Raise e) =>
                (thinking :: events, Raised e, restore_actions st)
            | (events, Ok st2) =>
                let '(later, outcome, actions) :=
                  react_loop E c remaining' (S step) st2 in
                (thinking :: events ++ later, outcome, actions)
            end
          else
            let answer :=
              match msg_content message with
              | Some v => v
              | None => JStr ""
              end in
            if Chunker.nonempty (restore_actions st) then
              match action_event (restore_actions st) with
              | Raise e => ([thinking], Raised e, restore_actions st)
              | Ok action =>
                  ([thinking; action; answer_event answer step],
                   Answered, restore_actions st)
              end
            else
              ([thinking; answer_event answer step],
               Answered, restore_actions st)
      end
  end.

(** Lines 83-85: the event of a request without a configured provider. *)
Definition not_configured_event : AgentEvent :=
  mkAgentEvent ERROR
    [("message",
      JStr "LLM 未配置，请在设置中填写 API 信息后再使用 Agent 功能")].

(** [run_agent(user_query)] with the events it yields, the way it ends and
    the [batch_restore] actions it collected. *)
Definition run_agent_full (E : Env) (user_query : string)
    : list AgentEvent * Outcome * list (dict json) :=
  match config E with
  | Some c =>
      if String.eqb (api_key c) "" then ([not_configured_event], Failed, [])
      else
        react_loop E c MAX_STEPS 0
          (mkState [SystemMessage AGENT_SYSTEM_PROMPT; UserMessage user_query]
             [])
  | None => ([not_configured_event], Failed, [])
  end.

(** The events [run_agent] yields and the way it ends. *)
Definition run_agent (E : Env) (user_query : string)
    : list AgentEvent * Outcome :=
  fst (run_agent_full E user_query).

End AgentService.

(** ** Vocabulary of the agent's properties *)

Module AgentSpec.

Import AgentTools AgentService.

Local Open Scope string_scope.
Local Open Scope list_scope.

(** The events of the steps before the last one. *)
Definition quiet (e : AgentEvent) : Prop :=
  ev_type e = THINKING \/ ev_type e = TOOL_CALL \/ ev_type e = TOOL_RESULT.

Definition has_type (t : string) (e : AgentEvent) : bool :=
  String.eqb (ev_type e) t.

(** The events of a run, by the way it ends: quiet events, and then the
    answer (after the action event of the collected actions, if there are
    any), the apology, the error event, or nothing when an exception leaves
    the generator. *)
Definition run_shape (events : list AgentEvent) (outcome : Outcome)
    (actions : list (dict json)) : Prop :=
  exists pre,
    Forall quiet pre /\
    match outcome with
    | Answered =>
        exists answer step,
          (actions = [] /\ events = pre ++ [answer_event answer step]) \/
          (actions <> [] /\
           exists action,
             action_event actions = Ok action /\
             events = pre ++ [action; answer_event answer step])
    | Truncated => events = pre ++ [truncated_event]
    | Failed => exists err, ev_type err = ERROR /\ events = pre ++ [err]
    | Raised _ => events = pre
    end.

(** The event of a call of [batch_restore]. *)
Definition is_restore_call (e : AgentEvent) : bool :=
  String.eqb (ev_type e) TOOL_CALL &&
  match dict_get (ev_data e) "tool" with
  | Some (JStr name) => String.eqb name "batch_restore"
  | _ => false
  end.

(** The result event of a tool that returned an action. *)
Definition is_action_result (e : AgentEvent) : bool :=
  String.eqb (ev_type e) TOOL_RESULT &&
  match dict_get (ev_data e) "result" with
  | Some (JObj summary) =>
      match dict_get summary "status" with
      | Some (JStr status) => String.eqb status "action"
      | _ => false
      end
  | _ => false
  end.

(** The [urls] argument of a call event. *)
Definition call_urls (e : AgentEvent) : option json :=
  match dict_get (ev_data e) "arguments" with
  | Some (JObj args) => dict_get args "urls"
  | _ => None
  end.

(** The URL lists of the successful [batch_restore] calls of a run, in
    order: the calls whose result event reports an action. *)
Fixpoint restore_calls (events : list AgentEvent) : list (option json) :=
  match events with
  | [] => []
  | e :: rest =>
      match rest with
      | r :: _ =>
          if is_restore_call e && is_action_result r then [call_urls e]
          else []
      | [] => []
      end ++ restore_calls rest
  end.

(** The [urls] entries of the collected actions. *)
Definition action_urls (actions : list (dict json)) : list (option json) :=
  map (fun action => dict_get action "urls") actions.

(** *** Sample runs *)

Definition dq : string := String (ascii_of_nat 34) EmptyString.

(** The text of the JSON object with the one key [urls] and the two URLs
    [x] and [y]. *)
Definition urls_text (x y : string) : string :=
  ("{" ++ dq ++ "urls" ++ dq ++ ": [" ++ dq ++ x ++ dq ++ ", "
   ++ dq ++ y ++ dq ++ "]}")%string.

(** [json.loads] on the argument texts of the sample runs; every other text
    of the samples is malformed. *)
Definition sample_loads (s : string) : option json :=
  if String.eqb s (urls_text "a" "b") then
    Some (JObj [("urls", JArr [JStr "a"; JStr "b"])])
  else if String.eqb s (urls_text "b" "c") then
    Some (JObj [("urls", JArr [JStr "b"; JStr "c"])])
  else None.

Definition sample_retrieval : Retrieval :=
  mkRetrieval
    (fun _ _ => Ok [("found", JInt 0); ("results", JArr [])])
    (fun _ => Ok [("error", JStr "not found")])
    (Ok [("count", JInt 0); ("tabs", JArr [])]).

Definition sample_config : LLMConfig :=
  mkLLMConfig "https://api.example.org/v1" "sk-sample" "sample-model".

Definition restore_call (id x y : string) : ToolCall :=
  mkToolCall id "batch_restore" (urls_text x y).

(** A provider that restores [a, b], then [b, c], then answers. *)
Definition two_restores (c : LLMConfig) (messages : list ChatMessage)
    : Completion :=
  match List.length messages with
  | 2%nat => Reply (mkMessage None [restore_call "call_1" "a" "b"])
  | 4%nat => Reply (mkMessage None [restore_call "call_2" "b" "c"])
  | _ => Reply (mkMessage (Some (JStr "done")) [])
  end.

(** A provider that asks for a restore in every response. *)
Definition always_restores (c : LLMConfig) (messages : list ChatMessage)
    : Completion :=
  Reply (mkMessage None [restore_call "call" "a" "b"]).

(** A provider whose first response calls [search_tabs] with arguments that
    are not JSON. *)
Definition malformed_search (c : LLMConfig) (messages : list ChatMessage)
    : Completion :=
  Reply (mkMessage None [mkToolCall "call_1" "search_tabs" "{oops"]).

Definition env_of (provider : LLMConfig -> list ChatMessage -> Completion)
    : Env :=
  mkEnv (Some sample_config) provider sample_loads sample_retrieval.

Definition unconfigured_env : Env :=
  mkEnv None two_restores sample_loads sample_retrieval.

End AgentSpec.

(** ** Sample backend *)

Module RoutesSpec.

Import VectorStore Reranker RerankerSpec LLMService Routes.

(** An index holding one chunk of one page. *)
Definition one_page : Collection :=
  mkCollection 1
    (fun _ n _ =>
       mkQueryResult
         (firstn n [mkMetadata "https://example.org/redis" (lit "Redis locks")
                      8 None])
         (firstn n [(1 # 5)%Q])
         (firstn n [lit "Redis locks explained at length."])).

(** A backend with no completion provider configured. *)
Definition unconfigured_backend : Backend :=
  mkBackend ascii_tables None one_page (fun _ => [])
    (fun _ => mkKeywordResult [] None) (fun _ _ => None).

Definition sample_request : LLMSearchRequest :=
  mkLLMSearchRequest (lit "redis locks") 5.

(** The result [search] builds from the chunk of [one_page]. *)
Definition redis_item : Doc :=
  mkDoc "https://example.org/redis" (lit "Redis locks") 8 []
    (similarity (1 # 5))
    (Some (lit "Redis locks explained at length.")) None None.

End RoutesSpec.

(** ** Further vocabulary of the chunker's properties *)

Module ChunkerSpec.

(** A string that neither starts nor ends with whitespace. *)
Definition head_ok (s : str) : Prop :=
  match s with
  | [] => True
  | c :: _ => isspace c = false
  end.

Definition trimmed (s : str) : Prop := head_ok s /\ head_ok (rev s).

(** Consecutive windows: every window but the last is 321 to 400 characters
    wide and the next one starts [CHUNK_OVERLAP] characters before its end;
    the last one is at most 400 characters wide. *)
Fixpoint chained (ws : list (Z * Z)) : Prop :=
  match ws with
  | [] => True
  | (s1, c1) :: rest =>
      match rest with
      | [] => 0 < c1 - s1 <= CHUNK_SIZE
      | (s2, _) :: _ =>
          321 <= c1 - s1 <= CHUNK_SIZE /\ s2 = c1 - CHUNK_OVERLAP
      end /\ chained rest
  end.

(** Chunks that are non-empty and trimmed. *)
Definition clean_chunks (chunks : list str) : Prop :=
  Forall (fun c => c <> [] /\ trimmed c) chunks.

End ChunkerSpec.

(** ** Further vocabulary of the pipeline's properties *)

Module PipelineSpec.

Import VectorStore Reranker.

(** The result built from the fetched chunk at index [i]. *)
Definition item_of (include_text : bool) (docs : list str) (i : nat)
    (meta : Metadata) (dist : float) : Doc :=
  mkDoc (meta_url meta) (meta_title meta) (meta_tab_id meta)
    (match meta_favicon meta with Some f => f | None => [] end)
    (similarity dist)
    (if include_text && (i <? List.length docs)%nat then nth_error docs i
     else None)
    None None.

(** Every entry of [seen_urls] was built from one fetched chunk, taken
    among the first [n]. *)
Definition from_chunks (cands : list (Metadata * float))
    (include_text : bool) (docs : list str) (n : nat) (d : dict Doc) : Prop :=
  forall k item,
    In (k, item) d ->
    exists i meta dist,
      (i < n)%nat /\ nth_error cands i = Some (meta, dist) /\
      item = item_of include_text docs i meta dist.

(** Two dictionaries of one page: reranking may only change the scores it
    adds. *)
Definition same_page (r d : Doc) : Prop :=
  url r = url d /\ title r = title d /\ tab_id r = tab_id d /\
  favicon r = favicon d /\ score r = score d /\ text r = text d.

End PipelineSpec.

(** ** Vocabulary of the merge of the keywords' results *)

Module MergeSpec.

Import VectorStore Routes.

(** [item] is one of the results [rs] and has the highest score among those
    of its page. *)
Definition best_in (rs : list Doc) (item : Doc) : Prop :=
  In item rs /\
  forall r, In r rs -> url r = url item -> (score r <= score item)%Q.

(** The state of [seen_urls] after the results [rs]. *)
Definition merged (rs : list Doc) (d : dict Doc) : Prop :=
  NoDup (map fst d) /\
  (forall k item, In (k, item) d -> url item = k /\ best_in rs item) /\
  (forall r, In r rs -> In (url r) (map fst d)).

(** The results of all the keywords, in the order the loop meets them. *)
Definition all_results (B : Backend) (keywords : list str)
    (recall_top_k : nat) : list Doc :=
  flat_map
    (fun keyword =>
       search (collection B) (encode B keyword) recall_top_k true)
    keywords.

End MergeSpec.

(** ** Further vocabulary of the agent's properties *)

Module AgentMoreSpec.

Import AgentTools AgentService AgentSpec.

Local Open Scope string_scope.
Local Open Scope list_scope.

(** The names of the four tools. *)
Definition TOOL_NAMES : list string :=
  ["search_tabs"; "read_tab"; "list_tabs"; "batch_restore"].

(** The keys a summary may hold. *)
Definition SUMMARY_KEYS : list string :=
  ["status"; "message"; "found"; "titles"; "count"; "title"; "length";
   "action"].

(** The events of the loop over the tool calls. *)
Definition tool_event (e : AgentEvent) : Prop :=
  ev_type e = TOOL_CALL \/ ev_type e = TOOL_RESULT.

(** The number of events of type [t]. *)
Definition count_type (t : string) (events : list AgentEvent) : nat :=
  List.length (filter (has_type t) events).

(** No element equals, as a dictionary key, one before it. *)
Definition first_occurrences (l : list json) : Prop :=
  forall pre x post, l = pre ++ x :: post -> existsb (key_eqb x) pre = false.

(** A provider that answers at once. *)
Definition answers_at_once (c : LLMConfig) (messages : list ChatMessage)
    : Completion :=
  Reply (mkMessage (Some (JStr "nothing to do")) []).

(** A provider whose first response calls a tool that does not exist. *)
Definition unknown_tool_then_answer (c : LLMConfig)
    (messages : list ChatMessage) : Completion :=
  match List.length messages with
  | 2%nat => Reply (mkMessage None [mkToolCall "call_1" "open_tab" "{}"])
  | _ => Reply (mkMessage (Some (JStr "done")) [])
  end.

End AgentMoreSpec.

(** ** Index store ([vector_store.py]: [add_page], [delete], [get_all]) *)

Module IndexStore.

Import VectorStore.

Local Open Scope string_scope.
Local Open Scope list_scope.

(** The metadata stored with a chunk.  [add_page] writes every field; the
    records of older versions may lack the last four. *)
Record ChunkMeta := mkChunkMeta {
  cm_url : string;
  cm_title : str;
  cm_tab_id : Z;
  cm_favicon : option str;
  cm_chunk_index : option Z;
  cm_total_chunks : option Z;
  cm_url_hash : option string
}.

(** One record of the collection: its id, document, embedding and
    metadata. *)
Record Row := mkRow {
  row_id : string;
  row_document : str;
  row_embedding : Embedding;
  row_meta : ChunkMeta
}.

(** The calls the store functions make on the Chroma collection, whose
    state is a [C]: [count()], [get(include=...)],
    [get(where={"url_hash": h}, ...)], [get(ids=...)], [delete(ids=...)]
    and [upsert(...)].  A call returns or raises; a call that raises
    leaves the collection as it was. *)
Record Store (C : Type) := mkStore {
  col_count : C -> nat;
  col_get : C -> res (list Row);
  col_get_where : C -> string -> res (list Row);
  col_get_ids : C -> list string -> res (list Row);
  col_delete : C -> list string -> res C;
  col_upsert : C -> list Row -> res C
}.

Arguments mkStore {C}.
Arguments col_count {C}.
Arguments col_get {C}.
Arguments col_get_where {C}.
Arguments col_get_ids {C}.
Arguments col_delete {C}.
Arguments col_upsert {C}.

(** What [add_page] returns. *)
Record Added := mkAdded {
  doc_id : string;
  added_chunks : Z
}.

(** A page as [get_all] lists it. *)
Record Page := mkPage {
  page_url : string;
  page_title : str;
  page_tab_id : Z;
  page_favicon : str;
  page_chunks : Z
}.

(** [_chunk_id] *)
Definition _chunk_id (url_hash : string) (chunk_index : nat) : string :=
  (url_hash ++ "_chunk_" ++ str_of_int (Z.of_nat chunk_index))%string.

(** Lines 185-200: the loop over [enumerate(zip(chunks, embeddings))],
    from index [i] on. *)
Fixpoint page_rows (url : string) (title : str) (tab_id : Z) (favicon : str)
    (url_hash : string) (total_chunks : Z) (i : nat)
    (pairs : list (str * Embedding)) : list Row :=
  match pairs with
  | [] => []
  | (chunk_text, embedding) :: rest =>
      mkRow (_chunk_id url_hash i) chunk_text embedding
        (mkChunkMeta url title tab_id (Some favicon) (Some (Z.of_nat i))
           (Some total_chunks) (Some url_hash))
      :: page_rows url title tab_id favicon url_hash total_chunks (S i) rest
  end.

(** The entry [get_all] makes of a metadata record. *)
Definition page_of (meta : ChunkMeta) : Page :=
  mkPage (cm_url meta) (cm_title meta) (cm_tab_id meta)
    (match cm_favicon meta with Some f => f | None => [] end)
    (match cm_total_chunks meta with Some n => n | None => 1 end).

(** Lines 333-342: the loop over the metadata records. *)
Fixpoint collect_pages (metadatas : list ChunkMeta) (seen_urls : dict Page)
    : dict Page :=
  match metadatas with
  | [] => seen_urls
  | meta :: rest =>
      let url := cm_url meta in
      collect_pages rest
        (match dict_get seen_urls url with
         | Some _ => seen_urls
         | None => dict_set seen_urls url (page_of meta)
         end)
  end.

Section Functions.

(** [hashlib.sha256(b).hexdigest()] *)
Variable sha256_hexdigest : string -> string.

Variable C : Type.
Variable col : Store C.

(** [_url_to_id] *)
Definition _url_to_id (url : string) : string :=
  substring 0 16 (sha256_hexdigest url).

(** [_delete_chunks_by_url_hash] *)
Definition _delete_chunks_by_url_hash (c : C) (url_hash : string) : C :=
  match (existing <- col_get_where col c url_hash ;;
         if Chunker.nonempty existing
         then col_delete col c (map row_id existing)
         else Ok c) with
  | Ok c' => c'
  | Raise _ =>
      match (old_existing <- col_get_ids col c [url_hash] ;;
             if Chunker.nonempty old_existing
             then col_delete col c (map row_id old_existing)
             else Ok c) with
      | Ok c' => c'
      | Raise _ => c
      end
  end.

(** [add_page]: the collection it leaves and the dictionary it returns, or
    the exception of [upsert]. *)
Definition add_page (c : C) (url : string) (title text : str) (tab_id : Z)
    (favicon : str) (embeddings : list Embedding) (chunks : list str)
    : res (C * Added) :=
  let url_hash := _url_to_id url in
  let c1 := _delete_chunks_by_url_hash c url_hash in
  let batch :=
    page_rows url title tab_id favicon url_hash (Z.of_nat (List.length chunks)) 0
      (combine chunks embeddings) in
  if Chunker.nonempty batch then
    c2 <- col_upsert col c1 batch ;;
    Ok (c2, mkAdded url_hash (Z.of_nat (List.length batch)))
  else Ok (c1, mkAdded url_hash (Z.of_nat (List.length batch))).

(** [delete]: the collection it leaves and [deleted_any]. *)
Definition delete (c : C) (url : string) : C * bool :=
  let url_hash := _url_to_id url in
  let '(c1, deleted_any) :=
    match (existing <- col_get_where col c url_hash ;;
           if Chunker.nonempty existing
           then c' <- col_delete col c (map row_id existing) ;; Ok (c', true)
           else Ok (c, false)) with
    | Ok state => state
    | Raise _ => (c, false)
    end in
  match (old_existing <- col_get_ids col c1 [url_hash] ;;
         if Chunker.nonempty old_existing
         then c' <- col_delete col c1 (map row_id old_existing) ;;
              Ok (c', true)
         else Ok (c1, deleted_any)) with
  | Ok state => state
  | Raise _ => (c1, deleted_any)
  end.

(** [get_all] *)
Definition get_all (c : C) : res (list Page) :=
  if (col_count col c =? 0)%nat then Ok []
  else
    results <- col_get col c ;;
    Ok (values (collect_pages (map row_meta results) [])).

End Functions.

Arguments _delete_chunks_by_url_hash {C}.
Arguments add_page sha256_hexdigest {C}.
Arguments delete sha256_hexdigest {C}.
Arguments get_all {C}.

(** *** A collection held in memory

    The records in the order of their insertion; no call raises. *)

Definition has_hash (url_hash : string) (r : Row) : bool :=
  match cm_url_hash (row_meta r) with
  | Some h => String.eqb h url_hash
  | None => false
  end.

Definition id_in (ids : list string) (r : Row) : bool :=
  existsb (String.eqb (row_id r)) ids.

(** [upsert] of one record: the record with the same id is replaced,
    otherwise the record is added. *)
Fixpoint upsert_row (rows : list Row) (r : Row) : list Row :=
  match rows with
  | [] => [r]
  | x :: rest =>
      if String.eqb (row_id x) (row_id r) then r :: rest
      else x :: upsert_row rest r
  end.

Definition memory : Store (list Row) :=
  mkStore
    (fun rows => List.length rows)
    (fun rows => Ok rows)
    (fun rows url_hash => Ok (filter (has_hash url_hash) rows))
    (fun rows ids => Ok (filter (id_in ids) rows))
    (fun rows ids => Ok (filter (fun r => negb (id_in ids r)) rows))
    (fun rows batch => Ok (fold_left upsert_row batch rows)).

End IndexStore.

(** ** Tools over the index ([agent_tools.py]) *)

Module TabTools.

Import VectorStore IndexStore.

Local Open Scope string_scope.
Local Open Scope list_scope.

Definition NEWLINE : str := [10%N].

(** [sep.join(parts)] *)
Fixpoint join (sep : str) (parts : list str) : str :=
  match parts with
  | [] => []
  | [p] => p
  | p :: rest => p ++ sep ++ join sep rest
  end.

(** [l.sort(key=key)]: ascending by key, elements with equal keys staying
    in their original order. *)
Fixpoint insert_asc {A} (key : A -> Z) (x : A) (l : list A) : list A :=
  match l with
  | [] => [x]
  | y :: rest =>
      if (key y <? key x)%Z then y :: insert_asc key x rest
      else x :: y :: rest
  end.

Definition sorted_asc {A} (key : A -> Z) (l : list A) : list A :=
  fold_right (insert_asc key) [] l.

(** What [execute_read_tab] returns: one of its two error dictionaries or
    the content of the tab. *)
Inductive ReadResult :=
  | NotFound (message : string)
  | ReadFailed (e : exn)
  | Content (url : string) (title : str) (total_chunks : Z) (content : str)
      (truncated : bool).

(** Lines 159-166: the loop over [enumerate(zip(documents, metadatas))],
    from index [i] on; a chunk is its index and its text. *)
Fixpoint read_loop (i : nat) (existing : list Row) (title : str)
    (chunks : list (Z * str)) : str * list (Z * str) :=
  match existing with
  | [] => (title, chunks)
  | r :: rest =>
      let meta := row_meta r in
      let title' :=
        if negb (truthy title) && truthy (cm_title meta)
        then cm_title meta else title in
      let index :=
        match cm_chunk_index meta with
        | Some k => k
        | None => Z.of_nat i
        end in
      read_loop (S i) rest title' (chunks ++ [(index, row_document r)])
  end.

Section Tools.

Variable sha256_hexdigest : string -> string.
Variable C : Type.
Variable col : Store C.

(** [execute_read_tab] *)
Definition execute_read_tab (c : C) (url : string) : ReadResult :=
  let url_hash := _url_to_id sha256_hexdigest url in
  match col_get_where col c url_hash with
  | Raise e => ReadFailed e
  | Ok existing =>
      if negb (Chunker.nonempty existing) then
        NotFound ("未找到 URL 对应的内容: " ++ url)%string
      else
        let '(title, chunks) := read_loop 0 existing [] [] in
        let chunks := sorted_asc fst chunks in
        let full_text := join NEWLINE (map snd chunks) in
        Content url title (Z.of_nat (List.length chunks))
          (slice full_text 0 5000)
          (5000 <? len full_text)%Z
  end.

(** A tab as [execute_list_tabs] lists it. *)
Record Tab := mkTab {
  tab_title : str;
  tab_url : string;
  tab_chunks : Z
}.

Record TabList := mkTabList {
  tl_count : Z;
  tl_message : option string;
  tl_tabs : list Tab
}.

(** [execute_list_tabs] *)
Definition execute_list_tabs (c : C) : res TabList :=
  pages <- get_all col c ;;
  if negb (Chunker.nonempty pages) then
    Ok (mkTabList 0 (Some "当前没有任何收纳的标签页") [])
  else
    let tabs :=
      map (fun p => mkTab (page_title p) (page_url p) (page_chunks p))
        pages in
    Ok (mkTabList (Z.of_nat (List.length tabs)) None tabs).

End Tools.

Arguments execute_read_tab sha256_hexdigest {C}.
Arguments execute_list_tabs {C}.

(** A result as [execute_search_tabs] formats it. *)
Record Formatted := mkFormatted {
  f_title : str;
  f_url : string;
  f_score : float;
  f_text_preview : str
}.

Record SearchOutput := mkSearchOutput {
  so_found : Z;
  so_message : option string;
  so_results : list Formatted
}.

Definition ELLIPSIS : str := lit "...".

Definition format_result (r : Doc) : Formatted :=
  let text := match VectorStore.text r with Some t => t | None => [] end in
  mkFormatted (VectorStore.title r) (VectorStore.url r) (VectorStore.score r)
    (if truthy text then slice text 0 200 ++ ELLIPSIS else []).

(** [execute_search_tabs]; [encode] is the embedding model. *)
Definition execute_search_tabs (encode : str -> Embedding)
    (col : Collection) (query : str) (top_k : nat) : SearchOutput :=
  let query_embedding := encode query in
  let results := search col query_embedding top_k true in
  if negb (Chunker.nonempty results) then
    mkSearchOutput 0 (Some "没有找到匹配的标签页") []
  else
    let formatted := map format_result results in
    mkSearchOutput (Z.of_nat (List.length formatted)) None formatted.

End TabTools.

(** ** The index routes ([routes.py]: [index_page], [delete_page],
    [list_pages]) *)

Module IndexRoutes.

Import VectorStore IndexStore.

Local Open Scope string_scope.
Local Open Scope list_scope.

Record IndexRequest := mkIndexRequest {
  ireq_url : string;
  ireq_title : str;
  ireq_text : str;
  ireq_tab_id : Z;
  ireq_favicon : str
}.

Inductive IndexResponse :=
  | IndexError (message : string)
  | IndexOk (doc_id : string) (chunks : Z).

Definition NOTHING_TO_INDEX : string :=
  "没有可索引的内容（文本和标题均为空）".

Section Routes.

Variable sha256_hexdigest : string -> string.

(** [embedding_service.encode_batch] *)
Variable encode_batch : list str -> list Embedding.

Variable C : Type.
Variable col : Store C.

(** Lines 29-31: the text that is indexed. *)
Definition text_to_embed (req : IndexRequest) : str :=
  let text := if truthy (ireq_text req) then strip (ireq_text req) else [] in
  if negb (truthy text) then ireq_title req else text.

(** [index_page]: the collection it leaves and the response, or the
    exception of the store; [None] only if the chunker ran out of fuel. *)
Definition index_page (c : C) (req : IndexRequest)
    : option (res (C * IndexResponse)) :=
  let text := text_to_embed req in
  if negb (truthy text) then Some (Ok (c, IndexError NOTHING_TO_INDEX))
  else
    match split_text text with
    | None => None
    | Some chunks =>
        let embeddings := encode_batch chunks in
        Some (added <- add_page sha256_hexdigest col c (ireq_url req)
                         (ireq_title req) text (ireq_tab_id req)
                         (ireq_favicon req) embeddings chunks ;;
              Ok (fst added,
                  IndexOk (doc_id (snd added)) (added_chunks (snd added))))
    end.

(** [delete_page]: the collection it leaves and the [deleted] flag. *)
Definition delete_page (c : C) (url : string) : C * bool :=
  delete sha256_hexdigest col c url.

(** [list_pages] *)
Definition list_pages (c : C) : res (list Page) := get_all col c.

End Routes.

Arguments index_page sha256_hexdigest encode_batch {C}.
Arguments delete_page sha256_hexdigest {C}.
Arguments list_pages {C}.

End IndexRoutes.

(** ** Vocabulary and samples of the index store's properties *)

Module IndexStoreSpec.

Import VectorStore IndexStore TabTools IndexRoutes.

Local Open Scope string_scope.
Local Open Scope list_scope.

(** A record as [add_page] writes it: it carries the hash of its URL, and
    its id is a chunk id of that hash. *)
Definition row_ok (sha256_hexdigest : string -> string) (r : Row) : Prop :=
  let url_hash := _url_to_id sha256_hexdigest (cm_url (row_meta r)) in
  cm_url_hash (row_meta r) = Some url_hash /\
  exists i, row_id r = _chunk_id url_hash i.

(** A collection of such records with pairwise different ids. *)
Definition well_formed (sha256_hexdigest : string -> string)
    (rows : list Row) : Prop :=
  NoDup (map row_id rows) /\ Forall (row_ok sha256_hexdigest) rows.

(** The records of the other pages. *)
Definition others (url_hash : string) (rows : list Row) : list Row :=
  filter (fun r => negb (has_hash url_hash r)) rows.

(** The pages listed with the URL [url]. *)
Definition listed (url : string) (pages : list Page) : list Page :=
  filter (fun p => String.eqb (page_url p) url) pages.

(** [meta] is the first of [metadatas] with its URL. *)
Definition first_with_url (metadatas : list ChunkMeta) (meta : ChunkMeta)
    : Prop :=
  exists before after,
    metadatas = before ++ meta :: after /\
    ~ In (cm_url meta) (map cm_url before).

(** The chunks of a page with their indices, from index [i] on. *)
Fixpoint indexed (i : nat) (chunks : list str) : list (Z * str) :=
  match chunks with
  | [] => []
  | chunk :: rest => (Z.of_nat i, chunk) :: indexed (S i) rest
  end.

(** A stand-in for the digest: 64 characters that tell two sample URLs
    apart. *)
Definition sample_hexdigest (b : string) : string :=
  if String.eqb b "https://example.org/redis"
  then "0123456789abcdef0123456789abcdef0123456789abcdef0123456789abcdef"
  else "fedcba9876543210fedcba9876543210fedcba9876543210fedcba9876543210".

(** An encoder that gives every chunk one embedding. *)
Definition sample_encode_batch (chunks : list str) : list Embedding :=
  map (fun _ => [(1 # 2)%Q]) chunks.

(** A collection holding two chunks of one page, as [add_page] leaves
    them. *)
Definition sample_rows : list Row :=
  page_rows "https://example.org/kafka" (lit "Kafka") 3 [] 
    (_url_to_id sample_hexdigest "https://example.org/kafka") 2 0
    [(lit "Kafka is a log.", [(1 # 2)%Q]);
     (lit "Consumers read it.", [(1 # 3)%Q])].

(** The record [add_page] writes for a page of one chunk. *)
Definition redis_rows : list Row :=
  page_rows "https://example.org/redis" (lit "Redis locks") 8 []
    (_url_to_id sample_hexdigest "https://example.org/redis") 1 0
    [(lit "Redis locks explained at length.", [(1 # 2)%Q])].

Definition sample_index_request : IndexRequest :=
  mkIndexRequest "https://example.org/redis" (lit "Redis locks")
    (lit "  Redis locks explained at length.  ") 8 [].

End IndexStoreSpec.

(** * Properties *)

(** ** Facts about Python text *)

Lemma len_nonneg s : 0 <= len s.
Proof. unfold len. lia. Qed.

Lemma len_app s t : len (s ++ t) = len s + len t.
Proof. unfold len. rewrite length_app. lia. Qed.

Lemma len_cons c s : len (c :: s) = 1 + len s.
Proof. unfold len. simpl length. lia. Qed.

Lemma truthy_len s : truthy s = true <-> 0 < len s.
Proof.
  destruct s; simpl.
  - split; [discriminate|]. unfold len. simpl. lia.
  - split; [|reflexivity]. intros _. rewrite len_cons. pose proof (len_nonneg s). lia.
Qed.

Lemma clamp_nonneg n i : 0 <= n -> 0 <= i -> clamp n i = Z.min i n.
Proof.
  intros Hn Hi. unfold clamp. destruct (Z.ltb_spec i 0); [lia|reflexivity].
Qed.

Lemma slice_len_le s a b :
  0 <= a -> 0 <= b -> len (slice s a b) <= Z.max 0 (b - a).
Proof.
  intros Ha Hb. unfold slice. pose proof (len_nonneg s) as Hn.
  rewrite (clamp_nonneg _ a Hn Ha), (clamp_nonneg _ b Hn Hb).
  unfold len at 1. rewrite length_firstn. lia.
Qed.

Lemma slice_len_eq s a b :
  0 <= a <= b -> b <= len s -> len (slice s a b) = b - a.
Proof.
  intros Hab Hb. unfold slice.
  rewrite !clamp_nonneg by (try apply len_nonneg; lia).
  unfold len at 1. rewrite length_firstn, length_skipn.
  unfold len in *. lia.
Qed.

Lemma slice_from_as_slice s a :
  0 <= a -> slice_from s a = slice s a (len s).
Proof.
  intros Ha. unfold slice_from, slice. pose proof (len_nonneg s) as Hn.
  rewrite (clamp_nonneg _ a Hn Ha), (clamp_nonneg _ (len s) Hn Hn).
  symmetry. apply firstn_all2. rewrite length_skipn. unfold len. lia.
Qed.

Lemma lstrip_len_le s : len (lstrip s) <= len s.
Proof.
  induction s as [|c r IH]; simpl; [lia|].
  destruct (isspace c); [|lia]. rewrite len_cons. lia.
Qed.

Lemma strip_len_le s : len (strip s) <= len s.
Proof.
  unfold strip, rstrip.
  assert (Hrev : forall t, len (rev t) = len t).
  { intro t. unfold len. now rewrite length_rev. }
  rewrite Hrev.
  pose proof (lstrip_len_le (rev (lstrip s))). rewrite Hrev in H.
  pose proof (lstrip_len_le s). lia.
Qed.

(** ** Chunker *)

(** *** Progress and termination of the window loop *)

Lemma last_match_end_range cls region pos acc m :
  last_match_end cls region pos acc = Some m ->
  acc = Some m \/ (pos + 1 <= m <= pos + len region).
Proof.
  revert pos acc.
  induction region as [|c r IH]; intros pos acc H; simpl in H.
  - now left.
  - apply IH in H. unfold len in *. simpl length. rewrite Nat2Z.inj_succ.
    destruct H as [H|H]; [|right; lia].
    destruct (cls c); [right|now left].
    inversion H; subst. lia.
Qed.

Lemma find_cut_lower text start :
  start + 321 <= find_cut text start.
Proof.
  unfold find_cut, CHUNK_SIZE.
  destruct (last_match_end is_sentence_end _ 0 None) as [m|] eqn:E1.
  - apply last_match_end_range in E1 as [E1|E1]; [discriminate|lia].
  - destruct (last_match_end is_soft_boundary _ 0 None) as [m|] eqn:E2.
    + apply last_match_end_range in E2 as [E2|E2]; [discriminate|lia].
    + lia.
Qed.

Lemma next_start_eq cut_pos :
  next_start cut_pos = cut_pos - CHUNK_OVERLAP.
Proof.
  unfold next_start, CHUNK_OVERLAP, CHUNK_SIZE.
  destruct (Z.leb_spec (cut_pos - 100) (cut_pos - 400)); [lia|reflexivity].
Qed.

Lemma next_start_advances text start :
  start + 221 <= next_start (find_cut text start).
Proof.
  rewrite next_start_eq. unfold CHUNK_OVERLAP.
  pose proof (find_cut_lower text start). lia.
Qed.

Lemma chunk_loop_enough_fuel text fuel :
  forall start chunks,
    Z.max 0 (len text - start) < Z.of_nat fuel ->
    exists result, chunk_loop fuel text start chunks = Some result.
Proof.
  induction fuel as [|fuel IH]; intros start chunks Hfuel.
  - simpl in Hfuel. lia.
  - simpl. destruct (start <? len text) eqn:Hlt; [|eauto].
    destruct (start + CHUNK_SIZE >=? len text) eqn:Hend; [eauto|].
    apply IH. pose proof (next_start_advances text start).
    unfold CHUNK_SIZE in Hend. lia.
Qed.

Lemma split_into_chunks_total text :
  exists chunks, _split_into_chunks text = Some chunks.
Proof.
  unfold _split_into_chunks.
  destruct (negb (truthy text) || (len text <=? CHUNK_SIZE)); [eauto|].
  destruct (chunk_loop_enough_fuel text (S (length text)) 0 []) as [r Hr].
  - unfold len. lia.
  - rewrite Hr. eauto.
Qed.

(** C8: progress of the window loop and totality of [split_text].  In every
    iteration that cuts a window the next start position is strictly greater
    than the current one (it is [cut_pos - CHUNK_OVERLAP]; the guard that
    would move it to [cut_pos] never fires), and [split_text] returns a
    list of chunks for every text. *)
Theorem split_text_progress_total :
  (forall text start,
      start < next_start (find_cut text start) /\
      (next_start (find_cut text start) = find_cut text start - CHUNK_OVERLAP \/
       next_start (find_cut text start) = find_cut text start)) /\
  (forall text, exists chunks, split_text text = Some chunks).
Proof.
  split.
  - intros text start. split.
    + pose proof (next_start_advances text start). lia.
    + left. apply next_start_eq.
  - intro text. apply split_into_chunks_total.
Qed.

(** *** Sizes of the chunks *)

Lemma find_cut_upper text start :
  0 <= start -> find_cut text start <= start + CHUNK_SIZE.
Proof.
  intros Hs. unfold find_cut, CHUNK_SIZE.
  destruct (last_match_end is_sentence_end _ 0 None) as [m|] eqn:E1.
  - apply last_match_end_range in E1 as [E1|E1]; [discriminate|].
    pose proof (slice_len_le text (Z.max start (start + 400 - 80)) (start + 400)).
    lia.
  - destruct (last_match_end is_soft_boundary _ 0 None) as [m|] eqn:E2.
    + apply last_match_end_range in E2 as [E2|E2]; [discriminate|].
      pose proof (slice_len_le text (Z.max start (start + 400 - 40)) (start + 400)).
      lia.
    + lia.
Qed.

Lemma window_segment_len text start :
  0 <= start ->
  len (strip (slice text start (find_cut text start))) <= CHUNK_SIZE.
Proof.
  intros Hs.
  pose proof (strip_len_le (slice text start (find_cut text start))).
  pose proof (find_cut_upper text start Hs).
  pose proof (find_cut_lower text start).
  pose proof (slice_len_le text start (find_cut text start)).
  unfold CHUNK_SIZE in *. lia.
Qed.

Lemma last_segment_len text start :
  0 <= start -> len text <= start + CHUNK_SIZE ->
  len (strip (slice_from text start)) <= CHUNK_SIZE.
Proof.
  intros Hs Hend. rewrite slice_from_as_slice by assumption.
  pose proof (strip_len_le (slice text start (len text))).
  pose proof (slice_len_le text start (len text) Hs (len_nonneg text)).
  unfold CHUNK_SIZE in *. lia.
Qed.

Lemma merged_form_single chunk :
  len chunk <= CHUNK_SIZE -> merged_form chunk [].
Proof.
  intros H. exists chunk. simpl. rewrite app_nil_r. auto.
Qed.

Lemma merged_form_snoc chunk tails seg :
  merged_form chunk tails -> 0 < len seg < MIN_CHUNK_SIZE ->
  merged_form (chunk ++ [SPACE] ++ seg) (tails ++ [seg]).
Proof.
  intros (head & -> & Hhead & Htails) Hseg. exists head. repeat split.
  - rewrite map_app, concat_app. simpl. now rewrite app_nil_r, <- app_assoc.
  - assumption.
  - apply Forall_app. split; [assumption|]. constructor; [lia|constructor].
Qed.

Lemma merged_form_len chunk tails :
  merged_form chunk tails ->
  len chunk <= CHUNK_SIZE + MIN_CHUNK_SIZE * Z.of_nat (length tails).
Proof.
  intros (head & -> & Hhead & Htails). rewrite len_app.
  assert (len (concat (map (cons SPACE) tails))
          <= MIN_CHUNK_SIZE * Z.of_nat (length tails)) as Hsum.
  { clear Hhead. induction Htails as [|t ts Ht _ IH]; simpl.
    - unfold len. simpl. lia.
    - rewrite len_cons, len_app. unfold MIN_CHUNK_SIZE in *. lia. }
  lia.
Qed.

Lemma full_chunks_sized chunks : full_chunks chunks -> sized_chunks chunks.
Proof.
  intros H. split.
  - eapply Forall_impl; [|exact H]. unfold MIN_CHUNK_SIZE.
    intros c [Hc Hm]. split; [lia|assumption].
  - intros c Hin Hlt. unfold full_chunks in H. rewrite Forall_forall in H.
    apply H in Hin. lia.
Qed.

Lemma full_chunks_snoc chunks chunk :
  full_chunks chunks -> MIN_CHUNK_SIZE <= len chunk ->
  len chunk <= CHUNK_SIZE -> full_chunks (chunks ++ [chunk]).
Proof.
  intros H Hmin Hmax. apply Forall_app. split; [assumption|].
  constructor; [|constructor]. split; [assumption|].
  exists []. now apply merged_form_single.
Qed.

Lemma full_chunks_merge chunks chunk :
  full_chunks chunks -> nonempty chunks = true ->
  0 < len chunk < MIN_CHUNK_SIZE -> full_chunks (merge_last chunks chunk).
Proof.
  intros H Hne Hlen. unfold merge_last.
  assert (chunks <> []) as Hnil by (destruct chunks; [discriminate|congruence]).
  rewrite (app_removelast_last [] Hnil) in H.
  apply Forall_app in H as [Hinit Hlast].
  apply Forall_app. split; [assumption|].
  inversion Hlast as [|? ? [Hmin [tails Hm]] _]; subst.
  constructor; [|constructor]. split.
  - rewrite !len_app. pose proof (len_nonneg [SPACE]). unfold str in *. lia.
  - exists (tails ++ [chunk]). now apply merged_form_snoc.
Qed.

Lemma emit_full chunks chunk :
  full_chunks chunks -> len chunk <= CHUNK_SIZE -> full_chunks (emit chunks chunk).
Proof.
  intros H Hmax. unfold emit.
  destruct (truthy chunk) eqn:Ht; simpl; [|assumption].
  apply truthy_len in Ht.
  destruct (Z.leb_spec MIN_CHUNK_SIZE (len chunk)).
  - now apply full_chunks_snoc.
  - destruct (nonempty chunks) eqn:Hne; [|assumption].
    apply full_chunks_merge; auto.
Qed.

Lemma emit_last_sized chunks chunk :
  full_chunks chunks -> len chunk <= CHUNK_SIZE ->
  sized_chunks (emit_last chunks chunk).
Proof.
  intros H Hmax. unfold emit_last.
  destruct (truthy chunk) eqn:Ht; simpl; [|now apply full_chunks_sized].
  apply truthy_len in Ht.
  destruct (Z.leb_spec MIN_CHUNK_SIZE (len chunk)).
  - apply full_chunks_sized. now apply full_chunks_snoc.
  - destruct (nonempty chunks) eqn:Hne.
    + apply full_chunks_sized. apply full_chunks_merge; auto.
    + destruct chunks; [|discriminate]. simpl. split.
      * constructor; [|constructor]. split; [assumption|].
        exists []. now apply merged_form_single.
      * intros c [<-|[]] _. reflexivity.
Qed.

Lemma chunk_loop_sized text fuel :
  forall start chunks result,
    0 <= start -> full_chunks chunks ->
    chunk_loop fuel text start chunks = Some result ->
    sized_chunks result.
Proof.
  induction fuel as [|fuel IH]; intros start chunks result Hs Hfull Hrun;
    simpl in Hrun; [discriminate|].
  destruct (start <? len text) eqn:Hlt.
  - destruct (Z.geb_spec (start + CHUNK_SIZE) (len text)) as [Hend|Hend].
    + inversion Hrun; subst. apply emit_last_sized; [assumption|].
      apply last_segment_len; lia.
    + eapply IH; [| |exact Hrun].
      * pose proof (next_start_advances text start). lia.
      * apply emit_full; [assumption|]. now apply window_segment_len.
  - inversion Hrun; subst. now apply full_chunks_sized.
Qed.

Lemma emit_nil chunks chunk :
  emit chunks chunk = [] -> chunks = [] /\ len chunk < MIN_CHUNK_SIZE.
Proof.
  unfold emit, merge_last.
  destruct (truthy chunk) eqn:Ht; cbn [andb].
  - destruct (Z.leb_spec MIN_CHUNK_SIZE (len chunk)) as [Hge|Hlt].
    + intros H. now apply app_eq_nil in H as [_ H].
    + destruct (nonempty chunks) eqn:Hne.
      * intros H. now apply app_eq_nil in H as [_ H].
      * intros ->. now split.
  - intros ->. destruct chunk; [|discriminate]. now split.
Qed.

Lemma emit_last_nil chunks chunk :
  emit_last chunks chunk = [] -> chunks = [] /\ chunk = [].
Proof.
  unfold emit_last, merge_last.
  destruct (truthy chunk) eqn:Ht; cbn [andb].
  - destruct (MIN_CHUNK_SIZE <=? len chunk).
    + intros H. now apply app_eq_nil in H as [_ H].
    + destruct (nonempty chunks);
        intros H; now apply app_eq_nil in H as [_ H].
  - intros ->. destruct chunk; [|discriminate]. now split.
Qed.

Lemma windows_more text fuel start :
  start < len text -> windows (S fuel) text start <> [].
Proof.
  intros Hlt. cbn [windows]. apply Z.ltb_lt in Hlt. rewrite Hlt.
  now destruct (start + CHUNK_SIZE >=? len text).
Qed.

(** The loop returns no chunk only if no window holds [MIN_CHUNK_SIZE]
    characters after stripping and the last window is blank. *)
Lemma chunk_loop_no_chunk text fuel :
  forall start chunks,
    0 <= start < len text ->
    chunk_loop fuel text start chunks = Some [] ->
    chunks = [] /\
    Forall (fun w => len (segment text w) < MIN_CHUNK_SIZE)
      (windows fuel text start) /\
    segment text (last (windows fuel text start) (0, 0)) = [].
Proof.
  induction fuel as [|fuel IH]; intros start chunks Hs Hrun;
    cbn [chunk_loop] in Hrun; [discriminate|].
  cbn [windows].
  destruct (Z.ltb_spec start (len text)); [|lia].
  destruct (Z.geb_spec (start + CHUNK_SIZE) (len text)) as [Hend|Hend].
  - injection Hrun as Hrun. apply emit_last_nil in Hrun as [-> Hblank].
    rewrite slice_from_as_slice in Hblank by lia.
    change (segment text (start, len text) = []) in Hblank.
    split; [reflexivity|]. cbn [last]. split; [|exact Hblank].
    constructor; [|constructor]. rewrite Hblank. reflexivity.
  - pose proof (find_cut_lower text start) as Hlo.
    pose proof (find_cut_upper text start (proj1 Hs)) as Hup.
    assert (Hnext : 0 <= next_start (find_cut text start) < len text).
    { rewrite next_start_eq. unfold CHUNK_OVERLAP, CHUNK_SIZE in *. lia. }
    destruct (IH _ _ Hnext Hrun) as (Hemit & Hall & Hlast).
    apply emit_nil in Hemit as [-> Hshort].
    split; [reflexivity|]. split; [now constructor|].
    destruct fuel as [|fuel']; [discriminate|].
    pose proof (windows_more text fuel' _ (proj2 Hnext)) as Hmore.
    destruct (windows (S fuel') text (next_start (find_cut text start)))
      as [|w ws]; [contradiction|exact Hlast].
Qed.

(** C2 (as the code has it): every chunk [split_text] returns is non-empty
    and no chunk is shorter than [MIN_CHUNK_SIZE] unless it is the only one.
    Every chunk is a head of at most [CHUNK_SIZE] characters followed by the
    short segments merged into it (one space and fewer than
    [MIN_CHUNK_SIZE] characters each), so a chunk with no merged segment has
    at most [CHUNK_SIZE] characters.  The one exception is a text longer
    than [CHUNK_SIZE] none of whose windows holds [MIN_CHUNK_SIZE]
    characters after stripping and whose last window is blank: the loop
    makes no chunk of it, and it is returned whole as the only chunk. *)
Theorem split_text_chunk_sizes text chunks :
  split_text text = Some chunks ->
  Forall (fun c => c <> []) chunks /\
  (forall c, In c chunks -> len c < MIN_CHUNK_SIZE -> chunks = [c]) /\
  (Forall (fun c => exists tails,
               merged_form c tails /\
               len c <= CHUNK_SIZE + MIN_CHUNK_SIZE * Z.of_nat (length tails))
     chunks \/
   (chunks = [text] /\
    CHUNK_SIZE < len text /\
    Forall (fun w => len (segment text w) < MIN_CHUNK_SIZE)
      (windows (S (length text)) text 0) /\
    segment text (last (windows (S (length text)) text 0) (0, 0)) = [])).
Proof.
  unfold split_text, _split_into_chunks. intros Hrun.
  assert (Hsized : forall r, sized_chunks r ->
    Forall (fun c => c <> []) r /\
    (forall c, In c r -> len c < MIN_CHUNK_SIZE -> r = [c]) /\
    Forall (fun c => exists tails,
                merged_form c tails /\
                len c <= CHUNK_SIZE + MIN_CHUNK_SIZE * Z.of_nat (length tails))
      r).
  { intros r [Hall Hsole]. repeat split.
    - eapply Forall_impl; [|exact Hall]. intros c [Hc _] ->.
      unfold len in Hc. simpl in Hc. lia.
    - exact Hsole.
    - eapply Forall_impl; [|exact Hall].
      intros c [_ [tails Hm]]. exists tails. split; [assumption|].
      now apply merged_form_len. }
  destruct (truthy text) eqn:Ht; cbn [negb orb andb] in Hrun.
  - destruct (Z.leb_spec (len text) CHUNK_SIZE) as [Hle|Hgt].
    + assert (chunks = [text]) as ->.
      { destruct (MIN_CHUNK_SIZE <=? len text); now inversion Hrun. }
      apply truthy_len in Ht. split; [|split].
      * constructor; [|constructor]. intros ->. unfold len in Ht. simpl in Ht. lia.
      * intros c [<-|[]] _. reflexivity.
      * left. constructor; [|constructor]. exists [].
        split; [now apply merged_form_single|].
        cbn [length]. lia.
    + destruct (chunk_loop _ text 0 []) as [r|] eqn:Hloop; [|discriminate].
      inversion Hrun; subst. clear Hrun.
      destruct r as [|c r]; simpl.
      * apply truthy_len in Ht.
        destruct (chunk_loop_no_chunk text _ 0 [] ltac:(lia) Hloop)
          as (_ & Hall & Hlast).
        split; [|split].
        -- constructor; [|constructor]. intros ->. discriminate.
        -- intros c [<-|[]] _. reflexivity.
        -- right. now repeat split.
      * destruct (Hsized (c :: r)) as (H1 & H2 & H3).
        { eapply chunk_loop_sized; [| |exact Hloop]; [lia|constructor]. }
        split; [exact H1|]. split; [exact H2|]. now left.
  - inversion Hrun; subst. split; [constructor|].
    split; [intros c []|]. left. constructor.
Qed.

Lemma split_text_chunk_sizes_witness :
  Forall (fun c => c <> []) [repeat letter_a 400; repeat letter_a 200] /\
  (forall c, In c [repeat letter_a 400; repeat letter_a 200] ->
             len c < MIN_CHUNK_SIZE ->
             [repeat letter_a 400; repeat letter_a 200] = [c]) /\
  (Forall (fun c => exists tails,
               merged_form c tails /\
               len c <= CHUNK_SIZE + MIN_CHUNK_SIZE * Z.of_nat (length tails))
     [repeat letter_a 400; repeat letter_a 200] \/
   ([repeat letter_a 400; repeat letter_a 200] = [text_plain] /\
    CHUNK_SIZE < len text_plain /\
    Forall (fun w => len (segment text_plain w) < MIN_CHUNK_SIZE)
      (windows (S (length text_plain)) text_plain 0) /\
    segment text_plain
      (last (windows (S (length text_plain)) text_plain 0) (0, 0)) = [])).
Proof.
  apply (split_text_chunk_sizes text_plain). vm_compute. reflexivity.
Defined.

(** C2 as stated fails: a 410-character text whose window ends in a full
    stop and whose remainder strips to 11 characters comes back as one chunk
    of 412 characters, above the window size. *)
Lemma split_text_chunk_above_window :
  exists chunk,
    split_text text_short_tail = Some [chunk] /\
    len chunk = 412 /\
    ~ Forall (fun c => c <> [] /\ len c <= CHUNK_SIZE) [chunk].
Proof.
  eexists. split; [vm_compute; reflexivity|]. split; [reflexivity|].
  intros H. inversion H as [|? ? [_ Hlen] _]; subst.
  vm_compute in Hlen. now apply Hlen.
Qed.

(** A text of 500 spaces: no window holds anything after stripping, the
    loop makes no chunk and the text comes back whole. *)
Lemma split_text_blank_text_whole :
  split_text (repeat SPACE 500) = Some [repeat SPACE 500] /\
  Forall (fun w => segment (repeat SPACE 500) w = [])
    (windows (S (length (repeat SPACE 500))) (repeat SPACE 500) 0).
Proof.
  split; [vm_compute; reflexivity|].
  repeat constructor.
Qed.

(** *** Coverage of the text by the windows *)

Lemma windows_cover text fuel :
  forall start reach,
    0 <= start <= reach -> reach <= start + CHUNK_OVERLAP ->
    reach <= len text -> start < len text ->
    Z.max 0 (len text - start) < Z.of_nat fuel ->
    covers_from (len text) reach (windows fuel text start).
Proof.
  induction fuel as [|fuel IH]; intros start reach Hs Hreach Hin Hlt Hfuel.
  - simpl in Hfuel. lia.
  - simpl. destruct (Z.ltb_spec start (len text)); [|lia].
    destruct (Z.geb_spec (start + CHUNK_SIZE) (len text)) as [Hend|Hend].
    + simpl. repeat split; lia.
    + pose proof (find_cut_lower text start) as Hlo.
      pose proof (find_cut_upper text start (proj1 Hs)) as Hup.
      unfold CHUNK_OVERLAP, CHUNK_SIZE in *.
      simpl. repeat split; try lia.
      replace (Z.max reach (find_cut text start)) with (find_cut text start)
        by lia.
      rewrite next_start_eq. unfold CHUNK_OVERLAP.
      apply IH; lia.
Qed.

Lemma join_space_snoc parts part :
  parts <> [] ->
  join_space (parts ++ [part]) = join_space parts ++ SPACE :: part.
Proof.
  induction parts as [|p rest IH]; intros Hne; [congruence|].
  destruct rest as [|q rest]; [reflexivity|].
  change (join_space ((p :: q :: rest) ++ [part]))
    with (p ++ SPACE :: join_space ((q :: rest) ++ [part])).
  rewrite IH by discriminate.
  change (join_space (p :: q :: rest)) with (p ++ SPACE :: join_space (q :: rest)).
  now rewrite <- app_assoc.
Qed.

Lemma chunk_of_snoc text group w :
  group <> [] ->
  chunk_of text (group ++ [w])
  = chunk_of text group ++ [SPACE] ++ segment text w.
Proof.
  intros Hne. unfold chunk_of. rewrite map_app. cbn [map].
  rewrite join_space_snoc; [reflexivity|]. now destruct group.
Qed.

Lemma merge_last_snoc (chunks : list str) chunk seg :
  merge_last (chunks ++ [chunk]) seg = chunks ++ [chunk ++ [SPACE] ++ seg].
Proof.
  unfold merge_last. now rewrite removelast_last, last_last.
Qed.

Lemma filter_nonblank_snoc text done w :
  filter (nonblank text) (done ++ [w])
  = filter (nonblank text) done
    ++ (if truthy (segment text w) then [w] else []).
Proof.
  rewrite filter_app. cbn [filter]. unfold nonblank.
  now destruct (truthy (segment text w)).
Qed.

Lemma all_blank text ws :
  filter (nonblank text) ws = [] ->
  Forall (fun v => segment text v = []) ws.
Proof.
  induction ws as [|w ws IH]; cbn [filter]; [constructor|].
  unfold nonblank at 1. destruct (segment text w) eqn:Hseg; cbn [truthy].
  - intros H. constructor; [exact Hseg|now apply IH].
  - discriminate.
Qed.

(** Appending the content of a window as a chunk of its own. *)
Lemma assembled_append text done left_out chunks w :
  truthy (segment text w) = true ->
  assembled text done left_out chunks ->
  assembled text (done ++ [w]) left_out (chunks ++ [segment text w]).
Proof.
  intros Ht (groups & Hfil & Hne & ->). exists (groups ++ [[w]]).
  split; [|split].
  - rewrite filter_nonblank_snoc, Ht, Hfil, concat_app. cbn [concat].
    now rewrite app_nil_r, app_assoc.
  - apply Forall_app. split; [exact Hne|]. now repeat constructor.
  - rewrite map_app. cbn [map]. unfold chunk_of at 3. now cbn.
Qed.

(** Merging the content of a window into the last chunk. *)
Lemma assembled_merge text done left_out chunks w :
  truthy (segment text w) = true ->
  nonempty chunks = true ->
  assembled text done left_out chunks ->
  assembled text (done ++ [w]) left_out (merge_last chunks (segment text w)).
Proof.
  intros Ht Hsome (groups & Hfil & Hne & ->).
  assert (Hgroups : groups <> []) by (now destruct groups).
  destruct (exists_last Hgroups) as (gs & g & ->).
  apply Forall_app in Hne as [Hgs Hg]. inversion Hg as [|? ? Hg' _]; subst.
  exists (gs ++ [g ++ [w]]). split; [|split].
  - rewrite filter_nonblank_snoc, Ht, Hfil, !concat_app. cbn [concat].
    now rewrite !app_nil_r, <- !app_assoc.
  - apply Forall_app. split; [exact Hgs|].
    constructor; [now destruct g|constructor].
  - rewrite !map_app. cbn [map]. rewrite merge_last_snoc.
    now rewrite chunk_of_snoc.
Qed.

(** Passing over a blank window. *)
Lemma assembled_skip text done left_out chunks w :
  truthy (segment text w) = false ->
  assembled text done left_out chunks ->
  assembled text (done ++ [w]) left_out chunks.
Proof.
  intros Ht (groups & Hfil & Hne & ->). exists groups.
  split; [|now split].
  now rewrite filter_nonblank_snoc, Ht, app_nil_r.
Qed.

(** Lines 91-94 on the window [w], which is not the last one of [W]. *)
Lemma emit_assembled text W done w rest chunks :
  W = done ++ w :: rest -> rest <> [] ->
  (exists left_out,
      assembled text done left_out chunks /\
      Forall (fun v => len (segment text v) < MIN_CHUNK_SIZE) left_out /\
      (starts_full text W -> left_out = [])) ->
  exists left_out,
    assembled text (done ++ [w]) left_out (emit chunks (segment text w)) /\
    Forall (fun v => len (segment text v) < MIN_CHUNK_SIZE) left_out /\
    (starts_full text W -> left_out = []).
Proof.
  intros HW Hrest (left_out & Hasm & Hshort & Hfull). unfold emit.
  destruct (truthy (segment text w)) eqn:Ht; cbn [andb].
  - destruct (Z.leb_spec MIN_CHUNK_SIZE (len (segment text w))) as [Hge|Hlt].
    + exists left_out. split; [now apply assembled_append|now split].
    + destruct (nonempty chunks) eqn:Hsome.
      * exists left_out. split; [now apply assembled_merge|now split].
      * destruct chunks; [|discriminate].
        destruct Hasm as (groups & Hfil & Hne & Hmap).
        assert (groups = []) as -> by (now destruct groups).
        cbn [concat] in Hfil. rewrite app_nil_r in Hfil.
        exists (left_out ++ [w]). split; [|split].
        -- exists []. split; [|now split].
           rewrite filter_nonblank_snoc, Ht, Hfil. cbn [concat].
           now rewrite app_nil_r.
        -- apply Forall_app. split; [exact Hshort|]. now repeat constructor.
        -- intros Hstart. exfalso.
           rewrite (Hfull Hstart) in Hfil. apply all_blank in Hfil.
           pose proof (Hstart done w rest HW Hrest Hfil) as Hmin.
           assert (segment text w <> []) as Hseg
               by (intros E; rewrite E in Ht; discriminate).
           specialize (Hmin Hseg). lia.
  - exists left_out. split; [now apply assembled_skip|now split].
Qed.

(** Lines 57-63 on the last window. *)
Lemma emit_last_assembled text done left_out chunks w :
  assembled text done left_out chunks ->
  assembled text (done ++ [w]) left_out (emit_last chunks (segment text w)).
Proof.
  intros Hasm. unfold emit_last.
  destruct (truthy (segment text w)) eqn:Ht; cbn [andb].
  - destruct (MIN_CHUNK_SIZE <=? len (segment text w)).
    + now apply assembled_append.
    + destruct (nonempty chunks) eqn:Hsome.
      * now apply assembled_merge.
      * now apply assembled_append.
  - now apply assembled_skip.
Qed.

Lemma chunk_loop_assembled text W fuel :
  forall start done chunks result,
    0 <= start < len text ->
    W = done ++ windows fuel text start ->
    (exists left_out,
        assembled text done left_out chunks /\
        Forall (fun v => len (segment text v) < MIN_CHUNK_SIZE) left_out /\
        (starts_full text W -> left_out = [])) ->
    chunk_loop fuel text start chunks = Some result ->
    exists left_out,
      assembled text W left_out result /\
      Forall (fun v => len (segment text v) < MIN_CHUNK_SIZE) left_out /\
      (starts_full text W -> left_out = []).
Proof.
  induction fuel as [|fuel IH]; intros start done chunks result Hs HW Hinv Hrun;
    cbn [chunk_loop] in Hrun; [discriminate|].
  cbn [windows] in HW.
  destruct (Z.ltb_spec start (len text)); [|lia].
  destruct (Z.geb_spec (start + CHUNK_SIZE) (len text)) as [Hend|Hend].
  - injection Hrun as <-. rewrite slice_from_as_slice by lia.
    destruct Hinv as (left_out & Hasm & Hshort & Hfull).
    exists left_out. split; [|now split]. rewrite HW.
    now apply (emit_last_assembled text done left_out chunks
                 (start, len text)).
  - pose proof (find_cut_lower text start) as Hlo.
    pose proof (find_cut_upper text start (proj1 Hs)) as Hup.
    assert (Hnext : 0 <= next_start (find_cut text start) < len text).
    { rewrite next_start_eq. unfold CHUNK_OVERLAP, CHUNK_SIZE in *. lia. }
    destruct fuel as [|fuel']; [discriminate|].
    eapply (IH _ (done ++ [(start, find_cut text start)])); [exact Hnext| | |exact Hrun].
    + now rewrite <- app_assoc.
    + apply (emit_assembled text W done (start, find_cut text start)
               (windows (S fuel') text (next_start (find_cut text start))));
        [exact HW| |exact Hinv].
      apply windows_more. lia.
Qed.

(** C1 (as the code has it): for a text longer than [CHUNK_SIZE], the
    windows [text[start:cut_pos]] the loop cuts stay inside the text, the
    first starts at 0, each next one starts at or before the position
    reached and the last one ends at the end of the text, so the windows
    cover the text with no gap.  The chunks are made of the stripped
    contents of the non-blank windows, in their order and each used once,
    a chunk being the contents of a group of consecutive windows joined by
    single spaces; the only contents not used are those of windows left out
    at the start, each shorter than [MIN_CHUNK_SIZE], and there is none
    when the first non-blank window holds at least [MIN_CHUNK_SIZE]
    characters or is the last one.  When no chunk is made, the text is
    returned whole. *)
Theorem split_text_windows_cover text chunks :
  CHUNK_SIZE < len text ->
  split_text text = Some chunks ->
  covers_from (len text) 0 (windows (S (length text)) text 0) /\
  exists left_out,
    Forall (fun w => len (segment text w) < MIN_CHUNK_SIZE) left_out /\
    (starts_full text (windows (S (length text)) text 0) -> left_out = []) /\
    ((chunks <> [] /\
      assembled text (windows (S (length text)) text 0) left_out chunks) \/
     (chunks = [text] /\
      filter (nonblank text) (windows (S (length text)) text 0) = left_out)).
Proof.
  intros Hlong Hrun. split.
  - unfold CHUNK_SIZE, CHUNK_OVERLAP in *.
    apply windows_cover; unfold CHUNK_OVERLAP, len in *; lia.
  - unfold split_text, _split_into_chunks in Hrun.
    destruct (Z.leb_spec (len text) CHUNK_SIZE); [lia|].
    rewrite orb_false_r in Hrun.
    destruct (truthy text) eqn:Ht; cbn [negb] in Hrun.
    + destruct (chunk_loop _ text 0 []) as [r|] eqn:Hloop; [|discriminate].
      injection Hrun as <-.
      destruct (chunk_loop_assembled text (windows (S (length text)) text 0)
                  (S (length text)) 0 [] [] r)
        as (left_out & Hasm & Hshort & Hfull).
      * unfold CHUNK_SIZE in *. lia.
      * reflexivity.
      * exists []. split; [|split; [constructor|reflexivity]].
        exists []. now repeat split.
      * exact Hloop.
      * exists left_out. split; [exact Hshort|]. split; [exact Hfull|].
        destruct r as [|c r]; cbn [nonempty].
        -- right. split; [reflexivity|].
           destruct Hasm as (groups & Hfil & _ & Hmap).
           assert (groups = []) as -> by (now destruct groups).
           cbn [concat] in Hfil. now rewrite app_nil_r in Hfil.
        -- left. split; [discriminate|exact Hasm].
    + destruct text; [|discriminate]. unfold len, CHUNK_SIZE in Hlong.
      simpl in Hlong. lia.
Qed.

Lemma split_text_windows_cover_witness :
  covers_from 500 0 [(0, 400); (300, 500)] /\
  exists left_out,
    Forall (fun w => len (segment text_plain w) < MIN_CHUNK_SIZE) left_out /\
    (starts_full text_plain [(0, 400); (300, 500)] -> left_out = []) /\
    (([repeat letter_a 400; repeat letter_a 200] <> [] /\
      assembled text_plain [(0, 400); (300, 500)] left_out
        [repeat letter_a 400; repeat letter_a 200]) \/
     ([repeat letter_a 400; repeat letter_a 200] = [text_plain] /\
      filter (nonblank text_plain) [(0, 400); (300, 500)] = left_out)).
Proof.
  apply (split_text_windows_cover text_plain
           [repeat letter_a 400; repeat letter_a 200]).
  - reflexivity.
  - vm_compute. reflexivity.
Defined.

Lemma Forall2_pair {A B} (R : A -> B -> Prop) l a b :
  Forall2 R l [a; b] -> exists x y, l = [x; y] /\ R x a /\ R y b.
Proof.
  intros H. inversion H as [|x ? l1 ? Hx H1]; subst.
  inversion H1 as [|y ? l2 ? Hy H2]; subst. inversion H2; subst. eauto.
Qed.

(** C1 as stated fails: the chunks of 450 letters followed by a space are
    400 and 150 letters; no placement of them in the text reaches its last
    character, the space that [strip] removed. *)
Lemma split_text_not_reconstructing :
  CHUNK_SIZE < len text_trailing_space /\
  split_text text_trailing_space =
    Some [repeat letter_a 400; repeat letter_a 150] /\
  ~ reconstructs text_trailing_space
      [repeat letter_a 400; repeat letter_a 150].
Proof.
  split; [reflexivity|]. split; [vm_compute; reflexivity|].
  intros (spans & Hspans & Hcov).
  apply Forall2_pair in Hspans as ([s1 c1] & [s2 c2] & -> & H1 & H2).
  cbn [fst snd] in H1, H2. cbn [covers_from] in Hcov.
  change (len text_trailing_space) with 451 in Hcov.
  destruct Hcov as (Hs1 & Hc1 & Hs2 & Hc2 & Hend).
  assert (len (slice text_trailing_space s1 c1) = c1 - s1) as L1
    by (apply slice_len_eq; change (len text_trailing_space) with 451; lia).
  assert (len (slice text_trailing_space s2 c2) = c2 - s2) as L2
    by (apply slice_len_eq; change (len text_trailing_space) with 451; lia).
  rewrite H1 in L1. rewrite H2 in L2.
  change (len (repeat letter_a 400)) with 400 in L1.
  change (len (repeat letter_a 150)) with 150 in L2.
  assert (s2 = 301) by lia. assert (c2 = 451) by lia. subst s2 c2.
  vm_compute in H2. discriminate H2.
Qed.

(** The first window of [text_short_head] strips to the five characters
    of its word; with no chunk to merge them into, the loop leaves them out,
    and the word is in no chunk. *)
Lemma split_text_leaves_out_short_first_window :
  windows (S (length text_short_head)) text_short_head 0
    = [(0, 400); (300, 700); (600, 900)] /\
  segment text_short_head (0, 400) = lit "Hello" /\
  split_text text_short_head
    = Some [repeat letter_a 300; repeat letter_a 300].
Proof.
  repeat split; vm_compute; reflexivity.
Qed.

(** ** Containers *)

Lemma Qltb_true a b : Qltb a b = true -> (a < b)%Q.
Proof.
  unfold Qltb. intros H. apply negb_true_iff in H.
  apply Qnot_le_lt. intros Hle. apply Qle_bool_iff in Hle. congruence.
Qed.

Lemma Qltb_false a b : Qltb a b = false -> (b <= a)%Q.
Proof.
  unfold Qltb. intros H. apply negb_false_iff in H. now apply Qle_bool_iff.
Qed.

Lemma insert_desc_perm {A} (key : A -> Q) x l :
  Permutation (insert_desc key x l) (x :: l).
Proof.
  induction l as [|y rest IH]; simpl; [reflexivity|].
  destruct (Qltb (key x) (key y)); [|reflexivity].
  rewrite IH. apply perm_swap.
Qed.

Lemma sorted_desc_perm {A} (key : A -> Q) l :
  Permutation (sorted_desc key l) l.
Proof.
  induction l as [|x rest IH]; simpl; [reflexivity|].
  rewrite insert_desc_perm. now constructor.
Qed.

Lemma insert_desc_sorted {A} (key : A -> Q) x l :
  VectorStoreSpec.descending key l ->
  VectorStoreSpec.descending key (insert_desc key x l).
Proof.
  unfold VectorStoreSpec.descending.
  induction l as [|y rest IH]; intros Hs; simpl.
  - repeat constructor.
  - destruct (Qltb (key x) (key y)) eqn:E.
    + inversion Hs as [|? ? Hrest Hhd]; subst. constructor; [now apply IH|].
      destruct rest as [|z rest]; simpl.
      * constructor. now apply Qlt_le_weak, Qltb_true.
      * destruct (Qltb (key x) (key z)).
        -- constructor. now inversion Hhd.
        -- constructor. now apply Qlt_le_weak, Qltb_true.
    + constructor; [assumption|]. constructor. now apply Qltb_false.
Qed.

Lemma sorted_desc_sorted {A} (key : A -> Q) l :
  VectorStoreSpec.descending key (sorted_desc key l).
Proof.
  induction l as [|x rest IH]; simpl; [constructor|].
  now apply insert_desc_sorted.
Qed.

Lemma descending_firstn {A} (key : A -> Q) n l :
  VectorStoreSpec.descending key l ->
  VectorStoreSpec.descending key (firstn n l).
Proof.
  unfold VectorStoreSpec.descending. revert l.
  induction n as [|n IH]; intros l Hs; [constructor|].
  destruct l as [|x rest]; [constructor|]. simpl.
  inversion Hs as [|? ? Hrest Hhd]; subst. constructor; [now apply IH|].
  destruct n; [constructor|]. destruct rest; [constructor|]. simpl.
  constructor. now inversion Hhd.
Qed.

Lemma In_firstn {A} (x : A) n l : In x (firstn n l) -> In x l.
Proof.
  revert l. induction n as [|n IH]; intros l H; [contradiction|].
  destruct l; [contradiction|]. simpl in *. destruct H; auto.
Qed.

Lemma NoDup_firstn {A} n (l : list A) : NoDup l -> NoDup (firstn n l).
Proof.
  revert l. induction n as [|n IH]; intros l H; [constructor|].
  destruct l; [constructor|]. simpl. inversion H; subst.
  constructor; [|now apply IH]. intros Hin. now apply In_firstn in Hin.
Qed.

Lemma map_firstn {A B} (f : A -> B) n l :
  map f (firstn n l) = firstn n (map f l).
Proof.
  revert l. induction n; intros [|x l]; simpl; congruence.
Qed.

Lemma dict_get_none {V} (d : dict V) k :
  dict_get d k = None -> ~ In k (map fst d).
Proof.
  induction d as [|[k' v] rest IH]; simpl; [tauto|].
  destruct (String.eqb_spec k k'); [discriminate|].
  intros H [Heq|Hin]; [congruence|]. now apply IH.
Qed.

Lemma dict_get_some {V} (d : dict V) k v :
  dict_get d k = Some v -> In (k, v) d.
Proof.
  induction d as [|[k' v'] rest IH]; simpl; [discriminate|].
  destruct (String.eqb_spec k k').
  - intros H. inversion H; subst. now left.
  - intros H. right. now apply IH.
Qed.

Lemma dict_set_keys_new {V} (d : dict V) k v :
  dict_get d k = None -> map fst (dict_set d k v) = map fst d ++ [k].
Proof.
  induction d as [|[k' v'] rest IH]; simpl; [reflexivity|].
  destruct (String.eqb_spec k k'); [discriminate|].
  intros H. simpl. now rewrite IH.
Qed.

Lemma dict_set_keys_old {V} (d : dict V) k v v0 :
  dict_get d k = Some v0 -> map fst (dict_set d k v) = map fst d.
Proof.
  induction d as [|[k' v'] rest IH]; simpl; [discriminate|].
  destruct (String.eqb_spec k k'); [reflexivity|].
  intros H. simpl. now rewrite IH.
Qed.

Lemma dict_set_in {V} (d : dict V) k v k' v' :
  In (k', v') (dict_set d k v) -> (k' = k /\ v' = v) \/ In (k', v') d.
Proof.
  induction d as [|[k0 v0] rest IH]; simpl.
  - intros [H|[]]. inversion H. now left.
  - destruct (String.eqb_spec k k0).
    + intros [H|H]; [inversion H; subst; now left|right; now right].
    + intros [H|H]; [right; now left|].
      apply IH in H. destruct H; [now left|right; now right].
Qed.

Lemma dict_set_in_self {V} (d : dict V) k v :
  In k (map fst (dict_set d k v)) /\
  forall v', In (k, v') (dict_set d k v) ->
             NoDup (map fst (dict_set d k v)) -> v' = v.
Proof.
  induction d as [|[k0 v0] rest IH]; simpl.
  - split; [now left|]. intros v' [H|[]] _. now inversion H.
  - destruct (String.eqb_spec k k0).
    + subst. simpl. split; [now left|].
      intros v' [H|H] Hnd; [now inversion H|].
      inversion Hnd; subst. exfalso. apply H2.
      change k0 with (fst (k0, v')). now apply in_map.
    + simpl. destruct IH as [IH1 IH2]. split; [now right|].
      intros v' [H|H] Hnd; [inversion H; congruence|].
      inversion Hnd; subst. now apply IH2.
Qed.

Lemma keys_functional {V} (d : dict V) k v1 v2 :
  NoDup (map fst d) -> In (k, v1) d -> In (k, v2) d -> v1 = v2.
Proof.
  induction d as [|[k0 v0] rest IH]; simpl; [tauto|].
  intros Hnd H1 H2. inversion Hnd; subst.
  assert (forall v, In (k0, v) rest -> False) as Hno.
  { intros v Hv. apply H3. change k0 with (fst (k0, v)). now apply in_map. }
  destruct H1 as [H1|H1], H2 as [H2|H2].
  - congruence.
  - inversion H1; subst. exfalso. eauto.
  - inversion H2; subst. exfalso. eauto.
  - now apply IH.
Qed.

(** ** Index adapter *)

Section Collapse.

Import VectorStore VectorStoreSpec.

Lemma best_of_more done extra item :
  best_of done item ->
  (forall meta dist, In (meta, dist) extra -> meta_url meta = url item ->
                     (similarity dist <= score item)%Q) ->
  best_of (done ++ extra) item.
Proof.
  intros [(meta & dist & Hin & Hurl & Hscore) Hmax] Hextra. split.
  - exists meta, dist. split; [apply in_or_app; now left|auto].
  - intros m d Hin' Hurl'. apply in_app_or in Hin' as [Hin'|Hin'].
    + eapply Hmax; eassumption.
    + eapply Hextra; eassumption.
Qed.

Lemma best_of_other done meta dist item :
  best_of done item -> meta_url meta <> url item ->
  best_of (done ++ [(meta, dist)]) item.
Proof.
  intros Hb Hne. apply best_of_more; [assumption|].
  intros m d' [H|[]] Hm. inversion H; subst. contradiction.
Qed.

Lemma best_of_self done meta dist item :
  url item = meta_url meta -> score item = similarity dist ->
  (forall m d', In (m, d') done -> meta_url m = url item ->
                (similarity d' <= score item)%Q) ->
  best_of (done ++ [(meta, dist)]) item.
Proof.
  intros Hurl Hscore Hmax. split.
  - exists meta, dist. split; [apply in_or_app; right; now left|].
    split; [now symmetry|assumption].
  - intros m d' Hin Hm. apply in_app_or in Hin as [Hin|[Hin|[]]].
    + eapply Hmax; eassumption.
    + inversion Hin; subst. rewrite Hscore. apply Qle_refl.
Qed.

Lemma in_keys {V} (d : dict V) k v : In (k, v) d -> In k (map fst d).
Proof. intros H. change k with (fst (k, v)). now apply in_map. Qed.

Lemma collapse_step done d meta dist item :
  collapsed done d ->
  url item = meta_url meta -> score item = similarity dist ->
  collapsed (done ++ [(meta, dist)])
    (if match dict_get d (meta_url meta) with
        | None => true
        | Some old => Qltb (score old) (similarity dist)
        end
     then dict_set d (meta_url meta) item else d).
Proof.
  intros (Hnd & Hitems & Hkeys) Hurl Hscore.
  destruct (dict_get d (meta_url meta)) as [old|] eqn:Hget.
  - pose proof (dict_get_some _ _ _ Hget) as Hold.
    destruct (Hitems _ _ Hold) as [Hold_url Hold_best].
    assert (Hcover : forall m d', In (m, d') (done ++ [(meta, dist)]) ->
                                  In (meta_url m) (map fst d)).
    { intros m d' Hin. apply in_app_or in Hin as [Hin|[Hin|[]]].
      - eapply Hkeys; eassumption.
      - inversion Hin; subst. eapply in_keys; eassumption. }
    destruct (Qltb (score old) (similarity dist)) eqn:Hcmp.
    + (* the new chunk replaces the entry of its page *)
      assert (Hk : map fst (dict_set d (meta_url meta) item) = map fst d)
        by (eapply dict_set_keys_old; eassumption).
      split; [now rewrite Hk|]. split; [|now rewrite Hk].
      intros k it Hin.
      destruct (String.eqb_spec k (meta_url meta)) as [->|Hne].
      * assert (it = item) as ->.
        { apply (proj2 (dict_set_in_self d (meta_url meta) item));
            [assumption|now rewrite Hk]. }
        split; [assumption|]. apply best_of_self; try assumption.
        intros m d' Hin' Hm. rewrite Hscore. apply Qlt_le_weak.
        eapply Qle_lt_trans; [|apply Qltb_true; exact Hcmp].
        eapply (proj2 Hold_best); [eassumption|]. congruence.
      * apply dict_set_in in Hin as [[Heq _]|Hin]; [contradiction|].
        destruct (Hitems _ _ Hin) as [Hu Hb]. split; [assumption|].
        apply best_of_other; [assumption|congruence].
    + (* the entry of the page is kept *)
      split; [assumption|]. split; [|assumption].
      intros k it Hin. destruct (Hitems _ _ Hin) as [Hu Hb].
      split; [assumption|]. apply best_of_more; [assumption|].
      intros m d' [H|[]] Hm. inversion H; subst m d'.
      assert (it = old) as ->.
      { eapply keys_functional; [exact Hnd|exact Hin|].
        rewrite <- Hu, <- Hm. exact Hold. }
      now apply Qltb_false.
  - (* first chunk of its page *)
    pose proof (dict_get_none _ _ Hget) as Hfresh.
    assert (Hk : map fst (dict_set d (meta_url meta) item)
                 = map fst d ++ [meta_url meta])
      by now apply dict_set_keys_new.
    split.
    { rewrite Hk. apply Permutation_NoDup with (l := meta_url meta :: map fst d).
      - apply Permutation_cons_append.
      - now constructor. }
    split.
    + intros k it Hin. apply dict_set_in in Hin as [[-> ->]|Hin].
      * split; [assumption|]. apply best_of_self; try assumption.
        intros m d' Hin' Hm. exfalso. apply Hfresh.
        rewrite <- Hurl, <- Hm. eapply Hkeys; eassumption.
      * destruct (Hitems _ _ Hin) as [Hu Hb]. split; [assumption|].
        apply best_of_other; [assumption|].
        intros Heq. apply Hfresh. rewrite Heq, Hu. eapply in_keys; eassumption.
    + intros m d' Hin. rewrite Hk. apply in_or_app.
      apply in_app_or in Hin as [Hin|[Hin|[]]].
      * left. eapply Hkeys; eassumption.
      * inversion Hin; subst. right. now left.
Qed.

Lemma collapse_collapsed cands include_text docs :
  forall done i d,
    collapsed done d ->
    collapsed (done ++ cands) (collapse cands include_text docs i d).
Proof.
  induction cands as [|[meta dist] rest IH]; intros done i d Hinv; simpl.
  - now rewrite app_nil_r.
  - change ((meta, dist) :: rest) with ([(meta, dist)] ++ rest).
    rewrite app_assoc. apply IH.
    match goal with
    | |- collapsed _ (if ?b then dict_set _ _ ?it else _) =>
        exact (collapse_step done d meta dist it Hinv eq_refl eq_refl)
    end.
Qed.

End Collapse.

Section Search.

Import VectorStore VectorStoreSpec.

Lemma collapsed_urls cands d :
  collapsed cands d -> map url (values d) = map fst d.
Proof.
  intros (_ & Hitems & _). unfold values.
  induction d as [|[k item] rest IH]; simpl; [reflexivity|].
  f_equal.
  - apply (Hitems k item). now left.
  - apply IH. intros k' item' Hin. apply Hitems. now right.
Qed.

Lemma collapsed_nil : collapsed [] [].
Proof.
  split; [constructor|]. split; intros ? ? [].
Qed.

(** C3: for every index, query embedding and result count [top_k],
    [search] returns at most [top_k] results, no two of them with the same
    URL; each result carries the similarity [round(1 - distance, 4)] of one
    fetched chunk of its page, and no fetched chunk of that page has a
    higher one; the results are in descending order of score. *)
Theorem search_page_level col query_embedding top_k include_text :
  let results := search col query_embedding top_k include_text in
  let fetched := fetch col query_embedding top_k include_text in
  let cands := combine (metadatas fetched) (distances fetched) in
  (List.length results <= top_k)%nat /\
  NoDup (map url results) /\
  (forall item, In item results ->
     (exists meta dist,
         In (meta, dist) cands /\ meta_url meta = url item /\
         score item = round4 (1 - dist)%Q) /\
     (forall meta dist,
         In (meta, dist) cands -> meta_url meta = url item ->
         (round4 (1 - dist) <= score item)%Q)) /\
  descending score results.
Proof.
  intros results fetched cands. subst results. unfold search.
  destruct (count col =? 0)%nat.
  - repeat split; try constructor; try (intros; contradiction). simpl. lia.
  - fold fetched. fold cands.
    set (docs := if include_text then documents fetched else []).
    pose proof (collapse_collapsed cands include_text docs [] 0%nat []
                  collapsed_nil) as Hinv.
    simpl app in Hinv.
    set (d := collapse cands include_text docs 0 []) in *.
    pose proof (sorted_desc_perm score (values d)) as Hperm.
    split; [apply firstn_le_length|]. split; [|split].
    + rewrite map_firstn. apply NoDup_firstn.
      apply Permutation_NoDup with (l := map url (values d)).
      * apply Permutation_map. now symmetry.
      * rewrite (collapsed_urls cands d Hinv). apply Hinv.
    + intros item Hin. apply In_firstn in Hin.
      apply (Permutation_in _ Hperm) in Hin.
      unfold values in Hin. apply in_map_iff in Hin as ([k it] & Heq & Hin).
      simpl in Heq. subst it.
      destruct Hinv as (_ & Hitems & _).
      exact (proj2 (Hitems k item Hin)).
    + apply descending_firstn, sorted_desc_sorted.
Qed.

End Search.

(** ** Heuristic reranker *)

Section Heuristics.

Import VectorStore VectorStoreSpec Reranker RerankerSpec.

Lemma Qltb_iff a b : Qltb a b = true <-> (a < b)%Q.
Proof.
  split; [apply Qltb_true|]. intros H. unfold Qltb.
  apply negb_true_iff. destruct (Qle_bool b a) eqn:E; [|reflexivity].
  apply Qle_bool_iff in E. exfalso. now apply (Qlt_not_le a b).
Qed.

Lemma Qltb_quotient_below s n k :
  0 < n -> Qltb (inject_Z s / inject_Z n) (inject_Z k) = (s <? k * n).
Proof.
  intros Hn. destruct n as [|p|p]; try lia.
  apply eq_true_iff_eq. rewrite Qltb_iff, Z.ltb_lt.
  unfold Qlt, Qdiv, Qinv, Qmult, inject_Z. cbn [Qnum Qden]. lia.
Qed.

Lemma Qltb_half_quotient c n :
  0 < n -> Qltb (5 # 10) (inject_Z c / inject_Z n) = (n <? 2 * c).
Proof.
  intros Hn. destruct n as [|p|p]; try lia.
  apply eq_true_iff_eq. rewrite Qltb_iff, Z.ltb_lt.
  unfold Qlt, Qdiv, Qinv, Qmult, inject_Z. cbn [Qnum Qden]. lia.
Qed.

Lemma penalty_of_spec U text : (penalty_of U text == spec_penalty U text)%Q.
Proof.
  unfold penalty_of, spec_penalty, short_lines, mostly_list.
  set (lines := content_lines text).
  destruct lines as [|l rest] eqn:E.
  - reflexivity.
  - cbv [Chunker.nonempty]. rewrite <- E.
    assert (0 < Z.of_nat (List.length lines)) as Hpos
      by (rewrite E; simpl List.length; lia).
    change 20%Q with (inject_Z 20).
    rewrite (Qltb_quotient_below _ _ 20 Hpos), (Qltb_half_quotient _ _ Hpos).
    destruct (total_len lines <? 20 * Z.of_nat (List.length lines));
      destruct (Z.of_nat (List.length lines) <? _); reflexivity.
Qed.

Lemma text_of_used doc : text_used doc (text_of doc).
Proof.
  unfold text_used, text_of. destruct (text doc) as [[|c body]|].
  - right. split; [now right|reflexivity].
  - left. exists (c :: body). repeat split. discriminate.
  - right. split; [now left|reflexivity].
Qed.

Lemma text_used_unique doc t : text_used doc t -> t = text_of doc.
Proof.
  unfold text_used, text_of.
  intros [(body & -> & Hne & ->)|[[-> | ->] ->]]; try reflexivity.
  now destruct body.
Qed.

(** *** Lines *)

Lemma split_lines_acc s :
  forall cur,
    split_lines s cur
    = match split_lines s [] with
      | p :: ps => (rev cur ++ p) :: ps
      | [] => []
      end.
Proof.
  induction s as [|c s IH]; intros cur; cbn [split_lines].
  - cbn. now rewrite app_nil_r.
  - destruct (c =? 10)%N.
    + cbn. now rewrite app_nil_r.
    + rewrite (IH (c :: cur)), (IH [c]).
      destruct (split_lines s []) as [|p ps]; [reflexivity|].
      cbn [rev app]. now rewrite <- app_assoc.
Qed.

Lemma split_lines_cons c s :
  split_lines (c :: s) []
  = if (c =? 10)%N then [] :: split_lines s []
    else match split_lines s [] with
         | p :: ps => (c :: p) :: ps
         | [] => []
         end.
Proof.
  cbn [split_lines]. destruct (c =? 10)%N; [reflexivity|].
  now rewrite split_lines_acc.
Qed.

Lemma split_lines_pieces s : split_at_newlines s (split_lines s []).
Proof.
  unfold split_at_newlines.
  induction s as [|c s (Hne & Hall & Hjoin)].
  - cbn. repeat split; [discriminate|]. repeat constructor. intros [].
  - rewrite split_lines_cons. destruct (N.eqb_spec c 10) as [->|Hc].
    + split; [discriminate|]. split; [constructor; [intros []|exact Hall]|].
      cbn [join_newline].
      destruct (split_lines s []) as [|p ps]; [contradiction|].
      cbn [app]. now rewrite Hjoin.
    + destruct (split_lines s []) as [|p ps]; [contradiction|].
      split; [discriminate|]. apply Forall_cons_iff in Hall as [Hp Hps].
      split.
      * constructor; [|exact Hps]. intros [H|H]; [congruence|contradiction].
      * cbn [join_newline] in *. destruct ps; cbn [app]; now rewrite Hjoin.
Qed.

Lemma split_at_newlines_unique s :
  forall parts, split_at_newlines s parts -> parts = split_lines s [].
Proof.
  unfold split_at_newlines.
  induction s as [|c s IH]; intros parts (Hne & Hall & Hjoin).
  - destruct parts as [|p [|q rest]]; [contradiction| |].
    + cbn in Hjoin. now subst.
    + cbn [join_newline] in Hjoin. now destruct p.
  - rewrite split_lines_cons.
    destruct parts as [|p rest]; [contradiction|].
    apply Forall_cons_iff in Hall as [Hp Hrest].
    destruct rest as [|q rest].
    + cbn in Hjoin. subst p.
      destruct (N.eqb_spec c 10) as [->|Hc]; [exfalso; apply Hp; now left|].
      rewrite <- (IH [s]).
      * reflexivity.
      * split; [discriminate|]. split; [|reflexivity].
        constructor; [|constructor]. intros H. apply Hp. now right.
    + cbn [join_newline] in Hjoin. destruct p as [|c' p'].
      * cbn [app] in Hjoin. injection Hjoin as <- Hjoin.
        cbn [N.eqb Pos.eqb]. rewrite <- (IH (q :: rest)); [reflexivity|].
        split; [discriminate|]. now split.
      * cbn [app] in Hjoin. injection Hjoin as -> Hjoin.
        destruct (N.eqb_spec c 10) as [->|Hc]; [exfalso; apply Hp; now left|].
        rewrite <- (IH (p' :: q :: rest)); [reflexivity|].
        split; [discriminate|]. split; [|exact Hjoin].
        constructor; [|exact Hrest]. intros H. apply Hp. now right.
Qed.

Lemma content_lines_filter text :
  content_lines text
  = filter truthy (map strip (split_lines (strip text) [])).
Proof.
  unfold content_lines. now rewrite filter_map_swap.
Qed.

Lemma content_lines_nonempty text : nonempty_lines text (content_lines text).
Proof.
  exists (split_lines (strip text) []).
  split; [apply split_lines_pieces|apply content_lines_filter].
Qed.

Lemma nonempty_lines_unique text lines :
  nonempty_lines text lines -> lines = content_lines text.
Proof.
  intros (parts & Hparts & ->). rewrite content_lines_filter.
  now rewrite (split_at_newlines_unique _ _ Hparts).
Qed.
(** *** List markers *)

Lemma digits_then_dot_marker U line :
  digits_then_dot (is_digit U) line = true <->
  exists digits rest,
    digits <> [] /\
    Forall (fun c => is_digit U c = true) digits /\
    line = digits ++ 46%N :: rest.
Proof.
  induction line as [|c line IH]; cbn [digits_then_dot].
  - split; [discriminate|]. intros (digits & rest & Hne & _ & Heq).
    now destruct digits.
  - rewrite andb_true_iff, orb_true_iff, IH. split.
    + intros [Hc [Hdot|(digits & rest & Hne & Hall & ->)]].
      * destruct line as [|c' line']; [discriminate|].
        apply N.eqb_eq in Hdot. subst c'.
        exists [c], line'. split; [discriminate|].
        split; [now repeat constructor|reflexivity].
      * exists (c :: digits), rest. split; [discriminate|].
        split; [now constructor|reflexivity].
    + intros (digits & rest & Hne & Hall & Heq).
      destruct digits as [|d digits]; [contradiction|].
      cbn [app] in Heq. injection Heq as -> ->.
      apply Forall_cons_iff in Hall as [Hd Hall]. split; [exact Hd|].
      destruct digits as [|d' digits].
      * left. cbn. reflexivity.
      * right. exists (d' :: digits), rest.
        split; [discriminate|]. now split.
Qed.

Lemma list_pattern_match_marker U line :
  list_pattern_match (is_digit U) line = true <-> has_list_marker U line.
Proof.
  unfold list_pattern_match, has_list_marker.
  rewrite orb_true_iff, digits_then_dot_marker.
  apply or_iff_compat_l. destruct line as [|c line].
  - split; [discriminate|]. now intros (c & rest & Heq & _).
  - rewrite !orb_true_iff, !N.eqb_eq. split.
    + intros H. exists c, line. split; [reflexivity|]. cbn. intuition.
    + intros (c' & rest & Heq & Hin). injection Heq as <- <-.
      cbn in Hin. intuition.
Qed.

(** *** Counting *)

Lemma counted_count_if {A} (P : A -> Prop) (f : A -> bool) l :
  (forall x, f x = true <-> P x) -> counted P l (count_if f l).
Proof.
  intros Hf. unfold count_if.
  induction l as [|x l IH]; cbn [filter]; [constructor|].
  destruct (f x) eqn:Hx.
  - cbn [List.length]. rewrite Nat2Z.inj_succ, <- Z.add_1_r.
    constructor; [now apply Hf|exact IH].
  - constructor; [|exact IH]. intros HP. apply Hf in HP. congruence.
Qed.

Lemma counted_unique {A} (P : A -> Prop) (f : A -> bool) l n :
  (forall x, f x = true <-> P x) -> counted P l n -> n = count_if f l.
Proof.
  intros Hf Hc. unfold count_if.
  induction Hc as [|x l n HP _ IH|x l n HP _ IH]; cbn [filter].
  - reflexivity.
  - apply Hf in HP. rewrite HP. cbn [List.length]. lia.
  - destruct (f x) eqn:Hx; [exfalso; apply HP; now apply Hf|exact IH].
Qed.

(** *** Substrings *)

Lemma starts_with_prefix p s :
  starts_with p s = true <-> exists after, s = p ++ after.
Proof.
  revert s. induction p as [|a p IH]; intros s; cbn [starts_with].
  - split; [intros _; now exists s|reflexivity].
  - destruct s as [|b s].
    + split; [discriminate|]. now intros (after & Heq).
    + rewrite andb_true_iff, N.eqb_eq, IH. split.
      * intros [-> (after & ->)]. now exists after.
      * intros (after & Heq). injection Heq as -> ->. split; [reflexivity|].
        now exists after.
Qed.

Lemma contains_occurs hay needle :
  contains hay needle = true <-> occurs_in hay needle.
Proof.
  unfold occurs_in. induction hay as [|c hay IH]; cbn [contains].
  - rewrite orb_false_r, starts_with_prefix. split.
    + intros (after & Heq). now exists [], after.
    + intros (before & after & Heq).
      symmetry in Heq. apply app_eq_nil in Heq as [-> Heq].
      apply app_eq_nil in Heq as [-> ->]. now exists [].
  - rewrite orb_true_iff, starts_with_prefix, IH. split.
    + intros [(after & Heq)|(before & after & ->)].
      * now exists [], after.
      * now exists (c :: before), after.
    + intros (before & after & Heq). destruct before as [|b before].
      * left. now exists after.
      * right. injection Heq as -> ->. now exists before, after.
Qed.

(** *** Terms *)

Lemma word_run_whole U run t :
  Forall (fun c => is_word U c = true) run ->
  word_run U run t <-> run <> [] /\ t = run.
Proof.
  intros Hrun. split.
  - intros (Hne & _ & before & after & Heq & Hb & Ha).
    assert (before = []) as ->.
    { destruct before as [|b0 before'] using rev_ind; [reflexivity|].
      specialize (Hb before' b0 eq_refl).
      rewrite Forall_forall in Hrun. rewrite Hrun in Hb; [discriminate|].
      rewrite Heq, !in_app_iff. left. right. now left. }
    assert (after = []) as ->.
    { destruct after as [|a0 after']; [reflexivity|].
      specialize (Ha a0 after' eq_refl).
      rewrite Forall_forall in Hrun. rewrite Hrun in Ha; [discriminate|].
      rewrite Heq, !in_app_iff. right. right. now left. }
    cbn [app] in Heq. rewrite app_nil_r in Heq. subst. now split.
  - intros [Hne ->]. split; [exact Hne|]. split; [exact Hrun|].
    exists [], []. cbn [app]. rewrite app_nil_r. split; [reflexivity|].
    split; [intros pre c H; now destruct pre|discriminate].
Qed.

Lemma word_run_split U run c rest t :
  Forall (fun x => is_word U x = true) run ->
  is_word U c = false ->
  word_run U (run ++ c :: rest) t <->
  (run <> [] /\ t = run) \/ word_run U rest t.
Proof.
  intros Hrun Hc. rewrite Forall_forall in Hrun. split.
  - intros (Hne & Ht & before & after & Heq & Hb & Ha).
    rewrite Forall_forall in Ht.
    apply app_eq_app in Heq as [l [[Hl Hr]|[Hl Hr]]].
    + assert (before = []) as ->.
      { destruct before as [|b0 before'] using rev_ind; [reflexivity|].
        specialize (Hb before' b0 eq_refl).
        rewrite Hrun in Hb; [discriminate|].
        rewrite Hl, !in_app_iff. left. right. now left. }
      cbn [app] in Hl. subst l.
      symmetry in Hr. apply app_eq_app in Hr as [l' [[Hl' Hr']|[Hl' Hr']]].
      * (* run = t ++ l' *)
        destruct l' as [|x l''].
        -- rewrite app_nil_r in Hl'. left. subst. now split.
        -- exfalso. cbn [app] in Hr'. specialize (Ha x _ Hr').
           rewrite Hrun in Ha; [discriminate|].
           rewrite Hl', in_app_iff. right. now left.
      * (* t = run ++ l' *)
        destruct l' as [|x l''].
        -- rewrite app_nil_r in Hl'. left. subst. now split.
        -- exfalso. cbn [app] in Hr'. injection Hr' as <- _.
           rewrite Ht in Hc; [discriminate|].
           rewrite Hl', in_app_iff. right. now left.
    + destruct l as [|x l''].
      * exfalso. cbn [app] in Hr. destruct t as [|t0 t']; [contradiction|].
        injection Hr as <- _. rewrite Ht in Hc; [discriminate|now left].
      * cbn [app] in Hr. injection Hr as <- Hrest. right.
        split; [exact Hne|]. split; [now apply Forall_forall|].
        exists l'', after. split; [exact Hrest|]. split; [|exact Ha].
        intros pre y Hpre. apply (Hb (run ++ c :: pre) y).
        rewrite Hl, Hpre. now rewrite <- app_assoc.
  - intros [[Hne ->]|(Hne & Ht & before & after & -> & Hb & Ha)].
    + split; [exact Hne|]. split; [now apply Forall_forall|].
      exists [], (c :: rest). split; [reflexivity|].
      split; [intros pre y H; now destruct pre|].
      intros y post H. now injection H as <- _.
    + split; [exact Hne|]. split; [exact Ht|].
      exists (run ++ c :: before), after.
      split; [now rewrite <- app_assoc|]. split; [|exact Ha].
      intros pre y Hpre.
      destruct before as [|b0 before'] using rev_ind.
      * apply app_inj_tail in Hpre as [_ <-]. exact Hc.
      * change (run ++ c :: before' ++ [b0])
          with (run ++ (c :: before') ++ [b0]) in Hpre.
        rewrite app_assoc in Hpre. apply app_inj_tail in Hpre as [_ <-].
        now apply (Hb before').
Qed.

Lemma findall_words_runs U s :
  forall cur t,
    Forall (fun c => is_word U c = true) cur ->
    In t (findall_words (is_word U) s cur) <-> word_run U (rev cur ++ s) t.
Proof.
  induction s as [|c s IH]; intros cur t Hcur; cbn [findall_words].
  - rewrite app_nil_r, word_run_whole by now apply Forall_rev.
    destruct cur as [|x cur']; cbn [truthy].
    + split; [intros []|]. now intros [H _].
    + cbn [In]. split.
      * intros [<-|[]]. split; [|reflexivity].
        cbn [rev]. now destruct (rev cur').
      * intros [_ ->]. now left.
  - destruct (is_word U c) eqn:Hc.
    + rewrite IH by now constructor. cbn [rev]. now rewrite <- app_assoc.
    + rewrite word_run_split by (try apply Forall_rev; assumption).
      destruct cur as [|x cur']; cbn [truthy].
      * rewrite (IH [] t) by constructor. cbn [rev app]. split.
        -- intros H. now right.
        -- intros [[H _]|H]; [contradiction|exact H].
      * cbn [In]. rewrite (IH [] t) by constructor. cbn [app]. split.
        -- intros [<-|H]; [left|now right].
           split; [|reflexivity]. cbn [rev]. now destruct (rev cur').
        -- intros [[_ ->]|H]; [now left|now right].
Qed.

Lemma query_terms_distinct U query :
  distinct_terms U query (query_terms_of U query).
Proof.
  unfold distinct_terms, query_terms_of. split; [apply NoDup_nodup|].
  intros t. rewrite nodup_In.
  now rewrite (findall_words_runs U (lower U query) [] t) by constructor.
Qed.

(** *** Penalty and bonus *)

Lemma total_len_concat lines : total_len lines = len (concat lines).
Proof.
  unfold total_len. induction lines as [|l lines IH]; cbn [fold_right concat].
  - reflexivity.
  - now rewrite len_app, IH.
Qed.

Lemma Qltb_half x : Qltb (5 # 10) x = Qltb (1 # 2) x.
Proof.
  unfold Qltb, Qle_bool. cbn [Qnum Qden]. f_equal.
  apply eq_true_iff_eq. rewrite !Z.leb_le. lia.
Qed.

Lemma Qltb_dec {A} a b (x y : A) :
  (if Qltb a b then x else y) = (if Qlt_le_dec a b then x else y).
Proof.
  destruct (Qlt_le_dec a b) as [Hlt|Hle]; destruct (Qltb a b) eqn:E;
    try reflexivity.
  - apply Qltb_false in E. exfalso. now apply (Qlt_not_le a b).
  - apply Qltb_true in E. exfalso. now apply (Qlt_not_le a b).
Qed.

Lemma final_score_rescore U terms doc :
  exists f, final_score (rescore U terms doc) = Some f
            /\ final_key (rescore U terms doc) = f.
Proof. eexists. split; reflexivity. Qed.

Lemma by_final_score_sorted (l : list Doc) :
  Forall (fun d => exists f, final_score d = Some f /\ final_key d = f) l ->
  descending final_key l -> by_final_score l.
Proof.
  unfold descending, by_final_score. intros Hall Hsorted.
  induction Hsorted as [|a l Hl IH Hhd]; [constructor|].
  apply Forall_cons_iff in Hall as [(fa & Ha & Hka) Hall].
  constructor; [now apply IH|].
  destruct Hhd as [|b l' Hab]; constructor.
  apply Forall_cons_iff in Hall as [(fb & Hb & Hkb) _].
  exists fa, fb. rewrite Hka, Hkb in Hab. now repeat split.
Qed.

Lemma rescored_all_scored U terms (documents : list Doc) l :
  (forall d, In d l -> In d (map (rescore U terms) documents)) ->
  Forall (fun d => exists f, final_score d = Some f /\ final_key d = f) l.
Proof.
  intros Hin. apply Forall_forall. intros d Hd.
  apply Hin, in_map_iff in Hd as (doc & <- & _).
  apply final_score_rescore.
Qed.

Lemma penalty_of_heuristic U text :
  (penalty_of U text ==
   heuristic_penalty (content_lines text)
     (count_if (list_pattern_match (is_digit U)) (content_lines text)))%Q.
Proof.
  unfold penalty_of, heuristic_penalty, average_length.
  rewrite <- total_len_concat.
  destruct (content_lines text) as [|l rest] eqn:E; [reflexivity|].
  cbv [Chunker.nonempty]. rewrite Qltb_half, !Qltb_dec.
  destruct (Qlt_le_dec _ 20); destruct (Qlt_le_dec (1 # 2) _); reflexivity.
Qed.

Lemma bonus_of_heuristic U terms text :
  (bonus_of U terms text ==
   heuristic_bonus (count_if (contains (lower U text)) terms))%Q.
Proof.
  unfold bonus_of, heuristic_bonus. ring.
Qed.

Lemma rescore_heuristic U query doc :
  heuristic_rescored U query doc (rescore U (query_terms_of U query) doc).
Proof.
  unfold heuristic_rescored. do 7 (split; [reflexivity|]).
  exists (text_of doc), (content_lines (text_of doc)),
    (count_if (list_pattern_match (is_digit U)) (content_lines (text_of doc))),
    (query_terms_of U query),
    (count_if (contains (lower U (text_of doc))) (query_terms_of U query)).
  eexists.
  split; [apply text_of_used|].
  split; [apply content_lines_nonempty|].
  split; [apply counted_count_if, list_pattern_match_marker|].
  split; [apply query_terms_distinct|].
  split; [apply counted_count_if; intros t; apply contains_occurs|].
  split; [reflexivity|].
  now rewrite penalty_of_heuristic, bonus_of_heuristic.
Qed.

(** C7: the heuristic reranker gives every candidate the final score
    [similarity * penalty * bonus] and leaves its other fields as they
    were.  The penalty is 0.7 when the average length of the non-empty
    lines of the candidate's text is under 20, times 0.6 when more than
    half of these lines match the list-marker pattern; the bonus is
    [1 + 0.05 * (number of distinct terms of the query found in the
    text)].  The result is the rescored candidates in descending order of
    final score, cut to [top_k].  In particular a candidate whose text has
    ten non-empty lines, six of them with a list marker, gets the factor
    0.6. *)
Theorem rerank_by_heuristics_scores U query documents top_k :
  (exists rescored ranked,
      Forall2 (heuristic_rescored U query) documents rescored /\
      Permutation ranked rescored /\
      by_final_score ranked /\
      rerank_by_heuristics U query documents top_k = firstn top_k ranked) /\
  by_final_score (rerank_by_heuristics U query documents top_k) /\
  (List.length (rerank_by_heuristics U query documents top_k) <= top_k)%nat /\
  (forall doc t lines,
      text_used doc t ->
      nonempty_lines t lines ->
      List.length lines = 10%nat ->
      counted (has_list_marker U) lines 6 ->
      exists r f terms found,
        rerank_by_heuristics U query [doc] 1 = [r] /\
        final_score r = Some f /\
        distinct_terms U query terms /\
        counted (occurs_in (lower U t)) terms found /\
        (f == score doc
              * ((if Qlt_le_dec (average_length lines) 20
                  then 7 # 10 else 1)
                 * (6 # 10))
              * heuristic_bonus found)%Q).
Proof.
  split; [|split; [|split]].
  - exists (map (rescore U (query_terms_of U query)) documents).
    exists (sorted_desc final_key
              (map (rescore U (query_terms_of U query)) documents)).
    split; [|split; [apply sorted_desc_perm|split]].
    + induction documents as [|doc rest IH]; cbn [map]; constructor;
        [apply rescore_heuristic|exact IH].
    + apply by_final_score_sorted; [|apply sorted_desc_sorted].
      apply (rescored_all_scored U (query_terms_of U query) documents).
      intros d Hd. eapply Permutation_in; [apply sorted_desc_perm|exact Hd].
    + reflexivity.
  - apply by_final_score_sorted;
      [|apply descending_firstn, sorted_desc_sorted].
    apply (rescored_all_scored U (query_terms_of U query) documents).
    intros d Hd. apply In_firstn in Hd.
    eapply Permutation_in; [apply sorted_desc_perm|exact Hd].
  - apply firstn_le_length.
  - intros doc t lines Ht Hlines Hten Hsix.
    apply text_used_unique in Ht. apply nonempty_lines_unique in Hlines.
    subst t lines.
    apply (counted_unique _ _ _ _ (list_pattern_match_marker U)) in Hsix.
    exists (rescore U (query_terms_of U query) doc). eexists.
    exists (query_terms_of U query),
      (count_if (contains (lower U (text_of doc))) (query_terms_of U query)).
    split; [reflexivity|]. split; [reflexivity|].
    split; [apply query_terms_distinct|].
    split; [apply counted_count_if; intros x; apply contains_occurs|].
    rewrite penalty_of_heuristic, bonus_of_heuristic, <- Hsix.
    unfold heuristic_penalty. rewrite Hten.
    destruct (content_lines (text_of doc)) as [|l rest]; [discriminate|].
    reflexivity.
Qed.

Lemma rerank_by_heuristics_scores_witness :
  exists r f terms found,
    rerank_by_heuristics ascii_tables (lit "Redis locks") [toc_doc] 1 = [r] /\
    final_score r = Some f /\
    distinct_terms ascii_tables (lit "Redis locks") terms /\
    counted (occurs_in (lower ascii_tables toc_text)) terms found /\
    (f == score toc_doc
          * ((if Qlt_le_dec (average_length (content_lines toc_text)) 20
              then 7 # 10 else 1)
             * (6 # 10))
          * heuristic_bonus found)%Q.
Proof.
  apply (proj2 (proj2 (proj2
           (rerank_by_heuristics_scores ascii_tables (lit "Redis locks")
              [toc_doc; prose_doc] 5)))
           toc_doc toc_text (content_lines toc_text)).
  - left. exists toc_text. repeat split. discriminate.
  - apply content_lines_nonempty.
  - vm_compute. reflexivity.
  - replace 6 with (count_if (list_pattern_match (is_digit ascii_tables))
                      (content_lines toc_text)) by (vm_compute; reflexivity).
    apply counted_count_if, list_pattern_match_marker.
Defined.

(** The reranker run on the table of contents and on a page of prose, for
    the query [Redis locks]: the table of contents, with the higher
    similarity, gets [0.8 * (0.7 * 0.6) * 1.1] and comes second. *)
Lemma rerank_by_heuristics_toc_example :
  map url (rerank_by_heuristics ascii_tables (lit "Redis locks")
             [toc_doc; prose_doc] 5)
  = [url prose_doc; url toc_doc] /\
  Forall2 Qeq
    (map final_key (rerank_by_heuristics ascii_tables (lit "Redis locks")
                      [toc_doc; prose_doc] 5))
    [((6 # 10) * 1 * (1 + 2 * (5 # 100)))%Q;
     ((8 # 10) * ((7 # 10) * (6 # 10)) * (1 + 2 * (5 # 100)))%Q].
Proof.
  split; [vm_compute; reflexivity|].
  repeat constructor; vm_compute; reflexivity.
Qed.

End Heuristics.

(** ** Agent loop *)

Section AgentLoop.

Import AgentTools AgentService AgentSpec.

Local Open Scope string_scope.
Local Open Scope list_scope.

Lemma run_tool_calls_quiet E step tool_calls :
  forall st, Forall quiet (fst (run_tool_calls E step tool_calls st)).
Proof.
  induction tool_calls as [|tool_call rest IH]; intros st; simpl.
  - constructor.
  - destruct (dispatch_tool _ _ _) as [tool_result|e]; simpl.
    + destruct (_summarize_result tool_result) as [summary|e]; simpl.
      * match goal with
        | |- context [run_tool_calls E step rest ?s] =>
            specialize (IH s); destruct (run_tool_calls E step rest s)
        end.
        simpl in *. constructor; [right; left; reflexivity|].
        constructor; [right; right; reflexivity|assumption].
      * constructor; [right; left; reflexivity|constructor].
    + constructor; [right; left; reflexivity|constructor].
Qed.

Lemma thinking_quiet step : quiet (thinking_event step).
Proof. left. reflexivity. Qed.

Lemma react_loop_shape E c remaining :
  forall step st events outcome actions,
    react_loop E c remaining step st = (events, outcome, actions) ->
    run_shape events outcome actions.
Proof.
  induction remaining as [|remaining IH];
    intros step st events outcome actions Hrun; simpl in Hrun.
  - inversion Hrun; subst. exists []. split; [constructor|reflexivity].
  - destruct (call_llm E c (messages st)) as [message|description].
    + destruct (Chunker.nonempty (msg_tool_calls message)).
      * match type of Hrun with
        | context [run_tool_calls E step ?tcs ?s] =>
            pose proof (run_tool_calls_quiet E step tcs s) as Hquiet;
            destruct (run_tool_calls E step tcs s) as [evs [st2|e]]
        end; simpl in Hquiet.
        -- destruct (react_loop E c remaining (S step) st2)
             as [[later outcome'] actions'] eqn:Hlater.
           inversion Hrun; subst. clear Hrun.
           apply IH in Hlater. destruct Hlater as (pre & Hpre & Htail).
           exists (thinking_event step :: evs ++ pre). split.
           ++ constructor; [apply thinking_quiet|].
              apply Forall_app. now split.
           ++ destruct outcome.
              ** destruct Htail as (answer & n & [[Ha He]|[Ha (act & Hact & He)]]);
                   exists answer, n; [left|right]; subst later.
                 --- split; [assumption|]. simpl. now rewrite <- app_assoc.
                 --- split; [assumption|]. exists act. split; [assumption|].
                     simpl. now rewrite <- app_assoc.
              ** subst later. simpl. now rewrite <- app_assoc.
              ** destruct Htail as (err & Herr & He). exists err.
                 split; [assumption|]. subst later. simpl.
                 now rewrite <- app_assoc.
              ** subst later. reflexivity.
        -- inversion Hrun; subst. exists (thinking_event step :: evs).
           split; [|reflexivity]. constructor; [apply thinking_quiet|assumption].
      * destruct (restore_actions st) as [|a rest] eqn:Hacts; simpl in Hrun.
        -- inversion Hrun; subst. exists [thinking_event step].
           split; [repeat constructor|].
           eexists _, step. left. split; reflexivity.
        -- destruct (action_event (a :: rest)) as [action|e] eqn:Hact.
           ++ inversion Hrun; subst. exists [thinking_event step].
              split; [repeat constructor|].
              eexists _, step. right. split; [discriminate|].
              exists action. split; [assumption|reflexivity].
           ++ inversion Hrun; subst. exists [thinking_event step].
              split; [repeat constructor|reflexivity].
    + inversion Hrun; subst. exists [thinking_event step].
      split; [repeat constructor|].
      eexists. split; [|reflexivity]. reflexivity.
Qed.

Lemma run_agent_full_shape E user_query events outcome actions :
  run_agent_full E user_query = (events, outcome, actions) ->
  run_shape events outcome actions.
Proof.
  unfold run_agent_full. intros Hrun.
  assert (Hunconf : run_shape [not_configured_event] Failed []).
  { exists []. split; [constructor|].
    eexists. split; [|reflexivity]. reflexivity. }
  destruct (config E) as [c|].
  - destruct (String.eqb (api_key c) "").
    + inversion Hrun; subst. apply Hunconf.
    + eapply react_loop_shape; eassumption.
  - inversion Hrun; subst. apply Hunconf.
Qed.

End AgentLoop.

(** ** Requests without a completion provider *)

Section Unconfigured.

Import VectorStore VectorStoreSpec Reranker RerankerSpec LLMService Routes
  RoutesSpec.

Lemma rerank_unconfigured U config provider query documents top_k :
  configured config = false ->
  rerank U config provider query documents top_k true
  = rerank_by_heuristics U query documents top_k.
Proof.
  intros Hc. unfold rerank. rewrite Hc. simpl.
  destruct documents as [|d rest]; simpl; [|reflexivity].
  unfold rerank_by_heuristics. simpl. now destruct top_k.
Qed.

Lemma llm_search_unconfigured B req :
  configured (Routes.config B) = false ->
  llm_search B req =
  mkLLMSearchResponse [req_query req]
    (map to_search_result
       (map normalise
          (rerank_by_heuristics (unicode B) (req_query req)
             (merged_candidates B [req_query req] (req_top_k req))
             (req_top_k req))))
    (Some NOT_CONFIGURED).
Proof.
  intros Hc. unfold llm_search, generate_keywords. rewrite Hc. simpl.
  unfold keywords_or_query. simpl.
  now rewrite rerank_unconfigured.
Qed.

Lemma apply_llm_scores_fused scores documents :
  forall i r,
    In r (apply_llm_scores scores i documents) ->
    exists doc llm_score,
      In doc documents /\
      final_score r =
        Some ((3 # 10) * (score doc * 100) + (7 # 10) * llm_score)%Q.
Proof.
  induction documents as [|doc rest IH]; intros i r Hin; simpl in Hin.
  - contradiction.
  - destruct Hin as [<-|Hin].
    + exists doc, (score_map_get scores i). split; [now left|reflexivity].
    + apply IH in Hin as (doc' & llm_score & Hdoc & Hf).
      exists doc', llm_score. split; [now right|assumption].
Qed.

(** C10: when no completion provider is configured, every result of an
    llm-search request carries [original similarity * penalty * bonus / 100]
    of one of the merged candidates; the route divides the final score by
    100 whatever reranker produced it, also the fused score
    [0.3 * (similarity * 100) + 0.7 * llm_score] of the other mode, which is
    on a scale of 0 to 100. *)
Theorem llm_search_heuristic_scale B req :
  configured (Routes.config B) = false ->
  (forall sr, In sr (resp_results (llm_search B req)) ->
     exists doc,
       In doc (merged_candidates B [req_query req] (req_top_k req)) /\
       sr_url sr = url doc /\
       sr_score sr =
         (score doc * penalty_of (unicode B) (text_of doc)
          * bonus_of (unicode B)
              (query_terms_of (unicode B) (req_query req)) (text_of doc)
          / 100)%Q) /\
  (forall r f, final_score r = Some f ->
     sr_score (to_search_result (normalise r)) = (f / 100)%Q) /\
  (forall scores documents r,
     In r (apply_llm_scores scores 0 documents) ->
     exists doc llm_score,
       In doc documents /\
       sr_score (to_search_result (normalise r)) =
         (((3 # 10) * (score doc * 100) + (7 # 10) * llm_score) / 100)%Q).
Proof.
  intros Hc. split; [|split].
  - rewrite (llm_search_unconfigured B req Hc). simpl. intros sr Hin.
    apply in_map_iff in Hin as (r & <- & Hin).
    apply in_map_iff in Hin as (r' & <- & Hin).
    unfold rerank_by_heuristics in Hin. apply In_firstn in Hin.
    apply (Permutation_in _ (sorted_desc_perm _ _)) in Hin.
    apply in_map_iff in Hin as (doc & <- & Hin).
    exists doc. split; [assumption|]. split; reflexivity.
  - intros r f Hf. unfold normalise, to_search_result. simpl. now rewrite Hf.
  - intros scores documents r Hin.
    apply apply_llm_scores_fused in Hin as (doc & llm_score & Hdoc & Hf).
    exists doc, llm_score. split; [assumption|].
    unfold normalise, to_search_result. simpl. now rewrite Hf.
Qed.

Lemma llm_search_heuristic_scale_witness :
  (exists doc,
     In doc (merged_candidates unconfigured_backend
               [req_query sample_request] (req_top_k sample_request)) /\
     "https://example.org/redis"%string = url doc /\
     (880000 # 100000000)%Q =
       (score doc * penalty_of ascii_tables (text_of doc)
        * bonus_of ascii_tables
            (query_terms_of ascii_tables (req_query sample_request))
            (text_of doc) / 100)%Q) /\
  sr_score (to_search_result (normalise (set_final_score prose_doc 66%Q)))
  = (66 / 100)%Q.
Proof.
  split.
  - apply (proj1 (llm_search_heuristic_scale unconfigured_backend
                    sample_request eq_refl)
             (mkSearchResult "https://example.org/redis" (lit "Redis locks")
                8 [] (880000 # 100000000)%Q)).
    vm_compute. left. reflexivity.
  - apply (proj1 (proj2 (llm_search_heuristic_scale unconfigured_backend
                           sample_request eq_refl))
             (set_final_score prose_doc 66%Q) 66%Q).
    reflexivity.
Defined.

End Unconfigured.

Section UnconfiguredRequests.

Import VectorStore Reranker RerankerSpec LLMService Routes RoutesSpec.
Import AgentTools AgentService AgentSpec.

Local Open Scope string_scope.
Local Open Scope list_scope.

Lemma run_agent_unconfigured E user_query :
  configured (AgentService.config E) = false ->
  run_agent E user_query = ([not_configured_event], Failed).
Proof.
  unfold configured, run_agent, run_agent_full.
  destruct (AgentService.config E) as [c|]; [|reflexivity].
  intros Hc. apply negb_false_iff in Hc. now rewrite Hc.
Qed.

(** C4 (as the code has it): with no completion provider configured,
    [run_agent] yields one error event with the user-facing message and
    ends, with no answer; [llm_search] does not fail: it returns the
    user-facing message in [llm_error], the query itself as the only
    keyword, and the results of recalling that keyword and reranking them
    heuristically. *)
Theorem unconfigured_agent_fails_search_degrades E B user_query req :
  configured (AgentService.config E) = false ->
  configured (Routes.config B) = false ->
  run_agent E user_query =
    ([mkAgentEvent ERROR
        [("message",
          JStr "LLM 未配置，请在设置中填写 API 信息后再使用 Agent 功能")]],
     Failed) /\
  resp_llm_error (llm_search B req) = Some NOT_CONFIGURED /\
  resp_keywords (llm_search B req) = [req_query req] /\
  resp_results (llm_search B req) =
    map to_search_result
      (map normalise
         (rerank_by_heuristics (unicode B) (req_query req)
            (merged_candidates B [req_query req] (req_top_k req))
            (req_top_k req))).
Proof.
  intros HE HB. split; [now apply run_agent_unconfigured|].
  rewrite (llm_search_unconfigured B req HB). simpl. auto.
Qed.

Lemma unconfigured_agent_fails_search_degrades_witness :
  run_agent unconfigured_env "find my redis tabs" =
    ([mkAgentEvent ERROR
        [("message",
          JStr "LLM 未配置，请在设置中填写 API 信息后再使用 Agent 功能")]],
     Failed) /\
  resp_llm_error (llm_search unconfigured_backend sample_request)
    = Some NOT_CONFIGURED /\
  resp_keywords (llm_search unconfigured_backend sample_request)
    = [req_query sample_request] /\
  resp_results (llm_search unconfigured_backend sample_request) =
    map to_search_result
      (map normalise
         (rerank_by_heuristics (unicode unconfigured_backend)
            (req_query sample_request)
            (merged_candidates unconfigured_backend
               [req_query sample_request] (req_top_k sample_request))
            (req_top_k sample_request))).
Proof.
  apply (unconfigured_agent_fails_search_degrades unconfigured_env
           unconfigured_backend "find my redis tabs" sample_request);
    reflexivity.
Defined.

(** C4 as stated fails for [llm_search]: with no provider configured and one
    page in the index, the request returns that page as a result. *)
Lemma llm_search_unconfigured_returns_results :
  configured (Routes.config unconfigured_backend) = false /\
  map sr_url (resp_results (llm_search unconfigured_backend sample_request))
    = ["https://example.org/redis"] /\
  resp_results (llm_search unconfigured_backend sample_request) <> [].
Proof.
  split; [reflexivity|]. split; [vm_compute; reflexivity|].
  intros H. apply (f_equal (@List.length _)) in H. vm_compute in H.
  discriminate H.
Qed.

End UnconfiguredRequests.

(** ** Tool calls and restore actions *)

Section AgentRuns.

Import AgentTools AgentService AgentSpec.

Local Open Scope string_scope.
Local Open Scope list_scope.

(** C5 fails on the code: when the arguments of a tool call are not valid
    JSON they become the empty dictionary, and for [search_tabs], [read_tab]
    and [batch_restore] the dispatcher then raises [KeyError] on the
    required key; the exception leaves the generator after the [tool_call]
    event. *)
Theorem malformed_arguments_abort E c user_query content tool_call rest key :
  AgentService.config E = Some c ->
  api_key c <> "" ->
  call_llm E c [SystemMessage AGENT_SYSTEM_PROMPT; UserMessage user_query]
    = Reply (mkMessage content (tool_call :: rest)) ->
  json_loads E (tc_arguments tool_call) = None ->
  In (tc_name tool_call, key)
    [("search_tabs", "query"); ("read_tab", "url"); ("batch_restore", "urls")] ->
  run_agent E user_query =
    ([thinking_event 0;
      mkAgentEvent TOOL_CALL
        [("step", JInt 1);
         ("tool", JStr (tc_name tool_call));
         ("arguments", JObj [])]],
     Raised (KeyError key)).
Proof.
  intros Hconf Hkey Hreply Hloads Hname.
  unfold run_agent, run_agent_full. rewrite Hconf.
  destruct (String.eqb_spec (api_key c) ""); [contradiction|].
  unfold MAX_STEPS. cbn [react_loop messages restore_actions].
  rewrite Hreply. cbn [msg_tool_calls Chunker.nonempty run_tool_calls].
  rewrite Hloads.
  destruct Hname as [H|[H|[H|[]]]]; inversion H as [[Hn Hk]];
    reflexivity.
Qed.

Lemma malformed_arguments_abort_witness :
  run_agent (env_of malformed_search) "find my redis tabs" =
    ([thinking_event 0;
      mkAgentEvent TOOL_CALL
        [("step", JInt 1);
         ("tool", JStr "search_tabs");
         ("arguments", JObj [])]],
     Raised (KeyError "query")).
Proof.
  apply (malformed_arguments_abort (env_of malformed_search) sample_config
           "find my redis tabs" None
           (mkToolCall "call_1" "search_tabs" "{oops") [] "query").
  - reflexivity.
  - discriminate.
  - reflexivity.
  - reflexivity.
  - left. reflexivity.
Defined.

Lemma quiet_not_action e : quiet e -> has_type ACTION e = false.
Proof.
  unfold quiet, has_type. intros [H|[H|H]]; rewrite H; reflexivity.
Qed.

Lemma filter_quiet pre :
  Forall quiet pre -> filter (has_type ACTION) pre = [].
Proof.
  induction 1 as [|e pre He _ IH]; simpl; [reflexivity|].
  now rewrite (quiet_not_action e He).
Qed.

Lemma split_after_quiet pre tail pre' e post :
  Forall quiet pre -> ev_type e = ACTION ->
  pre ++ tail = pre' ++ e :: post ->
  exists mid, pre' = pre ++ mid /\ tail = mid ++ e :: post.
Proof.
  intros Hq He. revert pre'.
  induction Hq as [|x pre Hx _ IH]; intros pre' Heq; simpl in Heq.
  - exists pre'. now split.
  - destruct pre' as [|y pre']; simpl in Heq.
    + inversion Heq; subst. apply quiet_not_action in Hx.
      unfold has_type in Hx. rewrite He in Hx. discriminate.
    + inversion Heq; subst. destruct (IH pre' H1) as (mid & -> & ->).
      exists mid. now split.
Qed.

Lemma restore_calls_skip e events :
  is_restore_call e = false -> restore_calls (e :: events) = restore_calls events.
Proof.
  intros He. simpl. rewrite He. simpl. now destruct events.
Qed.

Lemma dispatch_batch_restore R arguments result :
  dispatch_tool R "batch_restore" arguments = Ok result ->
  exists fields urls,
    arguments = JObj fields /\ dict_get fields "urls" = Some urls /\
    (result = [("error", JStr "未指定要恢复的 URL")] \/
     exists count reason,
       result = [("action", JStr "batch_restore"); ("urls", urls);
                 ("count", JInt count); ("reason", reason)]).
Proof.
  unfold dispatch_tool. cbn [String.eqb Ascii.eqb Bool.eqb].
  destruct arguments as [| | | | |items|fields]; try discriminate.
  cbn [getitem get bind].
  destruct (dict_get fields "urls") as [urls|] eqn:Hurls; [|discriminate].
  intros H. exists fields, urls. split; [reflexivity|]. split; [exact Hurls|].
  cbn [bind] in H.
  assert (exists reason, execute_batch_restore urls reason = Ok result)
    as [reason Hexec]
    by (destruct (dict_get fields "reason"); cbn [bind] in H; eauto).
  clear H. rename Hexec into H.
  unfold execute_batch_restore in H.
  destruct (truthy_json urls); cbn [negb] in H.
  - destruct (py_len urls) as [count|e]; [|discriminate].
    cbn [bind] in H. inversion H. right. eauto.
  - inversion H. now left.
Qed.

Lemma restore_calls_pair call result events :
  is_restore_call result = false ->
  restore_calls (call :: result :: events)
  = (if is_restore_call call && is_action_result result
     then [call_urls call] else []) ++ restore_calls events.
Proof.
  intros Hresult. cbn [restore_calls]. rewrite Hresult. cbn [andb].
  f_equal. now destruct events.
Qed.

Lemma run_tool_calls_restores E step tool_calls :
  forall st events st',
    run_tool_calls E step tool_calls st = (events, Ok st') ->
    exists calls,
      (forall later,
          restore_calls (events ++ later) = calls ++ restore_calls later) /\
      action_urls (restore_actions st')
      = action_urls (restore_actions st) ++ calls.
Proof.
  induction tool_calls as [|tool_call rest IH]; intros st events st' Hrun.
  - simpl in Hrun. inversion Hrun; subst. exists []. split; [reflexivity|].
    now rewrite app_nil_r.
  - cbn [run_tool_calls] in Hrun.
    set (tool_args := match json_loads E (tc_arguments tool_call) with
                      | Some v => v
                      | None => JObj []
                      end) in *.
    destruct (dispatch_tool (retrieval E) (tc_name tool_call) tool_args)
      as [tool_result|e] eqn:Hdispatch; [|discriminate].
    destruct (_summarize_result tool_result) as [summary|e] eqn:Hsummary;
      [|discriminate].
    match type of Hrun with
    | context [run_tool_calls E step rest ?s] =>
        destruct (run_tool_calls E step rest s) as [evs final] eqn:Hrest
    end.
    inversion Hrun; subst events final. clear Hrun.
    apply IH in Hrest as (calls & Hcalls & Hurls).
    cbn [restore_actions] in Hurls.
    destruct (String.eqb_spec (tc_name tool_call) "batch_restore") as [Hname|Hname].
    + (* a call of batch_restore *)
      rewrite Hname in *.
      apply dispatch_batch_restore in Hdispatch
        as (fields & urls & Hargs & Hfield & [->|(count & reason & ->)]).
      * (* the call was refused *)
        cbn in Hsummary. inversion Hsummary; subst summary.
        cbn in Hurls.
        exists calls. split; [|exact Hurls].
        intros later. cbn [app].
        rewrite restore_calls_pair by reflexivity.
        replace (is_action_result _) with false by reflexivity.
        rewrite andb_false_r. apply Hcalls.
      * (* the call returned an action *)
        cbn in Hsummary. inversion Hsummary; subst summary.
        cbn in Hurls.
        exists (Some urls :: calls). split.
        -- intros later. cbn [app].
           rewrite restore_calls_pair by reflexivity.
           replace (is_restore_call _) with true by reflexivity.
           replace (is_action_result _) with true by reflexivity.
           cbn [andb app]. rewrite Hcalls. f_equal.
           unfold call_urls. cbn. now rewrite Hargs.
        -- rewrite Hurls. unfold action_urls. rewrite map_app.
           cbn. now rewrite <- app_assoc.
    + (* another tool *)
      apply String.eqb_neq in Hname. cbn [andb] in Hurls.
      exists calls. split; [|exact Hurls].
      intros later. cbn [app].
      rewrite restore_calls_pair by reflexivity.
      assert (Hcall : forall args,
                 is_restore_call
                   (mkAgentEvent TOOL_CALL
                      [("step", step_number step);
                       ("tool", JStr (tc_name tool_call));
                       ("arguments", args)]) = false).
      { intros args. unfold is_restore_call. cbn. now rewrite Hname. }
      rewrite Hcall. apply Hcalls.
Qed.

Lemma react_loop_restores E c remaining :
  forall step st events actions,
    react_loop E c remaining step st = (events, Answered, actions) ->
    action_urls actions
    = action_urls (restore_actions st) ++ restore_calls events.
Proof.
  induction remaining as [|remaining IH]; intros step st events actions Hrun;
    simpl in Hrun; [discriminate|].
  destruct (call_llm E c (messages st)) as [message|description];
    [|discriminate].
  destruct (Chunker.nonempty (msg_tool_calls message)).
  - match type of Hrun with
    | context [run_tool_calls E step ?tcs ?s] =>
        destruct (run_tool_calls E step tcs s) as [evs [st2|e]] eqn:Htools
    end; [|discriminate].
    destruct (react_loop E c remaining (S step) st2)
      as [[later outcome'] actions'] eqn:Hlater.
    inversion Hrun; subst. clear Hrun.
    apply IH in Hlater. apply run_tool_calls_restores in Htools
      as (calls & Hcalls & Hurls).
    cbn [restore_actions] in Hurls.
    rewrite restore_calls_skip by reflexivity.
    rewrite Hcalls, Hlater, Hurls. now rewrite app_assoc.
  - destruct (restore_actions st) as [|a rest] eqn:Hacts; simpl in Hrun.
    + inversion Hrun; subst. reflexivity.
    + destruct (action_event (a :: rest)) as [action|e] eqn:Haction;
        [|discriminate].
      inversion Hrun; subst. clear Hrun.
      unfold action_event in Haction.
      destruct (extend_all (a :: rest)) as [l|]; [|discriminate].
      cbn [bind] in Haction.
      destruct (fromkeys l []) as [l'|]; [|discriminate].
      inversion Haction; subst action. cbn. now rewrite app_nil_r.
Qed.

Lemma run_agent_full_restores E user_query events actions :
  run_agent_full E user_query = (events, Answered, actions) ->
  action_urls actions = restore_calls events.
Proof.
  unfold run_agent_full. intros Hrun.
  destruct (AgentService.config E) as [c|]; [|discriminate].
  destruct (String.eqb (api_key c) ""); [discriminate|].
  apply react_loop_restores in Hrun. exact Hrun.
Qed.

Lemma run_agent_as_full E user_query events outcome :
  run_agent E user_query = (events, outcome) ->
  exists actions, run_agent_full E user_query = (events, outcome, actions).
Proof.
  unfold run_agent. destruct (run_agent_full E user_query) as [[ev o] actions].
  simpl. intros H. inversion H; subst. now exists actions.
Qed.

(** C6: in a run that ends with a response without tool calls, if the
    successful [batch_restore] calls of the run were made with the URL lists
    [a, b] and then [b, c], the events of the run end with one action event
    with [urls = [a, b, c]] and [count = 3] followed by the answer event,
    and there is no other action event. *)
Theorem overlapping_restores_one_action E user_query events :
  run_agent E user_query = (events, Answered) ->
  restore_calls events =
    [Some (JArr [JStr "a"; JStr "b"]); Some (JArr [JStr "b"; JStr "c"])] ->
  filter (has_type ACTION) events =
    [mkAgentEvent ACTION
       [("action", JStr "batch_restore");
        ("urls", JArr [JStr "a"; JStr "b"; JStr "c"]);
        ("count", JInt 3)]] /\
  exists pre answer,
    events =
      pre ++
      [mkAgentEvent ACTION
         [("action", JStr "batch_restore");
          ("urls", JArr [JStr "a"; JStr "b"; JStr "c"]);
          ("count", JInt 3)];
       answer] /\
    ev_type answer = ANSWER /\
    dict_get (ev_data answer) "truncated" = None /\
    Forall quiet pre.
Proof.
  intros Hrun Hcalls.
  apply run_agent_as_full in Hrun as [actions Hrun].
  pose proof (run_agent_full_restores _ _ _ _ Hrun) as Hurls.
  rewrite Hcalls in Hurls. unfold action_urls in Hurls.
  apply run_agent_full_shape in Hrun as (pre & Hpre & answer & step & Htail).
  destruct actions as [|a1 [|a2 [|a3 rest]]]; try discriminate Hurls.
  simpl in Hurls. inversion Hurls as [[H1 H2]]. clear Hurls.
  destruct Htail as [[Hnil _]|[_ (action & Haction & Hevents)]];
    [discriminate|].
  unfold action_event, extend_all, dict_get_default in Haction.
  rewrite H1, H2 in Haction. vm_compute in Haction.
  inversion Haction; subst action events. clear Haction.
  split.
  - rewrite filter_app, (filter_quiet pre Hpre). reflexivity.
  - exists pre, (answer_event answer step). repeat split; auto.
Qed.

Lemma overlapping_restores_one_action_witness :
  filter (has_type ACTION)
    (fst (run_agent (env_of two_restores) "open them")) =
    [mkAgentEvent ACTION
       [("action", JStr "batch_restore");
        ("urls", JArr [JStr "a"; JStr "b"; JStr "c"]);
        ("count", JInt 3)]].
Proof.
  apply (overlapping_restores_one_action (env_of two_restores) "open them"
           (fst (run_agent (env_of two_restores) "open them"))).
  - vm_compute. reflexivity.
  - vm_compute. reflexivity.
Defined.

(** C9: a run that uses up [MAX_STEPS] ends with the truncated answer event
    and has no action event, whatever [batch_restore] actions it collected;
    in every run an action event is followed by exactly one more event, an
    answer event that is not truncated. *)
Theorem action_only_before_final_answer E user_query events outcome :
  run_agent E user_query = (events, outcome) ->
  (outcome = Truncated ->
     filter (has_type ACTION) events = [] /\
     exists pre, events = pre ++ [truncated_event] /\ Forall quiet pre) /\
  (forall pre e post,
     events = pre ++ e :: post -> ev_type e = ACTION ->
     outcome = Answered /\
     exists answer,
       post = [answer] /\ ev_type answer = ANSWER /\
       dict_get (ev_data answer) "truncated" = None).
Proof.
  intros Hrun. apply run_agent_as_full in Hrun as [actions Hrun].
  apply run_agent_full_shape in Hrun as (quiet_pre & Hquiet & Htail).
  split.
  - intros ->. subst events. split.
    + rewrite filter_app, (filter_quiet _ Hquiet). reflexivity.
    + exists quiet_pre. now split.
  - intros pre e post Hevents He.
    destruct outcome.
    + destruct Htail as (answer & step & [[_ Hev]|[_ (action & _ & Hev)]]);
        rewrite Hev in Hevents;
        destruct (split_after_quiet _ _ _ _ _ Hquiet He Hevents)
          as (mid & _ & Hmid);
        destruct mid as [|m [|m' mid]]; inversion Hmid; subst;
        try discriminate He; try (destruct mid; discriminate).
      split; [reflexivity|]. exists (answer_event answer step).
      repeat split.
    + rewrite Htail in Hevents.
      destruct (split_after_quiet _ _ _ _ _ Hquiet He Hevents)
        as (mid & _ & Hmid).
      destruct mid as [|m [|m' mid]]; inversion Hmid; subst;
        try discriminate He; try (destruct mid; discriminate).
    + destruct Htail as (err & Herr & Hev). rewrite Hev in Hevents.
      destruct (split_after_quiet _ _ _ _ _ Hquiet He Hevents)
        as (mid & _ & Hmid).
      destruct mid as [|m [|m' mid]]; inversion Hmid; subst;
        try (rewrite Herr in He; discriminate He);
        try (destruct mid; discriminate).
    + rewrite Htail in Hevents. rewrite <- (app_nil_r quiet_pre) in Hevents.
      destruct (split_after_quiet _ _ _ _ _ Hquiet He Hevents)
        as (mid & _ & Hmid).
      destruct mid; discriminate.
Qed.

Lemma action_only_before_final_answer_witness :
  (List.length
     (restore_calls (fst (run_agent (env_of always_restores) "open them")))
     = 15%nat /\
   filter (has_type ACTION)
     (fst (run_agent (env_of always_restores) "open them")) = []) /\
  (Answered = Answered /\
   exists answer,
     [answer_event (JStr "done") 2] = [answer] /\ ev_type answer = ANSWER /\
     dict_get (ev_data answer) "truncated" = None).
Proof.
  split.
  - split; [vm_compute; reflexivity|].
    apply (action_only_before_final_answer (env_of always_restores)
             "open them"
             (fst (run_agent (env_of always_restores) "open them"))
             Truncated).
    + vm_compute. reflexivity.
    + reflexivity.
  - apply (proj2 (action_only_before_final_answer (env_of two_restores)
                    "open them"
                    (fst (run_agent (env_of two_restores) "open them"))
                    Answered ltac:(vm_compute; reflexivity))
             (firstn 7 (fst (run_agent (env_of two_restores) "open them")))
             (mkAgentEvent ACTION
                [("action", JStr "batch_restore");
                 ("urls", JArr [JStr "a"; JStr "b"; JStr "c"]);
                 ("count", JInt 3)])
             [answer_event (JStr "done") 2]).
    + vm_compute. reflexivity.
    + reflexivity.
Defined.

End AgentRuns.

(** ** Chunker: small inputs, number and shape of the chunks *)

Section ChunkerMore.

Import ChunkerSpec.

(** X1: [split_text] returns no chunk for the empty text and only for it; a
    non-empty text of at most [CHUNK_SIZE] characters comes back whole, as
    the only chunk, whitespace included. *)
Theorem split_text_small_inputs :
  split_text [] = Some [] /\
  (forall text, 0 < len text <= CHUNK_SIZE -> split_text text = Some [text]) /\
  (forall text, split_text text = Some [] -> text = []).
Proof.
  split; [reflexivity|]. split.
  - intros text [Hpos Hle]. unfold split_text, _split_into_chunks.
    apply truthy_len in Hpos. rewrite Hpos.
    apply Z.leb_le in Hle. rewrite Hle. cbn [negb orb andb].
    now destruct (MIN_CHUNK_SIZE <=? len text).
  - intros text. unfold split_text, _split_into_chunks.
    destruct text as [|c text]; [reflexivity|]. cbn [truthy negb orb andb].
    destruct (len (c :: text) <=? CHUNK_SIZE).
    + destruct (MIN_CHUNK_SIZE <=? len (c :: text)); discriminate.
    + destruct (chunk_loop _ _ 0 []) as [[|x r]|]; discriminate.
Qed.

Lemma split_text_small_inputs_witness :
  split_text (lit "Redis locks") = Some [lit "Redis locks"] /\
  @nil char = [].
Proof.
  split.
  - apply (proj1 (proj2 split_text_small_inputs) (lit "Redis locks")).
    split; [reflexivity|vm_compute; discriminate].
  - apply (proj2 (proj2 split_text_small_inputs) []). reflexivity.
Defined.

Lemma removelast_length {A} (l : list A) :
  List.length (removelast l) = pred (List.length l).
Proof.
  rewrite removelast_firstn_len, length_firstn. lia.
Qed.

Lemma emit_length chunks chunk :
  (List.length (emit chunks chunk) <= S (List.length chunks))%nat.
Proof.
  unfold emit, merge_last.
  destruct (truthy chunk && (MIN_CHUNK_SIZE <=? len chunk)).
  - rewrite length_app. simpl. lia.
  - destruct (truthy chunk && nonempty chunks) eqn:E; [|lia].
    apply andb_prop in E as [_ E]. destruct chunks; [discriminate|].
    rewrite length_app, removelast_length. simpl. lia.
Qed.

Lemma emit_last_length chunks chunk :
  (List.length (emit_last chunks chunk) <= S (List.length chunks))%nat.
Proof.
  unfold emit_last, merge_last.
  destruct (truthy chunk && (MIN_CHUNK_SIZE <=? len chunk)).
  - rewrite length_app. simpl. lia.
  - destruct (truthy chunk && nonempty chunks) eqn:E.
    + apply andb_prop in E as [_ E]. destruct chunks; [discriminate|].
      rewrite length_app, removelast_length. simpl. lia.
    + destruct (truthy chunk); [|lia]. rewrite length_app. simpl. lia.
Qed.

Lemma chunk_loop_count text fuel :
  forall start chunks result,
    chunk_loop fuel text start chunks = Some result ->
    (List.length result
     <= List.length chunks + List.length (windows fuel text start))%nat.
Proof.
  induction fuel as [|fuel IH]; intros start chunks result Hrun;
    simpl in Hrun; [discriminate|].
  simpl. destruct (start <? len text).
  - destruct (start + CHUNK_SIZE >=? len text).
    + inversion Hrun; subst. pose proof (emit_last_length chunks
        (strip (slice_from text start))). simpl. lia.
    + apply IH in Hrun.
      pose proof (emit_length chunks (strip (slice text start
                                              (find_cut text start)))).
      simpl. lia.
  - inversion Hrun; subst. simpl. lia.
Qed.

Lemma windows_count text fuel :
  forall start,
    221 * Z.of_nat (List.length (windows fuel text start))
    <= Z.max 0 (len text - start + 220).
Proof.
  induction fuel as [|fuel IH]; intros start; cbn [windows];
    [cbn [List.length]; lia|].
  destruct (Z.ltb_spec start (len text)); [|cbn [List.length]; lia].
  destruct (start + CHUNK_SIZE >=? len text); [cbn [List.length]; lia|].
  specialize (IH (next_start (find_cut text start))).
  pose proof (next_start_advances text start).
  cbn [List.length]. rewrite Nat2Z.inj_succ. lia.
Qed.

(** X2: [split_text] returns at most one chunk per 221 characters of text,
    rounded up: every window moves the start forward by at least 221
    characters and adds at most one chunk. *)
Theorem split_text_chunk_count text chunks :
  split_text text = Some chunks ->
  221 * Z.of_nat (List.length chunks) <= len text + 220.
Proof.
  unfold split_text, _split_into_chunks. intros Hrun.
  pose proof (len_nonneg text) as Hlen.
  destruct (truthy text) eqn:Ht; cbn [negb orb andb] in Hrun.
  - apply truthy_len in Ht.
    destruct (len text <=? CHUNK_SIZE).
    + assert (chunks = [text]) as ->
        by (destruct (MIN_CHUNK_SIZE <=? len text); now inversion Hrun).
      simpl. lia.
    + destruct (chunk_loop _ text 0 []) as [r|] eqn:Hloop; [|discriminate].
      inversion Hrun; subst. clear Hrun.
      destruct r as [|c r]; [simpl; lia|]. cbn [nonempty].
      apply chunk_loop_count in Hloop.
      pose proof (windows_count text (S (length text)) 0).
      simpl List.length in *. lia.
  - inversion Hrun; subst. simpl. lia.
Qed.

Lemma split_text_chunk_count_witness :
  221 * Z.of_nat (List.length [repeat letter_a 400; repeat letter_a 200])
  <= len text_plain + 220.
Proof.
  apply (split_text_chunk_count text_plain). vm_compute. reflexivity.
Defined.

Lemma lstrip_head_ok s : head_ok (lstrip s).
Proof.
  induction s as [|c r IH]; simpl; [exact I|].
  destruct (isspace c) eqn:E; [assumption|]. simpl. exact E.
Qed.

Lemma lstrip_suffix s : exists p, s = p ++ lstrip s.
Proof.
  induction s as [|c r [p IH]]; simpl.
  - now exists [].
  - destruct (isspace c).
    + exists (c :: p). simpl. now f_equal.
    + now exists [].
Qed.

Lemma strip_trimmed s : trimmed (strip s).
Proof.
  unfold trimmed, strip, rstrip. split.
  - pose proof (lstrip_head_ok s) as Hhead.
    destruct (lstrip_suffix (rev (lstrip s))) as [p Hp].
    apply (f_equal (@rev char)) in Hp.
    rewrite rev_involutive, rev_app_distr in Hp.
    destruct (rev (lstrip (rev (lstrip s)))) as [|c r]; [exact I|].
    rewrite Hp in Hhead. exact Hhead.
  - rewrite rev_involutive. apply lstrip_head_ok.
Qed.

Lemma trimmed_merge a b :
  a <> [] -> b <> [] -> trimmed a -> trimmed b ->
  trimmed (a ++ [SPACE] ++ b).
Proof.
  intros Ha Hb [Ha1 _] [_ Hb2]. split.
  - destruct a; [congruence|exact Ha1].
  - rewrite !rev_app_distr. destruct (rev b) eqn:E.
    + apply (f_equal (@rev char)) in E. rewrite rev_involutive in E.
      simpl in E. congruence.
    + exact Hb2.
Qed.

Lemma clean_snoc chunks chunk :
  clean_chunks chunks -> truthy chunk = true -> trimmed chunk ->
  clean_chunks (chunks ++ [chunk]).
Proof.
  intros H Ht Htrim. apply Forall_app. split; [assumption|].
  constructor; [|constructor]. split; [|assumption].
  destruct chunk; [discriminate|congruence].
Qed.

Lemma clean_merge chunks chunk :
  clean_chunks chunks -> nonempty chunks = true ->
  truthy chunk = true -> trimmed chunk ->
  clean_chunks (merge_last chunks chunk).
Proof.
  intros H Hne Ht Htrim. unfold merge_last.
  assert (chunks <> []) as Hnil by (destruct chunks; [discriminate|congruence]).
  unfold clean_chunks in H. rewrite (app_removelast_last [] Hnil) in H.
  apply Forall_app in H as [Hinit Hlast].
  apply Forall_app. split; [assumption|].
  inversion Hlast as [|? ? [Hl1 Hl2] _]; subst.
  constructor; [|constructor]. split.
  - intros Heq. apply app_eq_nil in Heq as [_ Heq]. discriminate.
  - apply trimmed_merge; auto. destruct chunk; [discriminate|congruence].
Qed.

Lemma emit_clean chunks s :
  clean_chunks chunks -> clean_chunks (emit chunks (strip s)).
Proof.
  intros H. unfold emit. pose proof (strip_trimmed s) as Htrim.
  destruct (truthy (strip s)) eqn:Ht; cbn [andb]; [|assumption].
  destruct (MIN_CHUNK_SIZE <=? len (strip s)).
  - now apply clean_snoc.
  - destruct (nonempty chunks) eqn:Hne; [|assumption].
    now apply clean_merge.
Qed.

Lemma emit_last_clean chunks s :
  clean_chunks chunks -> clean_chunks (emit_last chunks (strip s)).
Proof.
  intros H. unfold emit_last. pose proof (strip_trimmed s) as Htrim.
  destruct (truthy (strip s)) eqn:Ht; cbn [andb]; [|assumption].
  destruct (MIN_CHUNK_SIZE <=? len (strip s)).
  - now apply clean_snoc.
  - destruct (nonempty chunks) eqn:Hne.
    + now apply clean_merge.
    + now apply clean_snoc.
Qed.

Lemma chunk_loop_clean text fuel :
  forall start chunks result,
    clean_chunks chunks ->
    chunk_loop fuel text start chunks = Some result ->
    clean_chunks result.
Proof.
  induction fuel as [|fuel IH]; intros start chunks result Hc Hrun;
    simpl in Hrun; [discriminate|].
  destruct (start <? len text).
  - destruct (start + CHUNK_SIZE >=? len text).
    + inversion Hrun; subst. now apply emit_last_clean.
    + eapply IH; [|exact Hrun]. now apply emit_clean.
  - now inversion Hrun; subst.
Qed.

(** X3: the chunks of a text longer than [CHUNK_SIZE] neither start nor end
    with a whitespace character, unless the whole text is returned as the
    only chunk. *)
Theorem split_text_chunks_trimmed text chunks :
  CHUNK_SIZE < len text ->
  split_text text = Some chunks ->
  chunks = [text] \/ Forall (fun c => c <> [] /\ trimmed c) chunks.
Proof.
  unfold split_text, _split_into_chunks. intros Hlong Hrun.
  destruct (Z.leb_spec (len text) CHUNK_SIZE); [lia|].
  rewrite orb_false_r in Hrun.
  destruct (truthy text); cbn [negb] in Hrun.
  - destruct (chunk_loop _ text 0 []) as [r|] eqn:Hloop; [|discriminate].
    inversion Hrun; subst. clear Hrun.
    destruct r as [|c r]; [now left|]. right. cbn [nonempty].
    eapply chunk_loop_clean; [|exact Hloop]. constructor.
  - inversion Hrun; subst. right. constructor.
Qed.

Lemma split_text_chunks_trimmed_witness :
  [repeat letter_a 400; repeat letter_a 150] = [text_trailing_space] \/
  Forall (fun c => c <> [] /\ trimmed c)
    [repeat letter_a 400; repeat letter_a 150].
Proof.
  apply (split_text_chunks_trimmed text_trailing_space).
  - reflexivity.
  - vm_compute. reflexivity.
Defined.

Lemma windows_chained text fuel :
  forall start, 0 <= start -> chained (windows fuel text start).
Proof.
  induction fuel as [|fuel IH]; intros start Hs; simpl; [exact I|].
  destruct (Z.ltb_spec start (len text)); [|exact I].
  destruct (Z.geb_spec (start + CHUNK_SIZE) (len text)) as [Hend|Hend].
  - simpl. unfold CHUNK_SIZE in *. lia.
  - pose proof (find_cut_lower text start) as Hlo.
    pose proof (find_cut_upper text start Hs) as Hup.
    pose proof (next_start_eq (find_cut text start)) as Hnext.
    assert (0 <= next_start (find_cut text start)) as Hs'
      by (unfold CHUNK_OVERLAP in Hnext; lia).
    specialize (IH _ Hs').
    cbn [chained]. split; [|exact IH].
    destruct fuel as [|fuel']; simpl.
    + unfold CHUNK_SIZE in *. lia.
    + destruct (Z.ltb_spec (next_start (find_cut text start)) (len text)).
      * destruct (_ >=? _); unfold CHUNK_SIZE in *; lia.
      * unfold CHUNK_SIZE, CHUNK_OVERLAP in *. lia.
Qed.

(** X4: the windows [split_text] cuts from a text overlap by exactly
    [CHUNK_OVERLAP] characters: every window but the last is 321 to 400
    characters wide, and the next window starts 100 characters before its
    end. *)
Theorem split_text_windows_chained text :
  chained (windows (S (length text)) text 0).
Proof.
  apply windows_chained. lia.
Qed.

End ChunkerMore.

(** ** Index adapter: where the fields of a result come from *)

Section SearchFields.

Import VectorStore VectorStoreSpec PipelineSpec.

Lemma collapse_from_chunks include_text docs all :
  forall cands n d,
    (forall j c, nth_error cands j = Some c -> nth_error all (n + j) = Some c) ->
    from_chunks all include_text docs n d ->
    from_chunks all include_text docs (n + List.length cands)
      (collapse cands include_text docs n d).
Proof.
  induction cands as [|[meta dist] rest IH]; intros n d Hall Hd; simpl.
  - now rewrite Nat.add_0_r.
  - replace (n + S (List.length rest))%nat with (S n + List.length rest)%nat
      by lia.
    apply IH.
    + intros j c Hj. replace (S n + j)%nat with (n + S j)%nat by lia.
      now apply Hall.
    + assert (Hold : from_chunks all include_text docs (S n) d).
      { intros k item Hin. destruct (Hd k item Hin) as (i & m & ds & Hi & Hn & He).
        exists i, m, ds. split; [lia|now split]. }
      match goal with
      | |- from_chunks _ _ _ _ (if ?b then _ else _) => destruct b
      end; [|exact Hold].
      intros k item Hin. apply dict_set_in in Hin as [[_ ->]|Hin].
      * exists n, meta, dist. split; [lia|]. split; [|reflexivity].
        specialize (Hall 0%nat (meta, dist) eq_refl).
        now rewrite Nat.add_0_r in Hall.
      * exact (Hold k item Hin).
Qed.

(** X5: every result of [search] is built from one fetched chunk: its URL,
    title, tab id, favicon and score come from the metadata and the distance
    of that chunk, and its text, asked for with [include_text], is the
    document at the same index; without [include_text] no result carries a
    text, and in no case a rerank or final score. *)
Theorem search_result_from_one_chunk col query_embedding top_k include_text :
  forall item,
    In item (search col query_embedding top_k include_text) ->
    exists i meta dist,
      nth_error
        (combine (metadatas (fetch col query_embedding top_k include_text))
           (distances (fetch col query_embedding top_k include_text))) i
      = Some (meta, dist) /\
      item =
        item_of include_text
          (if include_text
           then documents (fetch col query_embedding top_k include_text)
           else [])
          i meta dist /\
      (include_text = false -> text item = None) /\
      rerank_score item = None /\ final_score item = None.
Proof.
  intros item Hin. unfold search in Hin.
  destruct (count col =? 0)%nat; [contradiction|].
  set (fetched := fetch col query_embedding top_k include_text) in *.
  set (cands := combine (metadatas fetched) (distances fetched)) in *.
  set (docs := if include_text then documents fetched else []) in *.
  apply In_firstn in Hin.
  apply (Permutation_in _ (sorted_desc_perm _ _)) in Hin.
  unfold values in Hin. apply in_map_iff in Hin as ([k it] & Heq & Hin).
  simpl in Heq. subst it.
  assert (Hinv : from_chunks cands include_text docs
                   (0 + List.length cands)
                   (collapse cands include_text docs 0 [])).
  { apply collapse_from_chunks.
    - intros j c Hj. exact Hj.
    - intros k' item' []. }
  destruct (Hinv k item Hin) as (i & meta & dist & _ & Hnth & ->).
  exists i, meta, dist. split; [assumption|]. split; [reflexivity|].
  split; [|split; reflexivity].
  intros ->. reflexivity.
Qed.

Lemma search_result_from_one_chunk_witness :
  exists i meta dist,
    nth_error
      (combine
         (metadatas (fetch RoutesSpec.one_page [] 5 true))
         (distances (fetch RoutesSpec.one_page [] 5 true))) i
    = Some (meta, dist) /\
    RoutesSpec.redis_item =
      item_of true
        (if true then documents (fetch RoutesSpec.one_page [] 5 true) else [])
        i meta dist /\
    (true = false -> text RoutesSpec.redis_item = None) /\
    rerank_score RoutesSpec.redis_item = None /\
    final_score RoutesSpec.redis_item = None.
Proof.
  apply (search_result_from_one_chunk RoutesSpec.one_page [] 5 true).
  vm_compute. left. reflexivity.
Defined.

End SearchFields.

(** ** Reranker: what every mode keeps *)

Section RerankModes.

Import VectorStore VectorStoreSpec Reranker RerankerSpec PipelineSpec.

Lemma same_page_refl d : same_page d d.
Proof. repeat split. Qed.

Lemma apply_llm_scores_pages scores documents :
  forall i,
    map url (apply_llm_scores scores i documents) = map url documents /\
    forall r, In r (apply_llm_scores scores i documents) ->
              exists d, In d documents /\ same_page r d.
Proof.
  induction documents as [|doc rest IH]; intros i; simpl.
  - split; [reflexivity|]. intros r [].
  - destruct (IH (S i)) as [IHu IHp]. split; [now rewrite IHu|].
    intros r [<-|Hin].
    + exists doc. split; [now left|]. repeat split.
    + destruct (IHp r Hin) as (d & Hd & Hs). exists d. split; [now right|assumption].
Qed.

Lemma rescored_pages U terms documents :
  map url (map (rescore U terms) documents) = map url documents /\
  forall r, In r (map (rescore U terms) documents) ->
            exists d, In d documents /\ same_page r d.
Proof.
  split.
  - rewrite map_map. reflexivity.
  - intros r Hin. apply in_map_iff in Hin as (d & <- & Hd).
    exists d. split; [assumption|]. repeat split.
Qed.

Lemma ranked_pages (key : Doc -> Q) scored documents top_k :
  map url scored = map url documents ->
  (forall r, In r scored -> exists d, In d documents /\ same_page r d) ->
  (forall r, In r (firstn top_k (sorted_desc key scored)) ->
             exists d, In d documents /\ same_page r d) /\
  (NoDup (map url documents) ->
   NoDup (map url (firstn top_k (sorted_desc key scored)))).
Proof.
  intros Hurls Hpages. split.
  - intros r Hin. apply In_firstn in Hin.
    apply (Permutation_in _ (sorted_desc_perm _ _)) in Hin. now apply Hpages.
  - intros Hnd. rewrite map_firstn. apply NoDup_firstn.
    apply Permutation_NoDup with (l := map url scored).
    + apply Permutation_map. symmetry. apply sorted_desc_perm.
    + now rewrite Hurls.
Qed.

Lemma firstn_pages (documents : list Doc) top_k :
  (forall r, In r (firstn top_k documents) ->
             exists d, In d documents /\ same_page r d) /\
  (NoDup (map url documents) -> NoDup (map url (firstn top_k documents))).
Proof.
  split.
  - intros r Hin. exists r. split; [now apply In_firstn in Hin|].
    apply same_page_refl.
  - intros Hnd. rewrite map_firstn. now apply NoDup_firstn.
Qed.

Lemma rerank_pages_facts U config provider query documents top_k use_llm :
  (List.length (rerank U config provider query documents top_k use_llm)
   <= top_k)%nat /\
  (forall r,
      In r (rerank U config provider query documents top_k use_llm) ->
      exists d, In d documents /\ same_page r d) /\
  (NoDup (map url documents) ->
   NoDup (map url (rerank U config provider query documents top_k use_llm))).
Proof.
  unfold rerank, rerank_with_llm.
  destruct documents as [|doc rest].
  - simpl. split; [lia|]. split; [intros r []|]. intros _. constructor.
  - cbn [Chunker.nonempty negb]. set (documents := doc :: rest).
    assert (Hcases :
      forall out,
        out = firstn top_k documents \/
        (exists key scored,
            out = firstn top_k (sorted_desc key scored) /\
            map url scored = map url documents /\
            forall r, In r scored -> exists d, In d documents /\ same_page r d) ->
        (List.length out <= top_k)%nat /\
        (forall r, In r out -> exists d, In d documents /\ same_page r d) /\
        (NoDup (map url documents) -> NoDup (map url out))).
    { intros out [->|(key & scored & -> & Hu & Hp)].
      - split; [apply firstn_le_length|]. apply firstn_pages.
      - split; [apply firstn_le_length|]. now apply ranked_pages. }
    apply Hcases.
    destruct (use_llm && configured config) eqn:Hmode.
    + apply andb_prop in Hmode as [_ Hconf]. rewrite Hconf. cbn [negb].
      destruct (provider query documents) as [scores|]; [|now left].
      right. exists final_key, (apply_llm_scores scores 0 documents).
      split; [reflexivity|]. apply apply_llm_scores_pages.
    + right. exists final_key.
      exists (map (rescore U (query_terms_of U query)) documents).
      split; [reflexivity|]. apply rescored_pages.
Qed.

(** X6: in every mode, with the provider answering or failing, [rerank]
    returns at most [top_k] documents; each of them is one of the candidates
    with its URL, title, tab id, favicon, similarity and text unchanged, and
    no URL comes twice if none did among the candidates. *)
Theorem rerank_keeps_pages U config provider query documents top_k use_llm :
  (List.length (rerank U config provider query documents top_k use_llm)
   <= top_k)%nat /\
  (forall r,
      In r (rerank U config provider query documents top_k use_llm) ->
      exists d, In d documents /\ same_page r d) /\
  (NoDup (map url documents) ->
   NoDup (map url (rerank U config provider query documents top_k use_llm))).
Proof.
  apply rerank_pages_facts.
Qed.

Lemma rerank_keeps_pages_witness :
  NoDup (map url
           (rerank ascii_tables None (fun _ _ => None) (lit "Redis locks")
              [toc_doc; prose_doc] 5 true)).
Proof.
  apply (rerank_keeps_pages ascii_tables None (fun _ _ => None)
           (lit "Redis locks") [toc_doc; prose_doc] 5 true).
  repeat constructor; simpl; intuition discriminate.
Defined.

End RerankModes.

(** ** Heuristic reranker: how far a score can move *)

Section HeuristicBounds.

Import VectorStore VectorStoreSpec Reranker RerankerSpec PipelineSpec.

Lemma penalty_of_range U text :
  ((42 # 100) <= penalty_of U text /\ penalty_of U text <= 1)%Q.
Proof.
  rewrite penalty_of_spec. unfold spec_penalty.
  destruct (short_lines _); destruct (mostly_list U _);
    split; unfold Qle; simpl; lia.
Qed.

Lemma count_if_range {A} (f : A -> bool) l :
  0 <= count_if f l <= Z.of_nat (List.length l).
Proof.
  unfold count_if. pose proof (filter_length_le f l). lia.
Qed.

Lemma bonus_of_range U terms text :
  (1 <= bonus_of U terms text /\
   bonus_of U terms text
   <= 1 + (5 # 100) * inject_Z (Z.of_nat (List.length terms)))%Q.
Proof.
  unfold bonus_of.
  destruct (count_if_range (contains (lower U text)) terms) as [Hlo Hhi].
  rewrite Zle_Qle in Hlo, Hhi. change (inject_Z 0) with 0%Q in Hlo.
  split; lra.
Qed.

(** X7: the heuristic reranker moves a non-negative similarity only within
    bounds: the final score is at least 0.42 times the similarity (both
    penalties together) and at most the similarity times
    [1 + 0.05 * (number of distinct query terms)]. *)
Theorem heuristic_final_score_bounds U query doc :
  (0 <= score doc)%Q ->
  ((42 # 100) * score doc
   <= final_key (rescore U (query_terms_of U query) doc) /\
   final_key (rescore U (query_terms_of U query) doc)
   <= score doc *
      (1 + (5 # 100)
           * inject_Z (Z.of_nat (List.length (query_terms_of U query)))))%Q.
Proof.
  intros Hs. unfold rescore, final_key. cbn [final_score set_final_score].
  set (s := score doc) in *.
  destruct (penalty_of_range U (text_of doc)) as [Hp1 Hp2].
  destruct (bonus_of_range U (query_terms_of U query) (text_of doc))
    as [Hb1 Hb2].
  set (p := penalty_of U (text_of doc)) in *.
  set (b := bonus_of U (query_terms_of U query) (text_of doc)) in *.
  set (B := (1 + (5 # 100)
                 * inject_Z (Z.of_nat (List.length (query_terms_of U query))))%Q)
    in *.
  split.
  - assert (0 <= s * (p - (42 # 100)))%Q
      by (apply Qmult_le_0_compat; lra).
    assert (0 <= (s * p) * (b - 1))%Q
      by (apply Qmult_le_0_compat; [apply Qmult_le_0_compat; lra|lra]).
    lra.
  - assert (0 <= s * (1 - p))%Q by (apply Qmult_le_0_compat; lra).
    assert (0 <= (s * p) * (B - b))%Q
      by (apply Qmult_le_0_compat; [apply Qmult_le_0_compat; lra|lra]).
    assert (0 <= (s * (1 - p)) * B)%Q
      by (apply Qmult_le_0_compat; [assumption|lra]).
    lra.
Qed.

Lemma heuristic_final_score_bounds_witness :
  ((42 # 100) * score toc_doc
   <= final_key (rescore ascii_tables
                   (query_terms_of ascii_tables (lit "Redis locks")) toc_doc) /\
   final_key (rescore ascii_tables
                (query_terms_of ascii_tables (lit "Redis locks")) toc_doc)
   <= score toc_doc *
      (1 + (5 # 100)
           * inject_Z (Z.of_nat (List.length
                                   (query_terms_of ascii_tables
                                      (lit "Redis locks"))))))%Q.
Proof.
  apply (heuristic_final_score_bounds ascii_tables (lit "Redis locks") toc_doc).
  vm_compute. discriminate.
Defined.

End HeuristicBounds.

(** ** The merge of the keywords' results *)

Section Merge.

Import VectorStore VectorStoreSpec Reranker RerankerSpec LLMService Routes
  PipelineSpec MergeSpec.

Lemma best_in_more done r item :
  best_in done item ->
  (url r = url item -> (score r <= score item)%Q) ->
  best_in (done ++ [r]) item.
Proof.
  intros [Hin Hmax] Hr. split; [apply in_or_app; now left|].
  intros r' Hin' Hu. apply in_app_or in Hin' as [Hin'|[<-|[]]]; auto.
Qed.

Lemma merge_step done d r :
  merged done d ->
  merged (done ++ [r])
    (if match dict_get d (url r) with
        | None => true
        | Some old => Qltb (score old) (score r)
        end
     then dict_set d (url r) r else d).
Proof.
  intros (Hnd & Hitems & Hkeys).
  assert (Hself : (forall r', In r' done -> url r' = url r ->
                              (score r' <= score r)%Q) ->
                  best_in (done ++ [r]) r).
  { intros Hmax. split; [apply in_or_app; right; now left|].
    intros r' Hin Hu. apply in_app_or in Hin as [Hin|[<-|[]]].
    - now apply Hmax.
    - apply Qle_refl. }
  destruct (dict_get d (url r)) as [old|] eqn:Hget.
  - pose proof (dict_get_some _ _ _ Hget) as Hold.
    destruct (Hitems _ _ Hold) as [Hold_url Hold_best].
    assert (Hcover : forall r', In r' (done ++ [r]) -> In (url r') (map fst d)).
    { intros r' Hin. apply in_app_or in Hin as [Hin|[<-|[]]].
      - now apply Hkeys.
      - eapply in_keys; eassumption. }
    destruct (Qltb (score old) (score r)) eqn:Hcmp.
    + assert (Hk : map fst (dict_set d (url r) r) = map fst d)
        by (eapply dict_set_keys_old; eassumption).
      split; [now rewrite Hk|]. split; [|now rewrite Hk].
      intros k it Hin.
      destruct (String.eqb_spec k (url r)) as [->|Hne].
      * assert (it = r) as ->.
        { apply (proj2 (dict_set_in_self d (url r) r));
            [assumption|now rewrite Hk]. }
        split; [reflexivity|]. apply Hself.
        intros r' Hin' Hu. apply Qlt_le_weak.
        eapply Qle_lt_trans; [|apply Qltb_true; exact Hcmp].
        apply (proj2 Hold_best); [assumption|congruence].
      * apply dict_set_in in Hin as [[Heq _]|Hin]; [contradiction|].
        destruct (Hitems _ _ Hin) as [Hu Hb]. split; [assumption|].
        apply best_in_more; [assumption|]. intros Heq. congruence.
    + split; [assumption|]. split; [|assumption].
      intros k it Hin. destruct (Hitems _ _ Hin) as [Hu Hb].
      split; [assumption|]. apply best_in_more; [assumption|].
      intros Heq.
      assert (it = old) as ->.
      { eapply keys_functional; [exact Hnd|exact Hin|].
        rewrite <- Hu, <- Heq. exact Hold. }
      now apply Qltb_false.
  - pose proof (dict_get_none _ _ Hget) as Hfresh.
    assert (Hk : map fst (dict_set d (url r) r) = map fst d ++ [url r])
      by now apply dict_set_keys_new.
    split.
    { rewrite Hk. apply Permutation_NoDup with (l := url r :: map fst d).
      - apply Permutation_cons_append.
      - now constructor. }
    split.
    + intros k it Hin. apply dict_set_in in Hin as [[-> ->]|Hin].
      * split; [reflexivity|]. apply Hself.
        intros r' Hin' Hu. exfalso. apply Hfresh. rewrite <- Hu.
        now apply Hkeys.
      * destruct (Hitems _ _ Hin) as [Hu Hb]. split; [assumption|].
        apply best_in_more; [assumption|].
        intros Heq. exfalso. apply Hfresh. rewrite Heq, Hu.
        eapply in_keys; eassumption.
    + intros r' Hin. rewrite Hk. apply in_or_app.
      apply in_app_or in Hin as [Hin|[<-|[]]].
      * left. now apply Hkeys.
      * right. now left.
Qed.

Lemma merge_results_merged results :
  forall done d,
    merged done d -> merged (done ++ results) (merge_results results d).
Proof.
  induction results as [|r rest IH]; intros done d Hinv; simpl.
  - now rewrite app_nil_r.
  - change (r :: rest) with ([r] ++ rest). rewrite app_assoc.
    apply IH. now apply merge_step.
Qed.

Lemma recall_merged B recall_top_k keywords :
  forall done d,
    merged done d ->
    merged (done ++ all_results B keywords recall_top_k)
      (recall B keywords recall_top_k d).
Proof.
  induction keywords as [|keyword rest IH]; intros done d Hinv; simpl.
  - now rewrite app_nil_r.
  - rewrite app_assoc. apply IH. now apply merge_results_merged.
Qed.

Lemma merged_nil : merged [] [].
Proof. split; [constructor|]. split; [intros ? ? []|intros ? []]. Qed.

Lemma merged_urls rs d : merged rs d -> map url (values d) = map fst d.
Proof.
  intros (_ & Hitems & _). unfold values.
  induction d as [|[k item] rest IH]; simpl; [reflexivity|].
  f_equal.
  - apply (Hitems k item). now left.
  - apply IH. intros k' item' Hin. apply Hitems. now right.
Qed.

Lemma merged_candidates_facts B keywords top_k :
  NoDup (map url (merged_candidates B keywords top_k)) /\
  descending score (merged_candidates B keywords top_k) /\
  (forall doc, In doc (merged_candidates B keywords top_k) ->
     best_in (all_results B keywords (Nat.min (top_k * 3) 20)) doc) /\
  (forall r, In r (all_results B keywords (Nat.min (top_k * 3) 20)) ->
     In (url r) (map url (merged_candidates B keywords top_k))).
Proof.
  unfold merged_candidates.
  pose proof (recall_merged B (Nat.min (top_k * 3) 20) keywords [] []
                merged_nil) as Hinv.
  simpl app in Hinv.
  set (rs := all_results B keywords (Nat.min (top_k * 3) 20)) in *.
  set (d := recall B keywords (Nat.min (top_k * 3) 20) []) in *.
  pose proof (sorted_desc_perm score (values d)) as Hperm.
  pose proof (merged_urls rs d Hinv) as Hurls.
  assert (Hpu : Permutation (map url (sorted_desc score (values d)))
                  (map fst d))
    by (rewrite <- Hurls; now apply Permutation_map).
  split; [|split; [|split]].
  - apply Permutation_NoDup with (l := map fst d); [now symmetry|apply Hinv].
  - apply sorted_desc_sorted.
  - intros doc Hin. apply (Permutation_in _ Hperm) in Hin.
    unfold values in Hin. apply in_map_iff in Hin as ([k it] & Heq & Hin).
    simpl in Heq. subst it. destruct Hinv as (_ & Hitems & _).
    exact (proj2 (Hitems k doc Hin)).
  - intros r Hin. apply (Permutation_in _ (Permutation_sym Hpu)).
    destruct Hinv as (_ & _ & Hkeys). now apply Hkeys.
Qed.

(** X8: the candidates merged from the keywords' searches hold every page
    at most once; each candidate is a result of one of the searches, and no
    search returned that page with a higher score; every page some search
    returned is among the candidates, which are in descending order of
    score. *)
Theorem merged_candidates_best B keywords top_k :
  NoDup (map url (merged_candidates B keywords top_k)) /\
  descending score (merged_candidates B keywords top_k) /\
  (forall doc, In doc (merged_candidates B keywords top_k) ->
     best_in (all_results B keywords (Nat.min (top_k * 3) 20)) doc) /\
  (forall r, In r (all_results B keywords (Nat.min (top_k * 3) 20)) ->
     In (url r) (map url (merged_candidates B keywords top_k))).
Proof.
  apply merged_candidates_facts.
Qed.

Lemma merged_candidates_best_witness :
  best_in
    (all_results RoutesSpec.unconfigured_backend [lit "redis locks"]
       (Nat.min (5 * 3) 20))
    RoutesSpec.redis_item /\
  In (url RoutesSpec.redis_item)
    (map url (merged_candidates RoutesSpec.unconfigured_backend
                [lit "redis locks"] 5)).
Proof.
  split.
  - apply (proj1 (proj2 (proj2 (merged_candidates_best
                                  RoutesSpec.unconfigured_backend
                                  [lit "redis locks"] 5)))).
    vm_compute. left. reflexivity.
  - apply (proj2 (proj2 (proj2 (merged_candidates_best
                                  RoutesSpec.unconfigured_backend
                                  [lit "redis locks"] 5)))
             RoutesSpec.redis_item).
    vm_compute. left. reflexivity.
Defined.

(** X9: whatever the provider and the configuration, [llm_search] returns
    at most [top_k] results, no two of them with the same URL, and a list of
    keywords that is never empty. *)
Theorem llm_search_results_distinct B req :
  (List.length (resp_results (llm_search B req)) <= req_top_k req)%nat /\
  NoDup (map sr_url (resp_results (llm_search B req))) /\
  resp_keywords (llm_search B req) <> [].
Proof.
  unfold llm_search. cbn [resp_results resp_keywords].
  set (keywords := keywords_or_query _ _).
  set (merged := merged_candidates B keywords (req_top_k req)).
  destruct (rerank_pages_facts (unicode B) (Routes.config B)
              (score_provider B) (req_query req) merged (req_top_k req) true)
    as (Hlen & _ & Hnd).
  split; [|split].
  - now rewrite !length_map.
  - rewrite !map_map. cbn [sr_url to_search_result normalise url].
    apply Hnd. apply merged_candidates_facts.
  - subst keywords. unfold keywords_or_query.
    destruct (keywords (generate_keywords _ _ _)); discriminate.
Qed.

End Merge.

(** ** Agent loop: unknown tools, the number and order of the events *)

Section AgentMore.

Import AgentTools AgentService AgentSpec AgentMoreSpec.

Local Open Scope string_scope.
Local Open Scope list_scope.

(** X10: a tool call whose name is none of the four tools does not end the
    run: whatever its arguments, it yields a [tool_call] event and a
    [tool_result] event with status [error] and the message naming the tool,
    the error payload joins the conversation, no action is collected, and
    the loop goes on with the next tool call. *)
Theorem unknown_tool_is_reported E step tool_call rest st :
  ~ In (tc_name tool_call) TOOL_NAMES ->
  run_tool_calls E step (tool_call :: rest) st =
  (mkAgentEvent TOOL_CALL
     [("step", step_number step);
      ("tool", JStr (tc_name tool_call));
      ("arguments",
       match json_loads E (tc_arguments tool_call) with
       | Some v => v
       | None => JObj []
       end)]
   :: mkAgentEvent TOOL_RESULT
        [("step", step_number step);
         ("tool", JStr (tc_name tool_call));
         ("result",
          JObj [("status", JStr "error");
                ("message",
                 JStr ("未知工具: " ++ tc_name tool_call)%string)])]
   :: fst (run_tool_calls E step rest
             (mkState
                (messages st ++
                 [ToolMessage (tc_id tool_call)
                    [("error",
                      JStr ("未知工具: " ++ tc_name tool_call)%string)]])
                (restore_actions st))),
   snd (run_tool_calls E step rest
          (mkState
             (messages st ++
              [ToolMessage (tc_id tool_call)
                 [("error",
                   JStr ("未知工具: " ++ tc_name tool_call)%string)]])
             (restore_actions st)))).
Proof.
  intros Hname. unfold TOOL_NAMES in Hname. cbn [In] in Hname.
  cbn [run_tool_calls]. unfold dispatch_tool.
  destruct (String.eqb_spec (tc_name tool_call) "search_tabs");
    [exfalso; apply Hname; auto|].
  destruct (String.eqb_spec (tc_name tool_call) "read_tab");
    [exfalso; apply Hname; auto|].
  destruct (String.eqb_spec (tc_name tool_call) "list_tabs");
    [exfalso; apply Hname; auto|].
  destruct (String.eqb_spec (tc_name tool_call) "batch_restore");
    [exfalso; apply Hname; auto 6|].
  cbn [andb]. unfold _summarize_result. cbn.
  now destruct (run_tool_calls E step rest _).
Qed.

Lemma unknown_tool_is_reported_witness :
  run_agent (env_of unknown_tool_then_answer) "open it" =
  ([thinking_event 0;
    mkAgentEvent TOOL_CALL
      [("step", JInt 1); ("tool", JStr "open_tab"); ("arguments", JObj [])];
    mkAgentEvent TOOL_RESULT
      [("step", JInt 1); ("tool", JStr "open_tab");
       ("result",
        JObj [("status", JStr "error");
              ("message", JStr "未知工具: open_tab")])];
    thinking_event 1;
    answer_event (JStr "done") 1],
   Answered).
Proof.
  unfold run_agent, run_agent_full, env_of. cbn [AgentService.config].
  cbn [api_key sample_config String.eqb Ascii.eqb Bool.eqb].
  unfold MAX_STEPS. cbn [react_loop messages restore_actions call_llm].
  cbn [unknown_tool_then_answer List.length msg_tool_calls Chunker.nonempty].
  rewrite (unknown_tool_is_reported _ 0
             (mkToolCall "call_1" "open_tab" "{}") []).
  - vm_compute. reflexivity.
  - vm_compute. intuition discriminate.
Defined.

Lemma quiet_not_type t e :
  quiet e -> t = ANSWER \/ t = ERROR \/ t = ACTION -> has_type t e = false.
Proof.
  unfold quiet, has_type.
  intros [H|[H|H]] [->|[->| ->]]; rewrite H; reflexivity.
Qed.

Lemma count_type_quiet t pre :
  Forall quiet pre -> t = ANSWER \/ t = ERROR \/ t = ACTION ->
  count_type t pre = 0%nat.
Proof.
  intros Hq Ht. unfold count_type.
  induction Hq as [|e pre He _ IH]; simpl; [reflexivity|].
  now rewrite (quiet_not_type t e He Ht).
Qed.

Lemma count_type_app t l1 l2 :
  count_type t (l1 ++ l2) = (count_type t l1 + count_type t l2)%nat.
Proof.
  unfold count_type. now rewrite filter_app, length_app.
Qed.

Lemma action_event_type actions action :
  action_event actions = Ok action -> ev_type action = ACTION.
Proof.
  unfold action_event. destruct (extend_all actions) as [l|]; [|discriminate].
  cbn [bind]. destruct (fromkeys l []) as [l'|]; [|discriminate].
  cbn [bind]. intros H. now inversion H.
Qed.

(** X11: a run yields one answer event exactly when it ends answered or
    truncated, one error event exactly when it fails, never both and never
    more than one action event; the answer event or the error event is the
    last event of the run, and a run that an exception ends has none of the
    three. *)
Theorem run_agent_final_events E user_query events outcome :
  run_agent E user_query = (events, outcome) ->
  count_type ANSWER events =
    match outcome with Answered | Truncated => 1 | _ => 0 end%nat /\
  count_type ERROR events =
    match outcome with Failed => 1 | _ => 0 end%nat /\
  (count_type ACTION events <= 1)%nat /\
  match outcome with
  | Raised _ => count_type ACTION events = 0%nat
  | _ =>
      exists pre final,
        events = pre ++ [final] /\
        (ev_type final = ANSWER \/ ev_type final = ERROR) /\
        count_type ANSWER pre = 0%nat /\ count_type ERROR pre = 0%nat
  end.
Proof.
  intros Hrun. apply run_agent_as_full in Hrun as [actions Hrun].
  apply run_agent_full_shape in Hrun as (pre & Hq & Htail).
  pose proof (count_type_quiet ANSWER pre Hq (or_introl eq_refl)) as Hans.
  pose proof (count_type_quiet ERROR pre Hq
                (or_intror (or_introl eq_refl))) as Herr.
  pose proof (count_type_quiet ACTION pre Hq
                (or_intror (or_intror eq_refl))) as Hact.
  assert (Hone : forall t e, count_type t [e]
                             = (if String.eqb (ev_type e) t then 1 else 0)%nat).
  { intros t e. unfold count_type, has_type. cbn [filter].
    now destruct (String.eqb (ev_type e) t). }
  destruct outcome.
  - destruct Htail as (answer & step & [[_ ->]|[_ (action & Ha & ->)]]).
    + rewrite !count_type_app, Hans, Herr, Hact, !Hone.
      split; [reflexivity|]. split; [reflexivity|]. split; [cbn; lia|].
      exists pre, (answer_event answer step).
      split; [reflexivity|]. split; [now left|]. now split.
    + pose proof (action_event_type _ _ Ha) as Hty.
      change [action; answer_event answer step]
        with ([action] ++ [answer_event answer step]).
      rewrite !count_type_app, Hans, Herr, Hact, !Hone, Hty.
      split; [reflexivity|]. split; [reflexivity|]. split; [cbn; lia|].
      exists (pre ++ [action]), (answer_event answer step).
      rewrite <- app_assoc. split; [reflexivity|]. split; [now left|].
      rewrite !count_type_app, Hans, Herr, !Hone, Hty. now split.
  - rewrite Htail, !count_type_app, Hans, Herr, Hact, !Hone.
    split; [reflexivity|]. split; [reflexivity|]. split; [cbn; lia|].
    exists pre, truncated_event.
    split; [reflexivity|]. split; [now left|]. now split.
  - destruct Htail as (err & Hty & ->).
    rewrite !count_type_app, Hans, Herr, Hact, !Hone, Hty.
    split; [reflexivity|]. split; [reflexivity|]. split; [cbn; lia|].
    exists pre, err.
    split; [reflexivity|]. split; [now right|]. now split.
  - rewrite Htail, Hans, Herr, Hact.
    split; [reflexivity|]. split; [reflexivity|]. split; [lia|reflexivity].
Qed.

Lemma run_agent_final_events_witness :
  count_type ANSWER (fst (run_agent (env_of two_restores) "open them"))
    = 1%nat /\
  count_type ERROR (fst (run_agent (env_of two_restores) "open them"))
    = 0%nat.
Proof.
  pose proof (run_agent_final_events (env_of two_restores) "open them"
                (fst (run_agent (env_of two_restores) "open them")) Answered
                ltac:(vm_compute; reflexivity)) as (H1 & H2 & _).
  split; [exact H1|exact H2].
Defined.

(** X12: when the first response of the provider has no tool calls, the run
    is the thinking event of step 1 and the answer event with the content
    of the response (the empty string if it has none) and [steps_used = 1];
    when the first call of the provider fails, it is the thinking event and
    an error event with the text of the failure. *)
Theorem first_response_ends_run E c user_query :
  AgentService.config E = Some c ->
  api_key c <> "" ->
  (forall content,
      call_llm E c [SystemMessage AGENT_SYSTEM_PROMPT; UserMessage user_query]
      = Reply (mkMessage content []) ->
      run_agent E user_query =
      ([thinking_event 0;
        mkAgentEvent ANSWER
          [("content", match content with Some v => v | None => JStr "" end);
           ("steps_used", JInt 1)]],
       Answered)) /\
  (forall description,
      call_llm E c [SystemMessage AGENT_SYSTEM_PROMPT; UserMessage user_query]
      = Failure description ->
      run_agent E user_query =
      ([thinking_event 0;
        mkAgentEvent ERROR
          [("message", JStr ("LLM 调用失败: " ++ description)%string)]],
       Failed)).
Proof.
  intros Hconf Hkey.
  assert (Hstart : run_agent E user_query =
                   fst (react_loop E c MAX_STEPS 0
                          (mkState [SystemMessage AGENT_SYSTEM_PROMPT;
                                    UserMessage user_query] []))).
  { unfold run_agent, run_agent_full. rewrite Hconf.
    now destruct (String.eqb_spec (api_key c) ""). }
  rewrite Hstart. unfold MAX_STEPS. cbn [react_loop messages restore_actions].
  split.
  - intros content ->. reflexivity.
  - intros description ->. reflexivity.
Qed.

Lemma first_response_ends_run_witness :
  run_agent (env_of answers_at_once) "hello" =
  ([thinking_event 0;
    mkAgentEvent ANSWER
      [("content", JStr "nothing to do"); ("steps_used", JInt 1)]],
   Answered).
Proof.
  apply (proj1 (first_response_ends_run (env_of answers_at_once) sample_config
                  "hello" eq_refl ltac:(discriminate))
           (Some (JStr "nothing to do"))).
  reflexivity.
Defined.

End AgentMore.

(** ** Agent loop: steps, the action event and the summaries *)

Section AgentSteps.

Import AgentTools AgentService AgentSpec AgentMoreSpec.

Local Open Scope string_scope.
Local Open Scope list_scope.

Lemma run_tool_calls_tool_events E step tool_calls :
  forall st, Forall tool_event (fst (run_tool_calls E step tool_calls st)).
Proof.
  induction tool_calls as [|tool_call rest IH]; intros st; simpl.
  - constructor.
  - destruct (dispatch_tool _ _ _) as [tool_result|e]; simpl.
    + destruct (_summarize_result tool_result) as [summary|e]; simpl.
      * match goal with
        | |- context [run_tool_calls E step rest ?s] =>
            specialize (IH s); destruct (run_tool_calls E step rest s)
        end.
        simpl in *. constructor; [left; reflexivity|].
        constructor; [right; reflexivity|assumption].
      * constructor; [left; reflexivity|constructor].
    + constructor; [left; reflexivity|constructor].
Qed.

Lemma count_thinking_tool_events events :
  Forall tool_event events -> count_type THINKING events = 0%nat.
Proof.
  unfold count_type, has_type.
  induction 1 as [|e l [He|He] _ IH]; simpl; [reflexivity| |];
    rewrite He; exact IH.
Qed.

Lemma count_type_cons t e events :
  count_type t (e :: events)
  = ((if String.eqb (ev_type e) t then 1 else 0) + count_type t events)%nat.
Proof.
  unfold count_type, has_type. cbn [filter].
  now destruct (String.eqb (ev_type e) t).
Qed.

Lemma react_loop_steps E c remaining :
  forall step st events outcome actions,
    react_loop E c remaining step st = (events, outcome, actions) ->
    (count_type THINKING events <= remaining)%nat /\
    match outcome with
    | Answered =>
        (1 <= count_type THINKING events)%nat /\
        exists pre answer,
          events =
            pre ++
            [answer_event answer (step + count_type THINKING events - 1)]
    | Truncated => count_type THINKING events = remaining
    | _ => True
    end.
Proof.
  induction remaining as [|remaining IH];
    intros step st events outcome actions Hrun; simpl in Hrun.
  - inversion Hrun; subst. split; reflexivity.
  - destruct (call_llm E c (messages st)) as [message|description].
    + destruct (Chunker.nonempty (msg_tool_calls message)).
      * match type of Hrun with
        | context [run_tool_calls E step ?tcs ?s] =>
            pose proof (run_tool_calls_tool_events E step tcs s) as Htools;
            destruct (run_tool_calls E step tcs s) as [evs [st2|e]]
        end; simpl in Htools;
          apply count_thinking_tool_events in Htools.
        -- destruct (react_loop E c remaining (S step) st2)
             as [[later outcome'] actions'] eqn:Hlater.
           inversion Hrun; subst. clear Hrun.
           apply IH in Hlater as [Hle Hout].
           rewrite count_type_cons, count_type_app, Htools.
           remember (count_type THINKING later) as k eqn:Hk.
           cbn [thinking_event ev_type String.eqb Ascii.eqb Bool.eqb THINKING].
           cbn [Nat.add]. split; [lia|].
           destruct outcome; [|lia|exact I|exact I].
           destruct Hout as (Hpos & pre & answer & Heq).
           split; [lia|].
           exists (thinking_event step :: evs ++ pre), answer.
           rewrite Heq. cbn [app]. rewrite app_assoc.
           do 3 f_equal. f_equal. lia.
        -- inversion Hrun; subst. rewrite count_type_cons, Htools.
           cbn. split; [lia|exact I].
      * destruct (Chunker.nonempty (restore_actions st)).
        -- destruct (action_event (restore_actions st)) as [action|e] eqn:Ha;
             inversion Hrun; subst.
           ++ pose proof (action_event_type _ _ Ha) as Hty.
              rewrite !count_type_cons, Hty. cbn.
              split; [lia|]. split; [lia|].
              exists [thinking_event step; action]. eexists.
              cbn [app]. do 3 f_equal. f_equal. lia.
           ++ cbn. split; [lia|exact I].
        -- inversion Hrun; subst. cbn.
           split; [lia|]. split; [lia|].
           exists [thinking_event step]. eexists.
           cbn [app]. do 2 f_equal. f_equal. lia.
    + inversion Hrun; subst. cbn. split; [lia|exact I].
Qed.

(** X13: a run has at most [MAX_STEPS] thinking events; the answer event of
    a run that ends answered reports their number as [steps_used], and a
    truncated run has exactly [MAX_STEPS] of them. *)
Theorem run_agent_steps_used E user_query events outcome :
  run_agent E user_query = (events, outcome) ->
  (count_type THINKING events <= MAX_STEPS)%nat /\
  (outcome = Answered ->
     exists pre answer,
       events = pre ++ [answer] /\ ev_type answer = ANSWER /\
       dict_get (ev_data answer) "steps_used"
       = Some (JInt (Z.of_nat (count_type THINKING events)))) /\
  (outcome = Truncated -> count_type THINKING events = MAX_STEPS).
Proof.
  intros Hrun. apply run_agent_as_full in Hrun as [actions Hrun].
  unfold run_agent_full in Hrun.
  assert (Hunconf : (events, outcome, actions)
                    = ([not_configured_event], Failed, []) ->
    (count_type THINKING events <= MAX_STEPS)%nat /\
    (outcome = Answered ->
       exists pre answer,
         events = pre ++ [answer] /\ ev_type answer = ANSWER /\
         dict_get (ev_data answer) "steps_used"
         = Some (JInt (Z.of_nat (count_type THINKING events)))) /\
    (outcome = Truncated -> count_type THINKING events = MAX_STEPS)).
  { intros H. inversion H; subst. split; [cbn; lia|].
    split; discriminate. }
  destruct (AgentService.config E) as [c|]; [|now apply Hunconf].
  destruct (String.eqb (api_key c) ""); [now apply Hunconf|].
  apply react_loop_steps in Hrun as [Hle Hout].
  split; [exact Hle|]. split.
  - intros ->. destruct Hout as (Hpos & pre & answer & Hev).
    exists pre. eexists. split; [exact Hev|]. split; [reflexivity|].
    cbn [answer_event ev_data dict_get String.eqb Ascii.eqb Bool.eqb].
    unfold step_number. do 2 f_equal. lia.
  - intros ->. exact Hout.
Qed.

Lemma run_agent_steps_used_witness :
  (exists pre answer,
      fst (run_agent (env_of two_restores) "open them") = pre ++ [answer] /\
      ev_type answer = ANSWER /\
      dict_get (ev_data answer) "steps_used"
      = Some (JInt (Z.of_nat (count_type THINKING
                                (fst (run_agent (env_of two_restores)
                                        "open them")))))) /\
  count_type THINKING (fst (run_agent (env_of always_restores) "open them"))
  = MAX_STEPS.
Proof.
  split.
  - apply (proj1 (proj2 (run_agent_steps_used (env_of two_restores)
                           "open them"
                           (fst (run_agent (env_of two_restores) "open them"))
                           Answered ltac:(vm_compute; reflexivity)))).
    reflexivity.
  - apply (proj2 (proj2 (run_agent_steps_used (env_of always_restores)
                           "open them"
                           (fst (run_agent (env_of always_restores)
                                   "open them"))
                           Truncated ltac:(vm_compute; reflexivity)))).
    reflexivity.
Defined.

End AgentSteps.

(** ** The action event and the summaries of tool results *)

Section AgentPayloads.

Import AgentTools AgentService AgentSpec AgentMoreSpec.

Local Open Scope string_scope.
Local Open Scope list_scope.

Lemma existsb_rev {A} (f : A -> bool) l : existsb f (rev l) = existsb f l.
Proof.
  induction l as [|x l IH]; [reflexivity|].
  cbn [rev existsb]. rewrite existsb_app, IH. cbn [existsb].
  rewrite orb_false_r. apply orb_comm.
Qed.

Lemma key_eqb_refl x : hashable x = true -> key_eqb x x = true.
Proof.
  destruct x as [|b|z|q|s| |]; cbn; try discriminate; intros _.
  - reflexivity.
  - now destruct b.
  - apply Qeq_bool_iff. reflexivity.
  - apply Qeq_bool_iff. reflexivity.
  - apply String.eqb_refl.
Qed.

Lemma first_occurrences_snoc seen x :
  first_occurrences (rev seen) ->
  existsb (key_eqb x) seen = false ->
  first_occurrences (rev (x :: seen)).
Proof.
  intros Hseen Hnew pre y post Heq. cbn [rev] in Heq.
  destruct post as [|z post'] using rev_ind.
  - apply app_inj_tail in Heq as [<- <-]. now rewrite existsb_rev.
  - clear IHpost'.
    change (pre ++ y :: post' ++ [z]) with (pre ++ (y :: post') ++ [z]) in Heq.
    rewrite app_assoc in Heq. apply app_inj_tail in Heq as [Heq _].
    now apply (Hseen pre y post').
Qed.

Lemma fromkeys_facts l :
  forall seen out,
    fromkeys l seen = Ok out ->
    first_occurrences (rev seen) ->
    first_occurrences out /\
    (forall y, In y seen -> In y out) /\
    (forall x, In x l -> existsb (key_eqb x) out = true) /\
    (forall y, In y out -> In y seen \/ In y l).
Proof.
  induction l as [|x rest IH]; intros seen out Hrun Hseen; cbn in Hrun.
  - inversion Hrun; subst. split; [exact Hseen|].
    split; [intros y Hy; now apply in_rev in Hy|].
    split; [intros x []|]. intros y Hy. left. now apply in_rev.
  - destruct (hashable x) eqn:Hhash; [|discriminate].
    destruct (existsb (key_eqb x) seen) eqn:Hmet.
    + destruct (IH _ _ Hrun Hseen) as (Hfirst & Hkeep & Hcover & Hfrom).
      split; [exact Hfirst|]. split; [exact Hkeep|]. split.
      * intros x' [<-|Hin]; [|now apply Hcover].
        apply existsb_exists in Hmet as (y & Hy & Hxy).
        apply existsb_exists. exists y. split; [now apply Hkeep|exact Hxy].
      * intros y Hy. destruct (Hfrom y Hy) as [H|H]; [now left|].
        right. now right.
    + destruct (IH _ _ Hrun (first_occurrences_snoc _ _ Hseen Hmet))
        as (Hfirst & Hkeep & Hcover & Hfrom).
      split; [exact Hfirst|].
      split; [intros y Hy; apply Hkeep; now right|]. split.
      * intros x' [<-|Hin]; [|now apply Hcover].
        apply existsb_exists. exists x.
        split; [apply Hkeep; now left|now apply key_eqb_refl].
      * intros y Hy. destruct (Hfrom y Hy) as [[<-|H]|H].
        -- right. now left.
        -- now left.
        -- right. now right.
Qed.

Lemma extend_all_elements actions :
  forall all_urls,
    extend_all actions = Ok all_urls ->
    forall u,
      In u all_urls <->
      exists action urls,
        In action actions /\
        py_iter (dict_get_default action "urls" (JArr [])) = Ok urls /\
        In u urls.
Proof.
  induction actions as [|action rest IH]; intros all_urls Hrun u;
    cbn [extend_all] in Hrun.
  - inversion Hrun; subst. split; [intros []|].
    intros (a & us & [] & _).
  - destruct (py_iter (dict_get_default action "urls" (JArr [])))
      as [urls|] eqn:Hurls; [|discriminate].
    cbn [bind] in Hrun.
    destruct (extend_all rest) as [more|] eqn:Hmore; [|discriminate].
    cbn [bind] in Hrun. inversion Hrun; subst. clear Hrun.
    rewrite in_app_iff. split.
    + intros [Hin|Hin].
      * exists action, urls. split; [now left|]. split; assumption.
      * apply (IH more eq_refl) in Hin as (a & us & Ha & Hus & Hu).
        exists a, us. split; [now right|]. split; assumption.
    + intros (a & us & [<-|Ha] & Hus & Hu).
      * left. rewrite Hurls in Hus. inversion Hus; subst. exact Hu.
      * right. apply (IH more eq_refl). exists a, us. repeat split; assumption.
Qed.

(** X14: the action event lists every URL of every collected
    [batch_restore] action once: no URL of the list equals one before it,
    every requested URL is in the list, every listed URL was requested, and
    [count] is the length of the list. *)
Theorem action_event_urls actions action :
  action_event actions = Ok action ->
  exists all_urls,
    action = mkAgentEvent ACTION
               [("action", JStr "batch_restore");
                ("urls", JArr all_urls);
                ("count", JInt (Z.of_nat (List.length all_urls)))] /\
    first_occurrences all_urls /\
    (forall a urls u,
        In a actions ->
        py_iter (dict_get_default a "urls" (JArr [])) = Ok urls ->
        In u urls ->
        existsb (key_eqb u) all_urls = true) /\
    (forall u,
        In u all_urls ->
        exists a urls,
          In a actions /\
          py_iter (dict_get_default a "urls" (JArr [])) = Ok urls /\
          In u urls).
Proof.
  unfold action_event. intros Hrun.
  destruct (extend_all actions) as [requested|] eqn:Hall; [|discriminate].
  cbn [bind] in Hrun.
  destruct (fromkeys requested []) as [all_urls|] eqn:Hkeys; [|discriminate].
  cbn [bind] in Hrun. inversion Hrun; subst. clear Hrun.
  exists all_urls. split; [reflexivity|].
  assert (Hnil : first_occurrences (rev [])).
  { intros pre x post Heq. now destruct pre. }
  destruct (fromkeys_facts _ _ _ Hkeys Hnil) as (Hfirst & _ & Hcover & Hfrom).
  split; [exact Hfirst|]. split.
  - intros a urls u Ha Hurls Hu. apply Hcover.
    apply (extend_all_elements _ _ Hall). exists a, urls.
    repeat split; assumption.
  - intros u Hu. apply (extend_all_elements _ _ Hall).
    destruct (Hfrom u Hu) as [[]|H]. exact H.
Qed.

Lemma action_event_urls_witness :
  exists all_urls,
    mkAgentEvent ACTION
      [("action", JStr "batch_restore");
       ("urls", JArr [JStr "https://a.example"; JStr "https://b.example"]);
       ("count", JInt 2)]
    = mkAgentEvent ACTION
        [("action", JStr "batch_restore");
         ("urls", JArr all_urls);
         ("count", JInt (Z.of_nat (List.length all_urls)))] /\
    first_occurrences all_urls /\
    (forall a urls u,
        In a [[("urls", JArr [JStr "https://a.example";
                               JStr "https://b.example"])];
              [("urls", JArr [JStr "https://b.example";
                               JStr "https://a.example"])]] ->
        py_iter (dict_get_default a "urls" (JArr [])) = Ok urls ->
        In u urls ->
        existsb (key_eqb u) all_urls = true) /\
    (forall u,
        In u all_urls ->
        exists a urls,
          In a [[("urls", JArr [JStr "https://a.example";
                                 JStr "https://b.example"])];
                [("urls", JArr [JStr "https://b.example";
                                 JStr "https://a.example"])]] /\
          py_iter (dict_get_default a "urls" (JArr [])) = Ok urls /\
          In u urls).
Proof.
  apply (action_event_urls
           [[("urls", JArr [JStr "https://a.example";
                            JStr "https://b.example"])];
            [("urls", JArr [JStr "https://b.example";
                            JStr "https://a.example"])]]).
  reflexivity.
Defined.

Lemma mapM_length {A B} (f : A -> res B) l :
  forall ys, mapM f l = Ok ys -> List.length ys = List.length l.
Proof.
  induction l as [|x rest IH]; intros ys Hrun; cbn [mapM] in Hrun.
  - now inversion Hrun.
  - destruct (f x) as [y|]; [|discriminate]. cbn [bind] in Hrun.
    destruct (mapM f rest) as [ys'|]; [|discriminate]. cbn [bind] in Hrun.
    inversion Hrun; subst. cbn [List.length]. f_equal. now apply IH.
Qed.

Lemma titles_at_most_five results first rows titles :
  py_slice_to results 5 = Ok first ->
  py_iter first = Ok rows ->
  mapM (fun r => getitem r "title") rows = Ok titles ->
  (List.length titles <= 5)%nat.
Proof.
  intros Hslice Hiter Hmap.
  destruct results as [| | | |s|items|]; try discriminate;
    cbn [py_slice_to] in Hslice; injection Hslice as <-;
    cbn [py_iter] in Hiter; injection Hiter as <-.
  - destruct (utf8_chars _ _) as [|c cs]; cbn in Hmap.
    + injection Hmap as <-. cbn. lia.
    + discriminate.
  - apply mapM_length in Hmap. rewrite Hmap. exact (firstn_le_length 5 items).
Qed.

(** X15: a summary holds only keys of [SUMMARY_KEYS], so never the
    [results], [content], [tabs], [urls] or [reason] of a tool result; its
    [status] is one of three words, and its [titles], when present, are a
    list of at most five. *)
Theorem summary_is_small result summary :
  _summarize_result result = Ok summary ->
  Forall (fun kv => In (fst kv) SUMMARY_KEYS) summary /\
  (exists status,
      dict_get summary "status" = Some (JStr status) /\
      In status ["error"; "success"; "action"]) /\
  match dict_get summary "titles" with
  | Some (JArr titles) => (List.length titles <= 5)%nat
  | Some _ => False
  | None => True
  end.
Proof.
  unfold _summarize_result, SUMMARY_KEYS. intros Hrun.
  destruct (has_key result "error").
  { destruct (getitem (JObj result) "error"); [|discriminate].
    cbn [bind] in Hrun. inversion Hrun; subst.
    split; [repeat constructor; cbn; tauto|].
    split; [exists "error"; cbn; tauto|exact I]. }
  destruct (has_key result "found").
  { destruct (getitem (JObj result) "found"); [|discriminate].
    cbn [bind] in Hrun.
    destruct (truthy_json (dict_get_default result "results" JNull)).
    - destruct (getitem (JObj result) "results") as [results|];
        [|discriminate].
      cbn [bind] in Hrun.
      destruct (py_slice_to results 5) as [first|] eqn:Hslice;
        [|discriminate].
      cbn [bind] in Hrun.
      destruct (py_iter first) as [rows|] eqn:Hiter; [|discriminate].
      cbn [bind] in Hrun.
      destruct (mapM _ rows) as [titles|] eqn:Hmap; [|discriminate].
      cbn [bind] in Hrun. inversion Hrun; subst.
      split; [repeat constructor; cbn; tauto|].
      split; [exists "success"; cbn; tauto|].
      cbn. eapply titles_at_most_five; eassumption.
    - inversion Hrun; subst.
      split; [repeat constructor; cbn; tauto|].
      split; [exists "success"; cbn; tauto|exact I]. }
  destruct (has_key result "count" && has_key result "tabs").
  { destruct (getitem (JObj result) "count"); [|discriminate].
    cbn [bind] in Hrun. inversion Hrun; subst.
    split; [repeat constructor; cbn; tauto|].
    split; [exists "success"; cbn; tauto|exact I]. }
  destruct (has_key result "content").
  { destruct (py_len _); [|discriminate].
    cbn [bind] in Hrun. inversion Hrun; subst.
    split; [repeat constructor; cbn; tauto|].
    split; [exists "success"; cbn; tauto|exact I]. }
  destruct (has_key result "action").
  { destruct (getitem (JObj result) "action"); [|discriminate].
    cbn [bind] in Hrun. inversion Hrun; subst.
    split; [repeat constructor; cbn; tauto|].
    split; [exists "action"; cbn; tauto|exact I]. }
  inversion Hrun; subst.
  split; [repeat constructor; cbn; tauto|].
  split; [exists "success"; cbn; tauto|exact I].
Qed.

Lemma summary_is_small_witness :
  Forall (fun kv => In (fst kv) SUMMARY_KEYS)
    [("status", JStr "success"); ("found", JInt 1);
     ("titles", JArr [JStr "Guide"])] /\
  (exists status,
      dict_get [("status", JStr "success"); ("found", JInt 1);
                ("titles", JArr [JStr "Guide"])] "status"
      = Some (JStr status) /\
      In status ["error"; "success"; "action"]) /\
  match dict_get [("status", JStr "success"); ("found", JInt 1);
                  ("titles", JArr [JStr "Guide"])] "titles" with
  | Some (JArr titles) => (List.length titles <= 5)%nat
  | Some _ => False
  | None => True
  end.
Proof.
  apply (summary_is_small
           [("found", JInt 1);
            ("results",
             JArr [JObj [("title", JStr "Guide");
                         ("text", JStr "the whole text of the page")]])]).
  reflexivity.
Defined.

End AgentPayloads.

(** ** Index store *)

Section ChunkIds.

Import VectorStore IndexStore IndexStoreSpec.

Local Open Scope string_scope.
Local Open Scope list_scope.

Lemma string_length_append (s t : string) :
  String.length (s ++ t)%string = (String.length s + String.length t)%nat.
Proof. induction s as [|a s IH]; cbn; [reflexivity|now rewrite IH]. Qed.

Lemma string_append_inv (s s' t t' : string) :
  String.length s = String.length s' ->
  (s ++ t)%string = (s' ++ t')%string -> s = s' /\ t = t'.
Proof.
  revert s'. induction s as [|a s IH]; intros [|a' s'] Hlen Heq;
    try discriminate; cbn in *.
  - now split.
  - injection Heq as -> Heq. injection Hlen as Hlen.
    destruct (IH s' Hlen Heq) as [-> ->]. now split.
Qed.

Lemma substring_prefix_length n (s : string) :
  (n <= String.length s)%nat -> String.length (substring 0 n s) = n.
Proof.
  revert s. induction n as [|n IH]; intros [|a s] Hn; cbn in *;
    try reflexivity; try lia.
  f_equal. apply IH. lia.
Qed.

Lemma str_of_int_inj (i j : nat) :
  str_of_int (Z.of_nat i) = str_of_int (Z.of_nat j) -> i = j.
Proof.
  unfold str_of_int. intros Heq.
  assert (Hnonnil : forall z,
             Z.to_int z <> Decimal.Pos Decimal.Nil /\
             Z.to_int z <> Decimal.Neg Decimal.Nil).
  { intros [|p|p]; cbn; split; try discriminate; intros H;
      injection H as H; now apply DecimalPos.Unsigned.to_uint_nonnil in H. }
  apply (f_equal NilZero.int_of_string) in Heq.
  rewrite !NilZero.isi in Heq by apply Hnonnil.
  injection Heq as Heq. apply DecimalZ.to_int_inj in Heq. lia.
Qed.

Lemma chunk_id_inj h h' i j :
  String.length h = String.length h' ->
  _chunk_id h i = _chunk_id h' j -> h = h' /\ i = j.
Proof.
  unfold _chunk_id. intros Hlen Heq.
  apply string_append_inv in Heq as [-> Heq]; [|exact Hlen].
  apply string_append_inv in Heq as [_ Heq]; [|reflexivity].
  split; [reflexivity|now apply str_of_int_inj].
Qed.

Lemma chunk_id_longer h i :
  (String.length h < String.length (_chunk_id h i))%nat.
Proof.
  unfold _chunk_id. rewrite !string_length_append. cbn. lia.
Qed.

Lemma page_rows_ids url title tab_id favicon h total pairs :
  forall i,
    map row_id (page_rows url title tab_id favicon h total i pairs)
    = map (_chunk_id h) (seq i (List.length pairs)).
Proof.
  induction pairs as [|[chunk_text embedding] rest IH]; intros i; cbn;
    [reflexivity|]. now rewrite IH.
Qed.

Lemma page_rows_length url title tab_id favicon h total pairs :
  forall i,
    List.length (page_rows url title tab_id favicon h total i pairs)
    = List.length pairs.
Proof.
  induction pairs as [|[chunk_text embedding] rest IH]; intros i; cbn;
    [reflexivity|]. now rewrite IH.
Qed.

Lemma page_rows_contents url title tab_id favicon h total pairs :
  forall i,
    map row_document (page_rows url title tab_id favicon h total i pairs)
    = map fst pairs /\
    map row_embedding (page_rows url title tab_id favicon h total i pairs)
    = map snd pairs.
Proof.
  induction pairs as [|[chunk_text embedding] rest IH]; intros i; cbn;
    [now split|]. destruct (IH (S i)) as [-> ->]. now split.
Qed.

Lemma page_rows_meta url title tab_id favicon h total pairs :
  forall i r,
    In r (page_rows url title tab_id favicon h total i pairs) ->
    exists k,
      (i <= k < i + List.length pairs)%nat /\
      row_id r = _chunk_id h k /\
      row_meta r
      = mkChunkMeta url title tab_id (Some favicon) (Some (Z.of_nat k))
          (Some total) (Some h).
Proof.
  induction pairs as [|[chunk_text embedding] rest IH]; intros i r Hin;
    cbn in Hin; [contradiction|].
  destruct Hin as [<-|Hin].
  - exists i. cbn. split; [lia|now split].
  - apply IH in Hin as (k & Hk & Hid & Hmeta).
    exists k. cbn [List.length]. split; [lia|now split].
Qed.

Lemma chunk_ids_distinct h i n :
  NoDup (map (_chunk_id h) (seq i n)).
Proof.
  apply NoDup_map_NoDup_ForallPairs; [|apply seq_NoDup].
  intros a b _ _ Heq. now apply chunk_id_inj in Heq.
Qed.

Lemma combine_fst_same_length {A B} (l : list A) (l' : list B) :
  List.length l' = List.length l ->
  map fst (combine l l') = l /\ map snd (combine l l') = l'.
Proof.
  revert l'. induction l as [|x l IH]; intros [|y l'] Hlen;
    try discriminate; cbn; [now split|].
  injection Hlen as Hlen. destruct (IH l' Hlen) as [-> ->]. now split.
Qed.

(** X16: whatever the collection does, the records [add_page] builds for a
    page have pairwise different ids, there are as many of them as the
    shorter of [chunks] and [embeddings], and that number and the hash of
    the URL are what [add_page] returns; with one embedding for every chunk
    the documents are the chunks and every record gives the number of
    chunks as [total_chunks]. *)
Theorem add_page_batch sha256_hexdigest C (col : Store C) c url title text
    tab_id favicon embeddings chunks :
  let url_hash := _url_to_id sha256_hexdigest url in
  let batch :=
    page_rows url title tab_id favicon url_hash
      (Z.of_nat (List.length chunks)) 0 (combine chunks embeddings) in
  NoDup (map row_id batch) /\
  List.length batch
  = Nat.min (List.length chunks) (List.length embeddings) /\
  (forall c' added,
      add_page sha256_hexdigest col c url title text tab_id favicon
        embeddings chunks = Ok (c', added) ->
      added = mkAdded url_hash (Z.of_nat (List.length batch))) /\
  (List.length embeddings = List.length chunks ->
   map row_document batch = chunks /\
   map row_embedding batch = embeddings /\
   Forall (fun r => cm_total_chunks (row_meta r)
                    = Some (Z.of_nat (List.length batch))) batch).
Proof.
  intros url_hash batch. subst batch.
  split; [rewrite page_rows_ids; apply chunk_ids_distinct|].
  split; [now rewrite page_rows_length, length_combine|].
  split.
  - intros c' added. unfold add_page. fold url_hash.
    destruct (Chunker.nonempty _).
    + destruct (col_upsert col _ _); [|discriminate].
      cbn [bind]. now intros [= _ <-].
    + now intros [= _ <-].
  - intros Hlen.
    destruct (page_rows_contents url title tab_id favicon url_hash
                (Z.of_nat (List.length chunks)) (combine chunks embeddings) 0)
      as [-> ->].
    destruct (combine_fst_same_length chunks embeddings Hlen) as [-> ->].
    split; [reflexivity|]. split; [reflexivity|].
    apply Forall_forall. intros r Hin.
    apply page_rows_meta in Hin as (k & _ & _ & ->). cbn.
    rewrite page_rows_length, length_combine, Hlen, Nat.min_id.
    reflexivity.
Qed.

Lemma add_page_batch_witness :
  map row_document
    (page_rows "https://example.org/kafka" (lit "Kafka") 3 []
       (_url_to_id sample_hexdigest "https://example.org/kafka") 2 0
       (combine [lit "Kafka is a log."; lit "Consumers read it."]
          [[(1 # 2)%Q]; [(1 # 3)%Q]]))
  = [lit "Kafka is a log."; lit "Consumers read it."].
Proof.
  apply (proj2 (proj2 (proj2
           (add_page_batch sample_hexdigest (list Row) memory []
              "https://example.org/kafka" (lit "Kafka") [] 3 []
              [[(1 # 2)%Q]; [(1 # 3)%Q]]
              [lit "Kafka is a log."; lit "Consumers read it."])))).
  reflexivity.
Defined.

End ChunkIds.

Section Listing.

Import VectorStore IndexStore TabTools IndexStoreSpec.

Local Open Scope string_scope.
Local Open Scope list_scope.

Lemma dict_set_new {V} (d : dict V) k v :
  dict_get d k = None -> dict_set d k v = d ++ [(k, v)].
Proof.
  induction d as [|[k' v'] rest IH]; cbn; [reflexivity|].
  destruct (String.eqb k k'); [discriminate|].
  intros H. now rewrite IH.
Qed.

Lemma dict_get_in_keys {V} (d : dict V) k :
  In k (map fst d) -> exists v, dict_get d k = Some v.
Proof.
  induction d as [|[k' v'] rest IH]; cbn; [contradiction|].
  destruct (String.eqb_spec k k') as [->|Hne].
  - intros _. now exists v'.
  - intros [H|H]; [congruence|now apply IH].
Qed.

Lemma first_with_url_exists metadatas url :
  In url (map cm_url metadatas) ->
  exists meta, first_with_url metadatas meta /\ cm_url meta = url.
Proof.
  induction metadatas as [|m rest IH]; cbn; [contradiction|].
  intros Hin. destruct (String.eqb_spec (cm_url m) url) as [Heq|Hne].
  - exists m. split; [|exact Heq]. exists [], rest. split; [reflexivity|].
    intros [].
  - destruct Hin as [H|H]; [contradiction|].
    destruct (IH H) as (meta & (before & after & -> & Hnot) & Hurl).
    exists meta. split; [|exact Hurl].
    exists (m :: before), after. split; [reflexivity|].
    cbn. intros [Hm|Hb]; [congruence|contradiction].
Qed.

Lemma first_with_url_in metadatas meta :
  first_with_url metadatas meta -> In (cm_url meta) (map cm_url metadatas).
Proof.
  intros (before & after & -> & _). rewrite map_app, in_app_iff.
  right. now left.
Qed.

Lemma first_with_url_snoc done meta m :
  first_with_url (done ++ [meta]) m <->
  first_with_url done m \/
  (m = meta /\ ~ In (cm_url meta) (map cm_url done)).
Proof.
  split.
  - intros (before & after & Heq & Hnot).
    destruct after as [|x after' _] using rev_ind.
    + apply app_inj_tail in Heq as [-> ->]. right. now split.
    + change (before ++ m :: after' ++ [x])
        with (before ++ (m :: after') ++ [x]) in Heq.
      rewrite app_assoc in Heq. apply app_inj_tail in Heq as [-> _].
      left. now exists before, after'.
  - intros [(before & after & -> & Hnot)|[-> Hnot]].
    + exists before, (after ++ [meta]). split; [|exact Hnot].
      now rewrite <- app_assoc.
    + now exists done, [].
Qed.

(** The state of [seen_urls] after the records [done]. *)
Lemma collect_pages_collected rest :
  forall done d,
    (NoDup (map fst d) /\
     forall k p,
       In (k, p) d <->
       exists meta,
         first_with_url done meta /\ cm_url meta = k /\ page_of meta = p) ->
    let d' := collect_pages rest d in
    NoDup (map fst d') /\
    forall k p,
      In (k, p) d' <->
      exists meta,
        first_with_url (done ++ rest) meta /\ cm_url meta = k /\
        page_of meta = p.
Proof.
  induction rest as [|meta rest IH]; intros done d [Hnd Hiff]; cbn.
  - now rewrite app_nil_r.
  - change (done ++ meta :: rest) with (done ++ [meta] ++ rest).
    rewrite app_assoc. apply IH.
    assert (Hkeys : forall k, In k (map fst d) <-> In k (map cm_url done)).
    { intros k. split.
      - intros Hk. apply in_map_iff in Hk as ([k' p] & <- & Hin).
        apply Hiff in Hin as (m & Hfirst & <- & _).
        now apply first_with_url_in.
      - intros Hk. apply first_with_url_exists in Hk as (m & Hfirst & <-).
        change (cm_url m) with (fst (cm_url m, page_of m)).
        apply in_map. apply Hiff. now exists m. }
    destruct (dict_get d (cm_url meta)) as [p0|] eqn:Hget.
    + apply dict_get_some, in_keys, Hkeys in Hget.
      split; [exact Hnd|]. intros k p. rewrite Hiff.
      split; intros (m & Hfirst & Hrest); exists m; (split; [|exact Hrest]).
      * apply first_with_url_snoc. now left.
      * apply first_with_url_snoc in Hfirst as [H|[_ H]];
          [exact H|contradiction].
    + pose proof (dict_get_none _ _ Hget) as Hnew.
      rewrite (dict_set_new _ _ _ Hget). split.
      * rewrite map_app. apply NoDup_app; [exact Hnd|repeat constructor;
          intros []|].
        intros a Ha [<-|[]]. contradiction.
      * intros k p. rewrite in_app_iff, Hiff. split.
        -- intros [(m & Hfirst & Hrest)|[Heq|[]]].
           ++ exists m. split; [|exact Hrest].
              apply first_with_url_snoc. now left.
           ++ injection Heq as <- <-. exists meta.
              split; [|now split]. apply first_with_url_snoc. right.
              split; [reflexivity|]. now rewrite <- Hkeys.
        -- intros (m & Hfirst & Hurl & Hpage).
           apply first_with_url_snoc in Hfirst as [H|[-> H]].
           ++ left. now exists m.
           ++ right. left. now rewrite Hurl, Hpage.
Qed.

Lemma collected_urls (d : dict Page) :
  (forall k p, In (k, p) d -> page_url p = k) ->
  map page_url (values d) = map fst d.
Proof.
  unfold values. induction d as [|[k p] rest IH]; intros Hd; cbn;
    [reflexivity|].
  rewrite (Hd k p) by now left. f_equal. apply IH.
  intros k' p' Hin. apply Hd. now right.
Qed.

Lemma collect_pages_facts metadatas :
  let pages := values (collect_pages metadatas []) in
  NoDup (map page_url pages) /\
  forall p,
    In p pages <->
    exists meta, first_with_url metadatas meta /\ page_of meta = p.
Proof.
  intros pages.
  destruct (collect_pages_collected metadatas [] []) as [Hnd Hiff].
  { split; [constructor|]. intros k p. split; [intros []|].
    intros (m & (before & after & Heq & _) & _). now destruct before. }
  cbn [app] in Hiff. subst pages. split.
  - rewrite collected_urls; [exact Hnd|].
    intros k p Hin. apply Hiff in Hin as (m & _ & <- & <-). reflexivity.
  - intros p. unfold values. rewrite in_map_iff. split.
    + intros ([k p'] & <- & Hin). apply Hiff in Hin as (m & Hfirst & _ & Hp).
      now exists m.
    + intros (m & Hfirst & Hp). exists (cm_url m, p). split; [reflexivity|].
      apply Hiff. now exists m.
Qed.

Lemma get_all_facts C (col : Store C) c pages :
  get_all col c = Ok pages ->
  (col_count col c = 0%nat -> pages = []) /\
  (col_count col c <> 0%nat ->
   exists results,
     col_get col c = Ok results /\
     NoDup (map page_url pages) /\
     (forall r, In r results -> In (cm_url (row_meta r)) (map page_url pages)) /\
     (forall p,
         In p pages <->
         exists meta,
           first_with_url (map row_meta results) meta /\ page_of meta = p)).
Proof.
  unfold get_all. intros Hrun. split.
  - intros Hzero. rewrite Hzero in Hrun. cbn in Hrun. now injection Hrun.
  - intros Hcount. apply Nat.eqb_neq in Hcount. rewrite Hcount in Hrun.
    destruct (col_get col c) as [results|]; [|discriminate].
    cbn [bind] in Hrun. injection Hrun as <-.
    exists results. split; [reflexivity|].
    destruct (collect_pages_facts (map row_meta results)) as [Hnd Hiff].
    split; [exact Hnd|]. split; [|exact Hiff].
    intros r Hin.
    destruct (first_with_url_exists (map row_meta results)
                (cm_url (row_meta r))) as (m & Hfirst & Hurl).
    { rewrite map_map. now apply (in_map (fun x => cm_url (row_meta x))). }
    apply in_map_iff. exists (page_of m). split; [exact Hurl|].
    apply Hiff. now exists m.
Qed.

(** X17: [get_all] lists nothing when the collection counts no record;
    otherwise it lists every URL of the collection once, and an entry takes
    its title, tab id, favicon and number of chunks from the first record
    with its URL, with no favicon and one chunk when that record gives
    none. *)
Theorem get_all_lists_each_url_once C (col : Store C) c pages :
  get_all col c = Ok pages ->
  (col_count col c = 0%nat -> pages = []) /\
  (col_count col c <> 0%nat ->
   exists results,
     col_get col c = Ok results /\
     NoDup (map page_url pages) /\
     (forall r, In r results -> In (cm_url (row_meta r)) (map page_url pages)) /\
     (forall p,
         In p pages <->
         exists meta,
           first_with_url (map row_meta results) meta /\ page_of meta = p)).
Proof. apply get_all_facts. Qed.

Lemma get_all_lists_each_url_once_witness :
  (col_count memory sample_rows = 0%nat ->
   [mkPage "https://example.org/kafka" (lit "Kafka") 3 [] 2] = []) /\
  (col_count memory sample_rows <> 0%nat ->
   exists results,
     col_get memory sample_rows = Ok results /\
     NoDup (map page_url
              [mkPage "https://example.org/kafka" (lit "Kafka") 3 [] 2]) /\
     (forall r,
         In r results ->
         In (cm_url (row_meta r))
           (map page_url
              [mkPage "https://example.org/kafka" (lit "Kafka") 3 [] 2])) /\
     (forall p,
         In p [mkPage "https://example.org/kafka" (lit "Kafka") 3 [] 2] <->
         exists meta,
           first_with_url (map row_meta results) meta /\ page_of meta = p)).
Proof.
  apply (get_all_lists_each_url_once (list Row) memory sample_rows).
  reflexivity.
Defined.

(** X18: [execute_list_tabs] counts the tabs it lists, lists a URL at most
    once, and gives its message exactly when it lists no tab. *)
Theorem list_tabs_counts_distinct_urls C (col : Store C) c listing :
  execute_list_tabs col c = Ok listing ->
  tl_count listing = Z.of_nat (List.length (tl_tabs listing)) /\
  NoDup (map tab_url (tl_tabs listing)) /\
  (tl_message listing <> None <-> tl_tabs listing = []) /\
  (forall pages,
      get_all col c = Ok pages ->
      map tab_url (tl_tabs listing) = map page_url pages /\
      map tab_chunks (tl_tabs listing) = map page_chunks pages).
Proof.
  unfold execute_list_tabs. intros Hrun.
  destruct (get_all col c) as [pages|] eqn:Hall; [|discriminate].
  cbn [bind] in Hrun.
  assert (Hnd : NoDup (map page_url pages)).
  { destruct (get_all_facts _ _ _ _ Hall) as [Hzero Hsome].
    destruct (Nat.eq_dec (col_count col c) 0) as [Hz|Hnz].
    - rewrite (Hzero Hz). constructor.
    - destruct (Hsome Hnz) as (results & _ & H & _). exact H. }
  assert (Hurls : map tab_url
                    (map (fun p => mkTab (page_title p) (page_url p)
                                     (page_chunks p)) pages)
                  = map page_url pages) by now rewrite map_map.
  assert (Hchunks : map tab_chunks
                      (map (fun p => mkTab (page_title p) (page_url p)
                                       (page_chunks p)) pages)
                    = map page_chunks pages) by now rewrite map_map.
  destruct pages as [|p pages]; cbn [Chunker.nonempty negb] in Hrun;
    injection Hrun as <-; cbn [tl_count tl_message tl_tabs].
  - split; [reflexivity|]. split; [constructor|].
    split; [split; [reflexivity|discriminate]|].
    now intros pages' [= <-].
  - split; [reflexivity|].
    cbn [map] in Hurls, Hchunks, Hnd |- *. rewrite Hurls, Hchunks.
    split; [exact Hnd|].
    split; [split; [intros H; now contradiction H|discriminate]|].
    now intros pages' [= <-].
Qed.

Lemma list_tabs_counts_distinct_urls_witness :
  tl_count (mkTabList 1 None
              [mkTab (lit "Kafka") "https://example.org/kafka" 2])
  = Z.of_nat (List.length
                (tl_tabs (mkTabList 1 None
                            [mkTab (lit "Kafka")
                               "https://example.org/kafka" 2]))).
Proof.
  apply (list_tabs_counts_distinct_urls (list Row) memory sample_rows).
  reflexivity.
Defined.

End Listing.

(** ** Index store: a collection held in memory *)

Section MemoryStore.

Import VectorStore IndexStore TabTools IndexStoreSpec.

Local Open Scope string_scope.
Local Open Scope list_scope.

Variable sha256_hexdigest : string -> string.

Hypothesis digest_length :
  forall b, String.length (sha256_hexdigest b) = 64%nat.

Lemma url_hash_length url :
  String.length (_url_to_id sha256_hexdigest url) = 16%nat.
Proof.
  unfold _url_to_id. apply substring_prefix_length.
  rewrite digest_length. lia.
Qed.

Lemma NoDup_map_eq {A B} (f : A -> B) l x y :
  NoDup (map f l) -> In x l -> In y l -> f x = f y -> x = y.
Proof.
  induction l as [|a l IH]; cbn; [contradiction|].
  intros Hnd Hx Hy Heq. inversion Hnd as [|? ? Hnot Hnd']; subst.
  destruct Hx as [->|Hx], Hy as [->|Hy]; try reflexivity.
  - exfalso. apply Hnot. rewrite Heq. now apply in_map.
  - exfalso. apply Hnot. rewrite <- Heq. now apply in_map.
  - now apply IH.
Qed.

Lemma filter_none_neg {A} (p : A -> bool) l :
  filter p l = [] -> filter (fun x => negb (p x)) l = l.
Proof.
  induction l as [|a l IH]; cbn; [reflexivity|].
  destruct (p a); [discriminate|]. cbn. intros H. now rewrite IH.
Qed.

Lemma filter_neg_none {A} (p : A -> bool) l :
  filter p (filter (fun x => negb (p x)) l) = [].
Proof.
  induction l as [|a l IH]; cbn; [reflexivity|].
  destruct (p a) eqn:Hp; cbn; [exact IH|]. now rewrite Hp.
Qed.

Lemma filter_all {A} (p : A -> bool) l :
  (forall x, In x l -> p x = true) ->
  filter p l = l /\ filter (fun x => negb (p x)) l = [].
Proof.
  induction l as [|a l IH]; cbn; [now split|].
  intros Hall. rewrite (Hall a) by now left. cbn.
  destruct IH as [-> ->]; [|now split].
  intros x Hx. apply Hall. now right.
Qed.

Lemma id_in_iff ids r : id_in ids r = true <-> In (row_id r) ids.
Proof.
  unfold id_in. rewrite existsb_exists. split.
  - intros (x & Hx & Heq). apply String.eqb_eq in Heq. now subst.
  - intros Hin. exists (row_id r). split; [exact Hin|apply String.eqb_refl].
Qed.

Lemma delete_ids_of_hash rows h :
  NoDup (map row_id rows) ->
  filter (fun r => negb (id_in (map row_id (filter (has_hash h) rows)) r))
    rows
  = others h rows.
Proof.
  intros Hnd. unfold others. apply filter_ext_in. intros r Hr. f_equal.
  destruct (has_hash h r) eqn:Hh.
  - apply id_in_iff. apply in_map. apply filter_In. now split.
  - destruct (id_in _ r) eqn:Hid; [|reflexivity].
    apply id_in_iff, in_map_iff in Hid as (r' & Heq & Hr').
    apply filter_In in Hr' as [Hr' Hh'].
    rewrite (NoDup_map_eq row_id rows r' r Hnd Hr' Hr Heq) in Hh'.
    congruence.
Qed.

Lemma delete_by_hash_memory rows h :
  NoDup (map row_id rows) ->
  _delete_chunks_by_url_hash memory rows h = others h rows.
Proof.
  intros Hnd. unfold _delete_chunks_by_url_hash.
  cbn [memory col_get_where col_delete bind].
  destruct (filter (has_hash h) rows) as [|r0 existing] eqn:Hfilter.
  - cbn [Chunker.nonempty]. unfold others.
    now rewrite filter_none_neg.
  - cbn [Chunker.nonempty]. rewrite <- Hfilter.
    now rewrite delete_ids_of_hash.
Qed.

Lemma upsert_row_new rows r :
  ~ In (row_id r) (map row_id rows) -> upsert_row rows r = rows ++ [r].
Proof.
  induction rows as [|x rows IH]; cbn; [reflexivity|].
  intros Hnot. destruct (String.eqb_spec (row_id x) (row_id r)) as [Heq|_].
  - exfalso. apply Hnot. now left.
  - rewrite IH; [reflexivity|]. intros H. apply Hnot. now right.
Qed.

Lemma upsert_batch_new batch :
  forall rows,
    NoDup (map row_id batch) ->
    (forall r, In r batch -> ~ In (row_id r) (map row_id rows)) ->
    fold_left upsert_row batch rows = rows ++ batch.
Proof.
  induction batch as [|r batch IH]; intros rows Hnd Hfresh; cbn.
  - now rewrite app_nil_r.
  - inversion Hnd as [|? ? Hnot Hnd']; subst.
    rewrite upsert_row_new by (apply Hfresh; now left).
    rewrite IH; [now rewrite <- app_assoc|exact Hnd'|].
    intros r' Hr'. rewrite map_app, in_app_iff. intros [H|[H|[]]].
    + apply (Hfresh r'); [now right|exact H].
    + apply Hnot. rewrite H. now apply in_map.
Qed.

Lemma others_in h rows r :
  In r (others h rows) <-> In r rows /\ has_hash h r = false.
Proof.
  unfold others. rewrite filter_In. now rewrite negb_true_iff.
Qed.

Lemma others_well_formed h rows :
  well_formed sha256_hexdigest rows ->
  well_formed sha256_hexdigest (others h rows).
Proof.
  intros [Hnd Hok]. split.
  - unfold others. clear Hok.
    induction rows as [|r rows IH]; cbn; [constructor|].
    inversion Hnd as [|? ? Hnot Hnd']; subst.
    destruct (negb (has_hash h r)); cbn; [|now apply IH].
    constructor; [|now apply IH].
    intros Hin. apply Hnot. apply in_map_iff in Hin as (r' & Heq & Hr').
    apply filter_In in Hr' as [Hr' _]. rewrite <- Heq. now apply in_map.
  - rewrite Forall_forall in *. intros r Hr. apply Hok.
    now apply others_in in Hr.
Qed.

Lemma page_rows_ok url title tab_id favicon total pairs i :
  Forall (row_ok sha256_hexdigest)
    (page_rows url title tab_id favicon
       (_url_to_id sha256_hexdigest url) total i pairs).
Proof.
  apply Forall_forall. intros r Hr.
  apply page_rows_meta in Hr as (k & _ & Hid & Hmeta).
  unfold row_ok. rewrite Hmeta. cbn. split; [reflexivity|now exists k].
Qed.

Lemma page_rows_hash url title tab_id favicon h total pairs i r :
  In r (page_rows url title tab_id favicon h total i pairs) ->
  has_hash h r = true /\ cm_url (row_meta r) = url.
Proof.
  intros Hr. apply page_rows_meta in Hr as (k & _ & _ & Hmeta).
  unfold has_hash. rewrite Hmeta. cbn. split; [apply String.eqb_refl|].
  reflexivity.
Qed.

Lemma page_rows_fresh url title tab_id favicon total pairs i rows r :
  well_formed sha256_hexdigest rows ->
  In r (page_rows url title tab_id favicon
          (_url_to_id sha256_hexdigest url) total i pairs) ->
  ~ In (row_id r)
      (map row_id (others (_url_to_id sha256_hexdigest url) rows)).
Proof.
  intros [_ Hok] Hr Hin.
  apply page_rows_meta in Hr as (k & _ & Hid & _).
  apply in_map_iff in Hin as (r' & Heq & Hr').
  apply others_in in Hr' as [Hr' Hhash].
  rewrite Forall_forall in Hok. destruct (Hok r' Hr') as [Hh (k' & Hid')].
  unfold has_hash in Hhash. rewrite Hh in Hhash.
  rewrite Hid, Hid' in Heq.
  apply chunk_id_inj in Heq as [Heq _];
    [|now rewrite !url_hash_length].
  rewrite Heq, String.eqb_refl in Hhash. discriminate.
Qed.

(** What [add_page] leaves in a well-formed collection: the records of the
    other pages followed by the new records of the page. *)
Lemma add_page_memory rows url title text tab_id favicon embeddings chunks :
  well_formed sha256_hexdigest rows ->
  let url_hash := _url_to_id sha256_hexdigest url in
  let batch :=
    page_rows url title tab_id favicon url_hash
      (Z.of_nat (List.length chunks)) 0 (combine chunks embeddings) in
  add_page sha256_hexdigest memory rows url title text tab_id favicon
    embeddings chunks
  = Ok (others url_hash rows ++ batch,
        mkAdded url_hash (Z.of_nat (List.length batch))) /\
  well_formed sha256_hexdigest (others url_hash rows ++ batch).
Proof.
  intros Hwf url_hash batch.
  assert (Hbatch : NoDup (map row_id batch)).
  { subst batch. rewrite page_rows_ids. apply chunk_ids_distinct. }
  assert (Hfresh : forall r, In r batch ->
                             ~ In (row_id r)
                                 (map row_id (others url_hash rows))).
  { intros r Hr. now apply (page_rows_fresh url title tab_id favicon
                              (Z.of_nat (List.length chunks))
                              (combine chunks embeddings) 0). }
  split.
  - unfold add_page. fold url_hash. fold batch.
    rewrite delete_by_hash_memory by apply Hwf.
    destruct batch as [|r0 batch'] eqn:Hb; cbn [Chunker.nonempty].
    + now rewrite app_nil_r.
    + cbn [memory col_upsert bind].
      now rewrite upsert_batch_new.
  - destruct (others_well_formed url_hash rows Hwf) as [Hnd Hok].
    split.
    + rewrite map_app. apply NoDup_app; [exact Hnd|exact Hbatch|].
      intros a Ha Hb. apply in_map_iff in Hb as (r & <- & Hr).
      now apply (Hfresh r Hr).
    + apply Forall_app. split; [exact Hok|apply page_rows_ok].
Qed.

Lemma filter_none {A} (p : A -> bool) l :
  (forall x, In x l -> p x = false) -> filter p l = [].
Proof.
  induction l as [|a l IH]; cbn; [reflexivity|].
  intros Hall. rewrite (Hall a) by now left.
  apply IH. intros x Hx. apply Hall. now right.
Qed.

Lemma existsb_filter {A} (p : A -> bool) l :
  existsb p l = Chunker.nonempty (filter p l).
Proof.
  induction l as [|a l IH]; cbn; [reflexivity|].
  destruct (p a); [reflexivity|exact IH].
Qed.

Lemma page_filter h rows batch :
  (forall r, In r batch -> has_hash h r = true) ->
  filter (has_hash h) (others h rows ++ batch) = batch /\
  others h (others h rows ++ batch) = others h rows.
Proof.
  intros Hall. destruct (filter_all (has_hash h) batch Hall) as [Hin Hout].
  unfold others in *. rewrite !filter_app, Hin, Hout, filter_neg_none.
  split; [reflexivity|]. rewrite app_nil_r.
  apply forallb_filter_id, forallb_filter.
Qed.

Lemma others_other_urls url rows r :
  well_formed sha256_hexdigest rows ->
  In r (others (_url_to_id sha256_hexdigest url) rows) ->
  cm_url (row_meta r) <> url.
Proof.
  intros [_ Hok] Hr Heq. apply others_in in Hr as [Hr Hhash].
  rewrite Forall_forall in Hok. destruct (Hok r Hr) as [Hh _].
  unfold has_hash in Hhash. rewrite Hh, Heq, String.eqb_refl in Hhash.
  discriminate.
Qed.

Lemma no_legacy_id url rows :
  well_formed sha256_hexdigest rows ->
  filter (id_in [_url_to_id sha256_hexdigest url]) rows = [].
Proof.
  intros [_ Hok]. apply filter_none. intros r Hr.
  destruct (id_in _ r) eqn:Hid; [|reflexivity].
  apply id_in_iff in Hid as [Hid|[]].
  rewrite Forall_forall in Hok. destruct (Hok r Hr) as [_ (k & Hk)].
  pose proof (chunk_id_longer
                (_url_to_id sha256_hexdigest (cm_url (row_meta r))) k) as Hl.
  rewrite <- Hk, <- Hid, !url_hash_length in Hl. lia.
Qed.

Lemma listed_single pages p :
  NoDup (map page_url pages) -> In p pages ->
  listed (page_url p) pages = [p].
Proof.
  unfold listed. induction pages as [|a l IH]; cbn; [contradiction|].
  intros Hnd Hin. inversion Hnd as [|? ? Hnot Hnd']; subst.
  destruct Hin as [->|Hin].
  - rewrite String.eqb_refl. f_equal. apply filter_none.
    intros x Hx. apply String.eqb_neq. intros Heq. apply Hnot.
    rewrite <- Heq. now apply in_map.
  - destruct (String.eqb_spec (page_url a) (page_url p)) as [Heq|_].
    + exfalso. apply Hnot. rewrite Heq. now apply in_map.
    + now apply IH.
Qed.

Lemma read_loop_page_rows url title tab_id favicon h total pairs :
  forall i t acc,
    t = [] \/ t = title ->
    read_loop i (page_rows url title tab_id favicon h total i pairs) t acc
    = (match pairs with [] => t | _ :: _ => title end,
       acc ++ indexed i (map fst pairs)).
Proof.
  induction pairs as [|[chunk_text embedding] rest IH]; intros i t acc Ht;
    cbn [page_rows read_loop map indexed fst].
  - now rewrite app_nil_r.
  - cbn [row_meta row_document cm_title cm_chunk_index].
    match goal with
    | |- context [read_loop _ _ ?t' _] =>
        assert (Htitle : t' = title)
          by (destruct Ht as [->| ->]; now destruct title);
        rewrite Htitle
    end.
    rewrite IH by now right.
    rewrite <- app_assoc. cbn [app]. f_equal. now destruct rest.
Qed.

Lemma indexed_sorted chunks :
  forall i, sorted_asc fst (indexed i chunks) = indexed i chunks.
Proof.
  unfold sorted_asc.
  induction chunks as [|chunk rest IH]; intros i; cbn [indexed fold_right];
    [reflexivity|].
  rewrite IH. destruct rest as [|chunk' rest']; cbn [indexed insert_asc fst];
    [reflexivity|].
  destruct (Z.ltb_spec (Z.of_nat (S i)) (Z.of_nat i)); [lia|reflexivity].
Qed.

Lemma indexed_texts chunks :
  forall i,
    map snd (indexed i chunks) = chunks /\
    List.length (indexed i chunks) = List.length chunks.
Proof.
  induction chunks as [|chunk rest IH]; intros i; cbn; [now split|].
  destruct (IH (S i)) as [-> ->]. now split.
Qed.

(** X19: in a well-formed collection held in memory, [add_page] with one
    embedding for every chunk leaves the chunks, in order, as the documents
    of the page, whatever was stored for the page before, keeps the records
    of the other pages as they were, and keeps the collection
    well-formed. *)
Theorem add_page_replaces_page rows url title text tab_id favicon embeddings
    chunks :
  well_formed sha256_hexdigest rows ->
  List.length embeddings = List.length chunks ->
  let url_hash := _url_to_id sha256_hexdigest url in
  exists rows',
    add_page sha256_hexdigest memory rows url title text tab_id favicon
      embeddings chunks
    = Ok (rows', mkAdded url_hash (Z.of_nat (List.length chunks))) /\
    map row_document (filter (has_hash url_hash) rows') = chunks /\
    others url_hash rows' = others url_hash rows /\
    well_formed sha256_hexdigest rows'.
Proof.
  intros Hwf Hlen url_hash.
  destruct (add_page_memory rows url title text tab_id favicon embeddings
              chunks Hwf) as [Hadd Hwf'].
  fold url_hash in Hadd, Hwf'.
  set (batch := page_rows url title tab_id favicon url_hash
                  (Z.of_nat (List.length chunks)) 0
                  (combine chunks embeddings)) in *.
  assert (Hhash : forall r, In r batch -> has_hash url_hash r = true).
  { intros r Hr. now apply page_rows_hash in Hr. }
  destruct (page_filter url_hash rows batch Hhash) as [Hpage Hothers].
  exists (others url_hash rows ++ batch).
  split; [|split; [|split; [exact Hothers|exact Hwf']]].
  - rewrite Hadd. do 3 f_equal. subst batch.
    now rewrite page_rows_length, length_combine, Hlen, Nat.min_id.
  - rewrite Hpage. subst batch.
    destruct (page_rows_contents url title tab_id favicon url_hash
                (Z.of_nat (List.length chunks)) (combine chunks embeddings) 0)
      as [-> _].
    now destruct (combine_fst_same_length chunks embeddings Hlen) as [-> _].
Qed.

(** X20: in a well-formed collection held in memory, [delete] removes the
    records of the page and no other, tells whether there was one, and
    keeps the collection well-formed; afterwards a second [delete] returns
    [False], [execute_read_tab] does not find the page and [get_all] does
    not list it. *)
Theorem delete_removes_page rows url :
  well_formed sha256_hexdigest rows ->
  let url_hash := _url_to_id sha256_hexdigest url in
  let rows' := others url_hash rows in
  delete sha256_hexdigest memory rows url
  = (rows', existsb (has_hash url_hash) rows) /\
  well_formed sha256_hexdigest rows' /\
  delete sha256_hexdigest memory rows' url = (rows', false) /\
  execute_read_tab sha256_hexdigest memory rows' url
  = NotFound ("未找到 URL 对应的内容: " ++ url)%string /\
  (forall pages, get_all memory rows' = Ok pages -> listed url pages = []).
Proof.
  intros Hwf url_hash rows'.
  assert (Hdelete : forall rs,
             well_formed sha256_hexdigest rs ->
             delete sha256_hexdigest memory rs url
             = (others url_hash rs, existsb (has_hash url_hash) rs)).
  { intros rs Hrs. unfold delete. fold url_hash.
    cbn [memory col_get_where col_get_ids col_delete bind].
    rewrite existsb_filter.
    destruct (filter (has_hash url_hash) rs) as [|r0 existing] eqn:Hfilter;
      cbn [Chunker.nonempty bind].
    - unfold url_hash. rewrite (no_legacy_id url rs Hrs).
      cbn [Chunker.nonempty]. unfold others. fold url_hash.
      now rewrite filter_none_neg.
    - rewrite <- Hfilter, delete_ids_of_hash by apply Hrs.
      unfold url_hash.
      rewrite (no_legacy_id url _ (others_well_formed _ rs Hrs)).
      reflexivity. }
  pose proof (others_well_formed url_hash rows Hwf) as Hwf'.
  fold rows' in Hwf'.
  assert (Hgone : filter (has_hash url_hash) rows' = []).
  { apply filter_neg_none. }
  split; [now apply Hdelete|]. split; [exact Hwf'|]. split; [|split].
  - rewrite (Hdelete rows' Hwf'), existsb_filter, Hgone.
    cbn [Chunker.nonempty]. f_equal. unfold others.
    rewrite filter_none_neg; [reflexivity|exact Hgone].
  - unfold execute_read_tab. fold url_hash.
    cbn [memory col_get_where]. now rewrite Hgone.
  - intros pages Hall. unfold listed. apply filter_none. intros p Hp.
    apply String.eqb_neq. intros Heq.
    destruct (get_all_facts _ _ _ _ Hall) as [Hzero Hsome].
    destruct (Nat.eq_dec (col_count memory rows') 0) as [Hz|Hnz].
    + rewrite (Hzero Hz) in Hp. contradiction.
    + destruct (Hsome Hnz) as (results & Hget & _ & _ & Hiff).
      cbn [memory col_get] in Hget. injection Hget as <-.
      apply Hiff in Hp as (meta & Hfirst & <-).
      apply first_with_url_in, in_map_iff in Hfirst as (m & Hm & Hin).
      apply in_map_iff in Hin as (r & <- & Hr).
      apply (others_other_urls url rows r Hwf Hr).
      rewrite <- Heq. cbn. congruence.
Qed.

(** X21: after [add_page] has stored at least one chunk of a page in a
    well-formed collection held in memory, [get_all] lists the page once,
    with the title, tab id and favicon given and the number of chunks. *)
Theorem indexed_page_is_listed rows url title text tab_id favicon embeddings
    chunks rows' added :
  well_formed sha256_hexdigest rows ->
  chunks <> [] ->
  List.length embeddings = List.length chunks ->
  add_page sha256_hexdigest memory rows url title text tab_id favicon
    embeddings chunks = Ok (rows', added) ->
  exists pages,
    get_all memory rows' = Ok pages /\
    listed url pages
    = [mkPage url title tab_id favicon (Z.of_nat (List.length chunks))].
Proof.
  intros Hwf Hne Hlen Hadd.
  destruct (add_page_memory rows url title text tab_id favicon embeddings
              chunks Hwf) as [Hmem _].
  rewrite Hmem in Hadd. injection Hadd as <- _.
  destruct chunks as [|chunk chunks]; [contradiction|].
  destruct embeddings as [|embedding embeddings]; [discriminate|].
  set (url_hash := _url_to_id sha256_hexdigest url).
  set (total := Z.of_nat (List.length (chunk :: chunks))).
  cbn [combine page_rows].
  set (row0 := mkRow _ chunk embedding _).
  set (more := page_rows url title tab_id favicon url_hash total 1
                 (combine chunks embeddings)).
  unfold get_all. cbn [memory col_count col_get bind].
  rewrite length_app. cbn [List.length].
  replace (_ + S _ =? 0)%nat with false
    by (symmetry; apply Nat.eqb_neq; lia).
  eexists. split; [reflexivity|].
  destruct (collect_pages_facts
              (map row_meta (others url_hash rows ++ row0 :: more)))
    as [Hnd Hiff].
  change url with (page_url (mkPage url title tab_id favicon total)) at 1.
  apply listed_single; [exact Hnd|].
  apply Hiff. exists (row_meta row0). split; [|reflexivity].
  exists (map row_meta (others url_hash rows)), (map row_meta more).
  split; [now rewrite map_app|].
  rewrite map_map. intros Hin. apply in_map_iff in Hin as (r & Heq & Hr).
  now apply (others_other_urls url rows r Hwf Hr).
Qed.

(** X22: after [add_page] has stored at least one chunk of a page in a
    well-formed collection held in memory, [execute_read_tab] returns the
    title given, the number of chunks, and as content the first 5000
    characters of the chunks joined by newlines in their order, marked
    truncated exactly when the joined text is longer. *)
Theorem indexed_page_is_read rows url title text tab_id favicon embeddings
    chunks rows' added :
  well_formed sha256_hexdigest rows ->
  chunks <> [] ->
  List.length embeddings = List.length chunks ->
  add_page sha256_hexdigest memory rows url title text tab_id favicon
    embeddings chunks = Ok (rows', added) ->
  execute_read_tab sha256_hexdigest memory rows' url
  = Content url title (Z.of_nat (List.length chunks))
      (slice (join NEWLINE chunks) 0 5000)
      (5000 <? len (join NEWLINE chunks))%Z.
Proof.
  intros Hwf Hne Hlen Hadd.
  destruct (add_page_memory rows url title text tab_id favicon embeddings
              chunks Hwf) as [Hmem _].
  rewrite Hmem in Hadd. injection Hadd as <- _.
  set (url_hash := _url_to_id sha256_hexdigest url).
  set (pairs := combine chunks embeddings).
  set (batch := page_rows url title tab_id favicon url_hash
                  (Z.of_nat (List.length chunks)) 0 pairs).
  assert (Hhash : forall r, In r batch -> has_hash url_hash r = true).
  { intros r Hr. now apply page_rows_hash in Hr. }
  destruct (page_filter url_hash rows batch Hhash) as [Hpage _].
  unfold execute_read_tab. fold url_hash.
  cbn [memory col_get_where]. rewrite Hpage.
  assert (Hpairs : map fst pairs = chunks).
  { now destruct (combine_fst_same_length chunks embeddings Hlen). }
  assert (Hsome : pairs <> []).
  { intros Hnil. rewrite Hnil in Hpairs. now subst chunks. }
  replace (Chunker.nonempty batch) with true
    by (subst batch; destruct pairs as [|[? ?] ?]; [contradiction|reflexivity]).
  cbn [negb]. subst batch.
  rewrite read_loop_page_rows by now left.
  rewrite Hpairs, app_nil_l, indexed_sorted.
  destruct (indexed_texts chunks 0) as [-> ->].
  destruct pairs as [|[? ?] ?]; [contradiction|reflexivity].
Qed.

End MemoryStore.

Section MemoryStoreSamples.

Import VectorStore IndexStore TabTools IndexStoreSpec.

Local Open Scope string_scope.
Local Open Scope list_scope.

Lemma sample_digest_length b : String.length (sample_hexdigest b) = 64%nat.
Proof. unfold sample_hexdigest. now destruct (String.eqb b _). Qed.

Lemma sample_rows_well_formed : well_formed sample_hexdigest sample_rows.
Proof.
  split.
  - repeat constructor; cbn; intuition discriminate.
  - repeat constructor; cbn; [now exists 0%nat|now exists 1%nat].
Qed.

Lemma add_page_replaces_page_witness :
  exists rows',
    add_page sample_hexdigest memory sample_rows "https://example.org/redis"
      (lit "Redis locks") [] 8 [] [[(1 # 2)%Q]]
      [lit "Redis locks explained at length."]
    = Ok (rows',
          mkAdded (_url_to_id sample_hexdigest "https://example.org/redis")
            1) /\
    map row_document
      (filter (has_hash
                 (_url_to_id sample_hexdigest "https://example.org/redis"))
         rows')
    = [lit "Redis locks explained at length."] /\
    others (_url_to_id sample_hexdigest "https://example.org/redis") rows'
    = others (_url_to_id sample_hexdigest "https://example.org/redis")
        sample_rows /\
    well_formed sample_hexdigest rows'.
Proof.
  apply (add_page_replaces_page sample_hexdigest sample_digest_length
           sample_rows "https://example.org/redis" (lit "Redis locks") [] 8
           [] [[(1 # 2)%Q]] [lit "Redis locks explained at length."]).
  - exact sample_rows_well_formed.
  - reflexivity.
Defined.

Lemma delete_removes_page_witness :
  delete sample_hexdigest memory sample_rows "https://example.org/kafka"
  = ([], true) /\
  well_formed sample_hexdigest [] /\
  delete sample_hexdigest memory [] "https://example.org/kafka"
  = ([], false) /\
  execute_read_tab sample_hexdigest memory [] "https://example.org/kafka"
  = NotFound "未找到 URL 对应的内容: https://example.org/kafka" /\
  (forall pages,
      get_all memory [] = Ok pages ->
      listed "https://example.org/kafka" pages = []).
Proof.
  apply (delete_removes_page sample_hexdigest sample_digest_length
           sample_rows "https://example.org/kafka").
  exact sample_rows_well_formed.
Defined.

Lemma indexed_page_is_listed_witness :
  exists pages,
    get_all memory (sample_rows ++ redis_rows) = Ok pages /\
    listed "https://example.org/redis" pages
    = [mkPage "https://example.org/redis" (lit "Redis locks") 8 [] 1].
Proof.
  apply (indexed_page_is_listed sample_hexdigest sample_digest_length
           sample_rows "https://example.org/redis" (lit "Redis locks") [] 8
           [] [[(1 # 2)%Q]] [lit "Redis locks explained at length."]
           (sample_rows ++ redis_rows)
           (mkAdded "0123456789abcdef" 1)).
  - exact sample_rows_well_formed.
  - discriminate.
  - reflexivity.
  - reflexivity.
Defined.

Lemma indexed_page_is_read_witness :
  execute_read_tab sample_hexdigest memory (sample_rows ++ redis_rows)
    "https://example.org/redis"
  = Content "https://example.org/redis" (lit "Redis locks") 1
      (lit "Redis locks explained at length.") false.
Proof.
  apply (indexed_page_is_read sample_hexdigest sample_digest_length
           sample_rows "https://example.org/redis" (lit "Redis locks") [] 8
           [] [[(1 # 2)%Q]] [lit "Redis locks explained at length."]
           (sample_rows ++ redis_rows)
           (mkAdded "0123456789abcdef" 1)).
  - exact sample_rows_well_formed.
  - discriminate.
  - reflexivity.
  - reflexivity.
Defined.

End MemoryStoreSamples.

(** ** The index route *)

Section IndexRoute.

Import VectorStore IndexStore TabTools IndexRoutes IndexStoreSpec.

Local Open Scope string_scope.
Local Open Scope list_scope.

Variable sha256_hexdigest : string -> string.
Variable encode_batch : list str -> list Embedding.

Hypothesis digest_length :
  forall b, String.length (sha256_hexdigest b) = 64%nat.

Hypothesis one_embedding_per_chunk :
  forall chunks, List.length (encode_batch chunks) = List.length chunks.

Lemma strip_nil : strip [] = [].
Proof. reflexivity. Qed.

Lemma text_to_embed_empty req :
  text_to_embed req = [] <->
  strip (ireq_text req) = [] /\ ireq_title req = [].
Proof.
  unfold text_to_embed.
  destruct (ireq_text req) as [|c text]; cbn [truthy negb].
  - rewrite strip_nil. intuition.
  - destruct (strip (c :: text)) as [|c' text']; cbn [truthy negb].
    + intuition.
    + split; [discriminate|]. now intros [H _].
Qed.

Lemma split_text_nonempty_chunks text chunks :
  text <> [] ->
  split_text text = Some chunks ->
  chunks <> [] /\ Forall (fun chunk => chunk <> []) chunks.
Proof.
  unfold split_text, _split_into_chunks. intros Htext Hrun.
  destruct text as [|c text]; [contradiction|]. cbn [truthy negb orb] in Hrun.
  destruct (len (c :: text) <=? CHUNK_SIZE)%Z.
  - destruct (MIN_CHUNK_SIZE <=? len (c :: text))%Z; injection Hrun as <-;
      (split; [discriminate|repeat constructor; discriminate]).
  - destruct (chunk_loop _ _ 0 []) as [r|] eqn:Hloop; [|discriminate].
    injection Hrun as <-. destruct r as [|x r]; cbn [nonempty].
    + split; [discriminate|repeat constructor; discriminate].
    + split; [discriminate|].
      assert (Hclean : ChunkerSpec.clean_chunks (x :: r)).
      { eapply chunk_loop_clean; [|exact Hloop]. constructor. }
      eapply Forall_impl; [|exact Hclean]. now intros chunk [H _].
Qed.

(** X23: over a well-formed collection held in memory and an encoder that
    gives every chunk one embedding, [index_page] always answers.  A
    request whose text is empty after stripping and whose title is empty
    gets the error and leaves the collection as it was.  Any other request
    gets the hash of its URL and the number of chunks of the indexed text;
    these chunks, none of them empty, are then the documents of the page,
    and the records of the other pages are as before. *)
Theorem index_page_stores_chunks rows req :
  well_formed sha256_hexdigest rows ->
  let text := text_to_embed req in
  let url_hash := _url_to_id sha256_hexdigest (ireq_url req) in
  (text = [] <-> strip (ireq_text req) = [] /\ ireq_title req = []) /\
  (text = [] ->
   index_page sha256_hexdigest encode_batch memory rows req
   = Some (Ok (rows, IndexError NOTHING_TO_INDEX))) /\
  (text <> [] ->
   exists chunks rows',
     split_text text = Some chunks /\
     chunks <> [] /\
     Forall (fun chunk => chunk <> []) chunks /\
     index_page sha256_hexdigest encode_batch memory rows req
     = Some (Ok (rows',
                 IndexOk url_hash (Z.of_nat (List.length chunks)))) /\
     map row_document (filter (has_hash url_hash) rows') = chunks /\
     others url_hash rows' = others url_hash rows /\
     well_formed sha256_hexdigest rows').
Proof.
  intros Hwf text url_hash.
  split; [apply text_to_embed_empty|]. split.
  - intros Hempty. unfold index_page. fold text. now rewrite Hempty.
  - intros Htext. unfold index_page. fold text.
    destruct text as [|c text'] eqn:Heq; [contradiction|].
    cbn [truthy negb].
    destruct (split_into_chunks_total (c :: text')) as [chunks Hchunks].
    change (_split_into_chunks (c :: text')) with (split_text (c :: text'))
      in Hchunks.
    destruct (split_text_nonempty_chunks _ _ Htext Hchunks) as [Hne Hall].
    rewrite Hchunks.
    destruct (add_page_memory sha256_hexdigest digest_length rows
                (ireq_url req) (ireq_title req) (c :: text')
                (ireq_tab_id req) (ireq_favicon req) (encode_batch chunks)
                chunks Hwf) as [Hadd Hwf'].
    fold url_hash in Hadd, Hwf'.
    set (batch := page_rows (ireq_url req) (ireq_title req) (ireq_tab_id req)
                    (ireq_favicon req) url_hash
                    (Z.of_nat (List.length chunks)) 0
                    (combine chunks (encode_batch chunks))) in *.
    assert (Hhash : forall r, In r batch -> has_hash url_hash r = true).
    { intros r Hr. now apply page_rows_hash in Hr. }
    destruct (page_filter url_hash rows batch Hhash) as [Hpage Hothers].
    assert (Hcount : List.length batch = List.length chunks).
    { subst batch. rewrite page_rows_length, length_combine.
      rewrite one_embedding_per_chunk. apply Nat.min_id. }
    exists chunks, (others url_hash rows ++ batch).
    split; [reflexivity|]. split; [exact Hne|]. split; [exact Hall|].
    split; [|split; [|split; [exact Hothers|exact Hwf']]].
    + rewrite Hadd. cbn [bind fst snd doc_id added_chunks].
      now rewrite Hcount.
    + rewrite Hpage. subst batch.
      destruct (page_rows_contents (ireq_url req) (ireq_title req)
                  (ireq_tab_id req) (ireq_favicon req) url_hash
                  (Z.of_nat (List.length chunks))
                  (combine chunks (encode_batch chunks)) 0) as [-> _].
      now destruct (combine_fst_same_length chunks (encode_batch chunks)
                      (one_embedding_per_chunk chunks)) as [-> _].
Qed.

End IndexRoute.

Section IndexRouteSamples.

Import VectorStore IndexStore TabTools IndexRoutes IndexStoreSpec.

Local Open Scope string_scope.
Local Open Scope list_scope.

Lemma index_page_stores_chunks_witness :
  index_page sample_hexdigest sample_encode_batch memory sample_rows
    (mkIndexRequest "https://example.org/redis" [] (lit "   ") 8 [])
  = Some (Ok (sample_rows, IndexError NOTHING_TO_INDEX)) /\
  exists chunks rows',
    split_text (text_to_embed sample_index_request) = Some chunks /\
    chunks <> [] /\
    Forall (fun chunk => chunk <> []) chunks /\
    index_page sample_hexdigest sample_encode_batch memory sample_rows
      sample_index_request
    = Some (Ok (rows',
                IndexOk
                  (_url_to_id sample_hexdigest "https://example.org/redis")
                  (Z.of_nat (List.length chunks)))) /\
    map row_document
      (filter (has_hash
                 (_url_to_id sample_hexdigest "https://example.org/redis"))
         rows')
    = chunks /\
    others (_url_to_id sample_hexdigest "https://example.org/redis") rows'
    = others (_url_to_id sample_hexdigest "https://example.org/redis")
        sample_rows /\
    well_formed sample_hexdigest rows'.
Proof.
  split.
  - apply (proj1 (proj2 (index_page_stores_chunks sample_hexdigest
                           sample_encode_batch sample_digest_length
                           (fun chunks => length_map _ chunks)
                           sample_rows
                           (mkIndexRequest "https://example.org/redis" []
                              (lit "   ") 8 [])
                           sample_rows_well_formed))).
    reflexivity.
  - apply (proj2 (proj2 (index_page_stores_chunks sample_hexdigest
                           sample_encode_batch sample_digest_length
                           (fun chunks => length_map _ chunks)
                           sample_rows sample_index_request
                           sample_rows_well_formed))).
    discriminate.
Defined.

End IndexRouteSamples.

(** ** The search tool *)

Section SearchTool.

Import VectorStore VectorStoreSpec TabTools.

Local Open Scope string_scope.
Local Open Scope list_scope.

Lemma search_distinct col query_embedding top_k include_text :
  (List.length (search col query_embedding top_k include_text) <= top_k)%nat
  /\ NoDup (map url (search col query_embedding top_k include_text)).
Proof.
  unfold search. destruct (count col =? 0)%nat.
  - split; [cbn; lia|constructor].
  - set (fetched := fetch col query_embedding top_k include_text).
    set (cands := combine (metadatas fetched) (distances fetched)).
    set (docs := if include_text then documents fetched else []).
    pose proof (collapse_collapsed cands include_text docs [] 0%nat []
                  collapsed_nil) as Hinv.
    cbn [app] in Hinv.
    set (d := collapse cands include_text docs 0 []) in *.
    split; [apply firstn_le_length|].
    rewrite map_firstn. apply NoDup_firstn.
    apply Permutation_NoDup with (l := map url (values d)).
    + apply Permutation_map. symmetry. apply sorted_desc_perm.
    + rewrite (collapsed_urls cands d Hinv). apply Hinv.
Qed.

Lemma preview_length r : len (f_text_preview (format_result r)) <= 203.
Proof.
  unfold format_result. cbn [f_text_preview].
  destruct (truthy _); [|cbn; lia].
  rewrite len_app.
  match goal with
  | |- len (slice ?t 0 200) + _ <= _ =>
      pose proof (slice_len_le t 0 200 ltac:(lia))
  end.
  change (len ELLIPSIS) with 3. lia.
Qed.

(** X24: [execute_search_tabs] hands over the results of [search] in their
    order, at most [top_k] of them and no URL twice, counts them in
    [found], gives every one a preview of at most 203 characters, and gives
    its message exactly when there is no result. *)
Theorem search_tool_output encode col query top_k :
  let output := execute_search_tabs encode col query top_k in
  let results := search col (encode query) top_k true in
  so_found output = Z.of_nat (List.length (so_results output)) /\
  (List.length (so_results output) <= top_k)%nat /\
  map f_url (so_results output) = map url results /\
  map f_score (so_results output) = map score results /\
  NoDup (map f_url (so_results output)) /\
  Forall (fun f => len (f_text_preview f) <= 203) (so_results output) /\
  (so_message output <> None <-> so_results output = []).
Proof.
  intros output results. subst output. unfold execute_search_tabs.
  fold results.
  destruct (search_distinct col (encode query) top_k true) as [Hlen Hnd].
  fold results in Hlen, Hnd.
  assert (Hurls : map f_url (map format_result results) = map url results)
    by now rewrite map_map.
  assert (Hscores : map f_score (map format_result results)
                    = map score results) by now rewrite map_map.
  destruct results as [|r results'] eqn:Hres;
    cbn [nonempty negb so_found so_message so_results].
  - split; [reflexivity|]. split; [cbn; lia|].
    split; [reflexivity|]. split; [reflexivity|].
    split; [constructor|]. split; [constructor|].
    split; [reflexivity|discriminate].
  - split; [reflexivity|]. rewrite length_map.
    split; [exact Hlen|]. rewrite Hurls, Hscores.
    split; [reflexivity|]. split; [reflexivity|]. split; [exact Hnd|].
    split.
    + apply Forall_forall. intros f Hf.
      apply in_map_iff in Hf as (x & <- & _). apply preview_length.
    + split; [intros H; now contradiction H|discriminate].
Qed.

End SearchTool.
